(** * EVSE load balancer: allocator, charger state and coordinator

    A shallow embedding of
    [custom_components/evse_load_balancer/power_allocator.py], of the
    update cycle and the timing gate of [coordinator.py], and of the
    Webasto Unite adapter and the DSMR meter as far as the coordinator
    and the allocator call them, with the properties of the specification
    stated and proved (or refuted) against it, and further properties of
    the code.

    Modelling conventions.
    - Python [int] is [Z]; [dict[Phase, int]] is [gmap Phase Z]; the
      allocator's [dict[str, ChargerState]] is [gmap string ChargerState.t].
    - Python [float] is IEEE-754 binary64, taken from the Standard Library's
      executable specification [SpecFloat] at precision 53 and [emax] 1024.
    - A raised exception is the [Raise] constructor of [Result].
    - The wall clock read by [ChargerState.get_current_limit] is the
      parameter [now].
    - A charger adapter is the record of what its queries return while one
      tick runs; an adapter and a meter take the states of their entities
      as arguments.
    - The balancer is a parameter of the update cycle. *)

From Stdlib Require Import ZArith Floats.SpecFloat.
From stdpp Require Import base gmap strings list fin_maps.

Open Scope Z_scope.

(** ** Exceptions *)

Inductive exn : Type :=
  | KeyError
  | TypeError
  | AttributeError
  | ValueError
  | OverflowError
  | ZeroDivisionError.

Inductive Result (A : Type) : Type :=
  | Ok (a : A)
  | Raise (e : exn).

Arguments Ok {A} a.
Arguments Raise {A} e.

#[global] Instance Result_ret : MRet Result := fun A a => Ok a.

#[global] Instance Result_bind : MBind Result :=
  fun A B f m => match m with Ok a => f a | Raise e => Raise e end.

(** [d[k]] on a dictionary: [KeyError] when the key is absent. *)
Definition getitem `{Lookup K V M} (d : M) (k : K) : Result V :=
  match d !! k with
  | Some v => Ok v
  | None => Raise KeyError
  end.

(** ** Python floats *)

Module PyFloat.

Definition prec : Z := 53.
Definition emax : Z := 1024.

Definition float : Type := spec_float.

Definition mul : float -> float -> float := SFmul prec emax.
Definition div : float -> float -> float := SFdiv prec emax.

(** An integer as an unrounded significand with exponent 0. *)
Definition exact (z : Z) : float :=
  match z with
  | Z0 => S754_zero false
  | Zpos m => S754_finite false m 0
  | Zneg m => S754_finite true m 0
  end.

Definition finite_or_overflow (f : float) : Result float :=
  match f with
  | S754_infinity _ => Raise OverflowError
  | _ => Ok f
  end.

(** [float(z)], the conversion applied to the [int] operand of a mixed
    [int * float]: nearest double, ties to even. *)
Definition of_int (z : Z) : Result float :=
  finite_or_overflow (binary_normalize prec emax z 0 false).

(** [a / b] on two [int]s: the correctly rounded quotient. *)
Definition truediv (a b : Z) : Result float :=
  if decide (b = 0) then Raise ZeroDivisionError
  else finite_or_overflow (div (exact a) (exact b)).

(** [z * f] with [z : int] and [f : float]. *)
Definition int_mul (z : Z) (f : float) : Result float :=
  x ← of_int z; Ok (mul x f).

Definition signed (s : bool) (m : positive) : Z :=
  if s then Zneg m else Zpos m.

(** Floor and ceiling of the real number [(-1)^s * m * 2^e]. *)
Definition floor_finite (s : bool) (m : positive) (e : Z) : Z :=
  if 0 <=? e then signed s m * 2 ^ e else signed s m / 2 ^ (- e).

Definition ceil_finite (s : bool) (m : positive) (e : Z) : Z :=
  - floor_finite (negb s) m e.

(** [math.floor(f)] *)
Definition floor (f : float) : Result Z :=
  match f with
  | S754_zero _ => Ok 0
  | S754_finite s m e => Ok (floor_finite s m e)
  | S754_infinity _ => Raise OverflowError
  | S754_nan => Raise ValueError
  end.

(** [int(f)]: truncation towards zero. *)
Definition trunc (f : float) : Result Z :=
  match f with
  | S754_zero _ => Ok 0
  | S754_finite s m e =>
      Ok (if s then ceil_finite s m e else floor_finite s m e)
  | S754_infinity _ => Raise OverflowError
  | S754_nan => Raise ValueError
  end.

(** [p < f] with [p : int] and [f : float]; Python compares the two
    exactly. *)
Definition int_lt (p : Z) (f : float) : bool :=
  match f with
  | S754_nan => false
  | S754_infinity s => negb s
  | S754_zero _ => p <? 0
  | S754_finite s m e => p <? ceil_finite s m e
  end.

(** [min(f, p)]: the first argument unless the second is smaller. *)
Definition min_float_int (f : float) (p : Z) : float + Z :=
  if int_lt p f then inr p else inl f.

(** [int(x)] on the value [min] returned. *)
Definition to_int (x : float + Z) : Result Z :=
  match x with
  | inl f => trunc f
  | inr z => Ok z
  end.

(** The sign carried by a float; [S754_nan] carries none. *)
Definition has_sign (s : bool) (f : float) : Prop :=
  match f with
  | S754_zero s' | S754_infinity s' | S754_finite s' _ _ => s' = s
  | S754_nan => True
  end.

End PyFloat.

(** ** Data model *)

(** [const.Phase] *)
Inductive Phase : Type := L1 | L2 | L3.

#[global] Instance Phase_eq_dec : EqDecision Phase.
Proof. solve_decision. Defined.

Definition Phase_to_nat (p : Phase) : nat :=
  match p with L1 => 0%nat | L2 => 1%nat | L3 => 2%nat end.

Definition Phase_of_nat (n : nat) : Phase :=
  match n with O => L1 | S O => L2 | _ => L3 end.

#[global] Instance Phase_countable : Countable Phase.
Proof.
  refine (inj_countable' Phase_to_nat Phase_of_nat _).
  intros p. destruct p; reflexivity.
Defined.

(** [list(Phase)]: the members in definition order. *)
Definition Phases : list Phase := [L1; L2; L3].

(** [d.items()]. Every dictionary keyed by [Phase] in this program is built
    by [dict.fromkeys(Phase, _)], by copying such a dictionary, or by
    writing phases in the order of [list(Phase)], so iteration is in
    definition order. *)
Definition items (d : gmap Phase Z) : list (Phase * Z) :=
  omap (fun p => (fun v => (p, v)) <$> d !! p) Phases.

(** [d.values()] *)
Definition values (d : gmap Phase Z) : list Z := snd <$> items d.

(** [dict.fromkeys(Phase, v)] *)
Definition fromkeys (v : Z) : gmap Phase Z :=
  <[L1 := v]> (<[L2 := v]> (<[L3 := v]> ∅)).

(** [min(d.values())] *)
Definition min_values (d : gmap Phase Z) : Result Z :=
  match values d with
  | [] => Raise ValueError
  | v :: vs => Ok (foldl Z.min v vs)
  end.

(** Truthiness of a [dict | None]: [None] and [{}] are false. *)
Definition truthy (d : option (gmap Phase Z)) : bool :=
  match d with
  | Some m => bool_decide (m ≠ ∅)
  | None => false
  end.

(** [any(f(p, d[p]) for p in d)]: stops at the first true element, and at
    the first exception. *)
Fixpoint any_of (f : Phase -> Z -> Result bool) (l : list (Phase * Z))
  : Result bool :=
  match l with
  | [] => Ok false
  | (p, v) :: rest =>
      b ← f p v;
      if b : bool then Ok true else any_of f rest
  end.

(** ** Charger adapter *)

Module Charger.

Record t : Type := mk {
  id : string;
  has_synced_phase_limits : bool;
  current_change_settle_time : Z;
  get_current_limit : option (gmap Phase Z);
  get_max_current_limit : option (gmap Phase Z);
  can_charge : bool
}.

End Charger.

(** ** ChargerState *)

Module ChargerState.

Record t : Type := mk {
  charger : Charger.t;
  requested_current : option (gmap Phase Z);
  last_calculated_current : option (gmap Phase Z);
  last_applied_current : option (gmap Phase Z);
  last_update_time : Z;
  manual_override_detected : bool;
  initialized : bool;
  _active_session : bool
}.

(** [ChargerState(charger)] *)
Definition __init__ (c : Charger.t) : t :=
  mk c None None None 0 false false false.

(** Field assignments. *)
Definition set_charger (c : Charger.t) (self : t) : t :=
  mk c (requested_current self) (last_calculated_current self)
     (last_applied_current self) (last_update_time self)
     (manual_override_detected self) (initialized self)
     (_active_session self).

Definition set_requested_current (v : option (gmap Phase Z)) (self : t) : t :=
  mk (charger self) v (last_calculated_current self)
     (last_applied_current self) (last_update_time self)
     (manual_override_detected self) (initialized self)
     (_active_session self).

Definition set_last_calculated_current (v : option (gmap Phase Z))
    (self : t) : t :=
  mk (charger self) (requested_current self) v
     (last_applied_current self) (last_update_time self)
     (manual_override_detected self) (initialized self)
     (_active_session self).

Definition set_last_applied_current (v : option (gmap Phase Z))
    (self : t) : t :=
  mk (charger self) (requested_current self) (last_calculated_current self)
     v (last_update_time self)
     (manual_override_detected self) (initialized self)
     (_active_session self).

Definition set_last_update_time (v : Z) (self : t) : t :=
  mk (charger self) (requested_current self) (last_calculated_current self)
     (last_applied_current self) v
     (manual_override_detected self) (initialized self)
     (_active_session self).

Definition set_manual_override_detected (v : bool) (self : t) : t :=
  mk (charger self) (requested_current self) (last_calculated_current self)
     (last_applied_current self) (last_update_time self)
     v (initialized self) (_active_session self).

Definition set_initialized (v : bool) (self : t) : t :=
  mk (charger self) (requested_current self) (last_calculated_current self)
     (last_applied_current self) (last_update_time self)
     (manual_override_detected self) v (_active_session self).

Definition set_active_session (v : bool) (self : t) : t :=
  mk (charger self) (requested_current self) (last_calculated_current self)
     (last_applied_current self) (last_update_time self)
     (manual_override_detected self) (initialized self) v.

(** [get_current_limit]; [now] is [int(time())]. *)
Definition get_current_limit (now : Z) (self : t) : option (gmap Phase Z) :=
  if bool_decide
       (now - last_update_time self
        < Charger.current_change_settle_time (charger self))
  then last_applied_current self
  else Charger.get_current_limit (charger self).

(** [initialize]: the returned flag and the state left behind. *)
Definition initialize (self : t) : bool * t :=
  if initialized self then (true, self)
  else
    let current_limits := Charger.get_current_limit (charger self) in
    if truthy current_limits then
      (true,
       set_initialized true
         (set_active_session (Charger.can_charge (charger self))
            (set_last_applied_current current_limits
               (set_requested_current current_limits self))))
    else (false, self).

(** The third conjunct of the override test,
    [any(current_setting[phase] != self.last_applied_current[phase]
         for phase in current_setting)]. *)
Definition differs_from (current_setting last_applied : gmap Phase Z)
  : Result bool :=
  any_of (fun phase v =>
            l ← getitem last_applied phase;
            Ok (bool_decide (v ≠ l)))
         (items current_setting).

(** The test of the [elif] in [detect_manual_override]; [and] evaluates
    its operands left to right and stops at the first false one. *)
Definition override_test (current_setting : gmap Phase Z) (self : t)
  : Result bool :=
  match last_applied_current self with
  | Some last_applied =>
      if bool_decide (last_applied ≠ ∅) then
        differs ← differs_from current_setting last_applied;
        Ok (differs
            && bool_decide (Some current_setting ≠ requested_current self))
      else Ok false
  | None => Ok false
  end.

(** [detect_manual_override]. The only expression that can raise is the
    test of the [elif], and no field has been written when it is
    evaluated, so [Raise] stands for an exception leaving [self]
    untouched. *)
Definition detect_manual_override (now : Z) (self : t) : Result t :=
  match get_current_limit now self with
  | Some current_setting =>
      if bool_decide (current_setting ≠ ∅) then
        let is_charging := Charger.can_charge (charger self) in
        self1 ←
          (if is_charging && negb (_active_session self) then
             let max_limits := Charger.get_max_current_limit (charger self) in
             if truthy max_limits then
               Ok (set_active_session true
                     (set_requested_current max_limits self))
             else Ok self
           else
             override ← override_test current_setting self;
             if override : bool then
               Ok (set_manual_override_detected true
                     (set_requested_current (Some current_setting) self))
             else Ok self);
        (* Always set active_session *)
        Ok (set_active_session is_charging self1)
      else Ok self
  | None => Ok self
  end.

End ChargerState.

(** ** PowerAllocator *)

Module PowerAllocator.

Import ChargerState.

(** Records written to the module logger by [update_applied_current]. *)
Inductive LogRecord : Type :=
  | Warning (msg : string) (charger_id : string)
  | Debug (msg : string) (charger_id : string)
      (applied_current : gmap Phase Z).

(** [self._chargers] is the whole state of the allocator. *)

(** [add_charger]: the returned flag and the chargers left behind. *)
Definition add_charger (c : Charger.t)
    (_chargers : gmap string ChargerState.t)
  : bool * gmap string ChargerState.t :=
  match _chargers !! Charger.id c with
  | Some _ => (false, _chargers)
  | None => (true, <[Charger.id c := ChargerState.__init__ c]> _chargers)
  end.

(** [add_charger_and_initialize]: the returned flag and the chargers left
    behind. *)
Definition add_charger_and_initialize (c : Charger.t)
    (_chargers : gmap string ChargerState.t)
  : Result (bool * gmap string ChargerState.t) :=
  let '(added, _chargers) := add_charger c _chargers in
  if added : bool then
    state ← getitem _chargers (Charger.id c);
    let '(ok, state) := initialize state in
    Ok (ok, <[Charger.id c := state]> _chargers)
  else Ok (false, _chargers).

(** [remove_charger]: the returned flag and the chargers left behind. *)
Definition remove_charger (c : Charger.t)
    (_chargers : gmap string ChargerState.t)
  : bool * gmap string ChargerState.t :=
  match _chargers !! Charger.id c with
  | Some _ => (true, delete (Charger.id c) _chargers)
  | None => (false, _chargers)
  end.

(** [_active_chargers] *)
Definition _active_chargers (_chargers : gmap string ChargerState.t)
  : gmap string ChargerState.t :=
  filter (fun kv => Charger.can_charge (charger kv.2) = true) _chargers.

(** [should_monitor] *)
Definition should_monitor (_chargers : gmap string ChargerState.t) : bool :=
  bool_decide (_active_chargers _chargers ≠ ∅).

(** [update_applied_current]: the log records written, and either the
    chargers after the call or the exception raised. The guard logs and
    falls through to the subscript. *)
Definition update_applied_current (_chargers : gmap string ChargerState.t)
    (charger_id : string) (applied_current : gmap Phase Z) (timestamp : Z)
  : list LogRecord * Result (gmap string ChargerState.t) :=
  let log :=
    match _chargers !! charger_id with
    | None => [Warning "Charger %s not found in PowerAllocator" charger_id]
    | Some _ => []
    end in
  match getitem _chargers charger_id with
  | Raise e => (log, Raise e)
  | Ok state =>
      let state :=
        set_last_update_time timestamp
          (set_last_applied_current (Some applied_current) state) in
      (log ++ [Debug "Updated applied current for charger %s: %s"
                     charger_id applied_current],
       Ok (<[charger_id := state]> _chargers))
  end.

(** *** [_distribute_cuts] *)

(** First loop: [charger_currents]; [total_current] is its sum. *)
Fixpoint collect_currents (now : Z) (phase : Phase)
    (active : list (string * ChargerState.t)) : Result (list (string * Z)) :=
  match active with
  | [] => Ok []
  | (charger_id, state) :: rest =>
      let current_setting := get_current_limit now state in
      match current_setting with
      | Some d =>
          if bool_decide (d ≠ ∅) then
            current ← getitem d phase;
            tl ← collect_currents now phase rest;
            Ok ((charger_id, current) :: tl)
          else collect_currents now phase rest
      | None => collect_currents now phase rest
      end
  end.

Definition total (l : list (string * Z)) : Z :=
  foldr (fun x acc => x.2 + acc) 0 l.

(** [cut = floor(deficit * (current / total_current))] *)
Definition proportional_cut (deficit current total_current : Z) : Result Z :=
  proportion ← PyFloat.truediv current total_current;
  product ← PyFloat.int_mul deficit proportion;
  PyFloat.floor product.

(** [state = self._chargers[charger_id]; current_setting =
    state.get_current_limit(); if charger_id not in result:
    result[charger_id] = current_setting.copy()], followed by the read
    of [current_setting[phase]] and of [result[charger_id]]. *)
Definition open_entry (now : Z) (_chargers : gmap string ChargerState.t)
    (phase : Phase) (charger_id : string)
    (result : gmap string (gmap Phase Z))
  : Result (Z * gmap Phase Z * gmap string (gmap Phase Z)) :=
  state ← getitem _chargers charger_id;
  match get_current_limit now state with
  | Some current_setting =>
      let result :=
        match result !! charger_id with
        | None => <[charger_id := current_setting]> result
        | Some _ => result
        end in
      old ← getitem current_setting phase;
      entry ← getitem result charger_id;
      Ok (old, entry, result)
  | None =>
      match result !! charger_id with
      | None => Raise AttributeError
      | Some _ => Raise TypeError
      end
  end.

(** Second loop of [_distribute_cuts]. *)
Fixpoint apply_cuts (now : Z) (_chargers : gmap string ChargerState.t)
    (phase : Phase) (deficit total_current : Z)
    (charger_currents : list (string * Z))
    (result : gmap string (gmap Phase Z))
  : Result (gmap string (gmap Phase Z)) :=
  match charger_currents with
  | [] => Ok result
  | (charger_id, current) :: rest =>
      cut ← proportional_cut deficit current total_current;
      '(old, entry, result) ←
        open_entry now _chargers phase charger_id result;
      apply_cuts now _chargers phase deficit total_current rest
        (<[charger_id := <[phase := Z.max 0 (old + cut)]> entry]> result)
  end.

Definition _distribute_cuts (now : Z)
    (_chargers : gmap string ChargerState.t)
    (phase : Phase) (deficit : Z) (result : gmap string (gmap Phase Z))
  : Result (gmap string (gmap Phase Z)) :=
  charger_currents ←
    collect_currents now phase (map_to_list (_active_chargers _chargers));
  let total_current := total charger_currents in
  if bool_decide (total_current = 0) then Ok result
  else apply_cuts now _chargers phase deficit total_current
         charger_currents result.

(** *** [_distribute_increases] *)

(** First loop: [potential_increases]; [total_potential] is its sum. *)
Fixpoint collect_potentials (now : Z) (phase : Phase)
    (active : list (string * ChargerState.t)) : Result (list (string * Z)) :=
  match active with
  | [] => Ok []
  | (charger_id, state) :: rest =>
      let current_setting := get_current_limit now state in
      match current_setting, requested_current state with
      | Some d, Some r =>
          if bool_decide (d ≠ ∅) && bool_decide (r ≠ ∅) then
            current ← getitem d phase;
            requested ← getitem r phase;
            tl ← collect_potentials now phase rest;
            if bool_decide (requested > current)
            then Ok ((charger_id, requested - current) :: tl)
            else Ok tl
          else collect_potentials now phase rest
      | _, _ => collect_potentials now phase rest
      end
  end.

(** [int(min(surplus * (potential / total_potential), potential))] *)
Definition proportional_increase (surplus potential total_potential : Z)
  : Result Z :=
  proportion ← PyFloat.truediv potential total_potential;
  product ← PyFloat.int_mul surplus proportion;
  PyFloat.to_int (PyFloat.min_float_int product potential).

(** Second loop of [_distribute_increases]. *)
Fixpoint apply_increases (now : Z) (_chargers : gmap string ChargerState.t)
    (phase : Phase) (surplus total_potential : Z)
    (potential_increases : list (string * Z))
    (result : gmap string (gmap Phase Z))
  : Result (gmap string (gmap Phase Z)) :=
  match potential_increases with
  | [] => Ok result
  | (charger_id, potential) :: rest =>
      increase ← proportional_increase surplus potential total_potential;
      '(old, entry, result) ←
        open_entry now _chargers phase charger_id result;
      apply_increases now _chargers phase surplus total_potential rest
        (<[charger_id := <[phase := old + increase]> entry]> result)
  end.

Definition _distribute_increases (now : Z)
    (_chargers : gmap string ChargerState.t)
    (phase : Phase) (surplus : Z) (result : gmap string (gmap Phase Z))
  : Result (gmap string (gmap Phase Z)) :=
  potential_increases ←
    collect_potentials now phase (map_to_list (_active_chargers _chargers));
  let total_potential := total potential_increases in
  if bool_decide (total_potential = 0) then Ok result
  else apply_increases now _chargers phase surplus total_potential
         potential_increases result.

(** *** [_allocate_current] *)

(** The loop over [available_currents.items()]. *)
Fixpoint distribute (now : Z) (_chargers : gmap string ChargerState.t)
    (available : list (Phase * Z)) (result : gmap string (gmap Phase Z))
  : Result (gmap string (gmap Phase Z)) :=
  match available with
  | [] => Ok result
  | (phase, available_current) :: rest =>
      result ←
        (if bool_decide (available_current < 0) then
           _distribute_cuts now _chargers phase available_current result
         else if bool_decide (available_current > 0) then
           _distribute_increases now _chargers phase available_current result
         else Ok result);
      distribute now _chargers rest result
  end.

(** The body of the flattening loop for one charger of [result]: the
    value [result[charger_id]] holds afterwards. *)
Definition flatten_entry (processed_phases : gset Phase) (synced : bool)
    (charger_currents : gmap Phase Z) : Result (gmap Phase Z) :=
  if synced then
    let processed_currents :=
      filter (fun kv => kv.1 ∈ processed_phases) charger_currents in
    if bool_decide (processed_currents ≠ ∅) then
      min_current ← min_values processed_currents;
      Ok (fromkeys min_current)
    else Ok charger_currents
  else Ok charger_currents.

(** The flattening loop over [result.items()]. *)
Fixpoint flatten (_chargers : gmap string ChargerState.t)
    (processed_phases : gset Phase)
    (entries : list (string * gmap Phase Z))
    (result : gmap string (gmap Phase Z))
  : Result (gmap string (gmap Phase Z)) :=
  match entries with
  | [] => Ok result
  | (charger_id, charger_currents) :: rest =>
      state ← getitem (_active_chargers _chargers) charger_id;
      flattened ←
        flatten_entry processed_phases
          (Charger.has_synced_phase_limits (charger state))
          charger_currents;
      flatten _chargers processed_phases rest
        (<[charger_id := flattened]> result)
  end.

Definition _allocate_current (now : Z)
    (_chargers : gmap string ChargerState.t)
    (available_currents : gmap Phase Z)
  : Result (gmap string (gmap Phase Z)) :=
  result ← distribute now _chargers (items available_currents) ∅;
  let processed_phases := dom available_currents in
  flatten _chargers processed_phases (map_to_list result) result.

(** *** [update_allocation] *)

(** The body of the first loop, for one state:
    [if not state.initialized and not state.initialize(): continue],
    then [state.detect_manual_override()]. *)
Definition prepare (now : Z) (state : ChargerState.t)
  : Result ChargerState.t :=
  if initialized state then detect_manual_override now state
  else
    let '(ok, state) := initialize state in
    if ok : bool then detect_manual_override now state else Ok state.

(** The loop over [self._chargers.values()]. *)
Fixpoint prepare_all (now : Z) (states : list (string * ChargerState.t))
    (_chargers : gmap string ChargerState.t)
  : Result (gmap string ChargerState.t) :=
  match states with
  | [] => Ok _chargers
  | (charger_id, state) :: rest =>
      state ← prepare now state;
      prepare_all now rest (<[charger_id := state]> _chargers)
  end.

(** The test [has_changes] of the last loop. *)
Definition has_changes (synced : bool)
    (current_setting new_limits : gmap Phase Z) : Result bool :=
  if synced then
    min_current ← min_values current_setting;
    min_new ←
      (if bool_decide (new_limits ≠ ∅) then min_values new_limits
       else Ok min_current);
    Ok (bool_decide (min_new ≠ min_current))
  else
    any_of (fun phase v =>
              c ← getitem current_setting phase;
              Ok (bool_decide (v ≠ c)))
           (items new_limits).

(** The loop over [allocated_currents.items()]: the chargers whose limits
    change, and the states with [last_calculated_current] recorded. *)
Fixpoint collect_updates (now : Z)
    (allocated : list (string * gmap Phase Z))
    (_chargers : gmap string ChargerState.t)
    (result : gmap string (gmap Phase Z))
  : Result (gmap string (gmap Phase Z) * gmap string ChargerState.t) :=
  match allocated with
  | [] => Ok (result, _chargers)
  | (charger_id, new_limits) :: rest =>
      state ← getitem _chargers charger_id;
      match get_current_limit now state with
      | Some current_setting =>
          if bool_decide (current_setting ≠ ∅) then
            changes ←
              has_changes (Charger.has_synced_phase_limits (charger state))
                current_setting new_limits;
            if changes : bool then
              collect_updates now rest
                (<[charger_id :=
                     set_manual_override_detected false
                       (set_last_calculated_current (Some new_limits) state)]>
                   _chargers)
                (<[charger_id := new_limits]> result)
            else collect_updates now rest _chargers result
          else collect_updates now rest _chargers result
      | None => collect_updates now rest _chargers result
      end
  end.

(** [update_allocation]: the new limits per charger, and the chargers
    left behind. *)
Definition update_allocation (now : Z)
    (_chargers : gmap string ChargerState.t)
    (available_currents : gmap Phase Z)
  : Result (gmap string (gmap Phase Z) * gmap string ChargerState.t) :=
  if bool_decide (_active_chargers _chargers = ∅) then Ok (∅, _chargers)
  else
    _chargers ← prepare_all now (map_to_list _chargers) _chargers;
    allocated_currents ← _allocate_current now _chargers available_currents;
    collect_updates now (map_to_list allocated_currents) _chargers ∅.

End PowerAllocator.

(** ** Coordinator *)

Module Coordinator.

Definition MIN_CHARGER_UPDATE_DELAY : Z := 20.

(** The fields of [EVSELoadBalancerCoordinator] read by the functions
    below. [fuse_size] and [charge_limit_hysteresis] are the values the
    configuration entry yields; the latter is
    [get_option_value(config_entry, OPTION_CHARGE_LIMIT_HYSTERESIS)], in
    minutes. *)
Record t : Type := mk {
  _last_charger_update_time : option Z;
  _last_decrease_time : option Z;
  fuse_size : Z;
  charge_limit_hysteresis : Z
}.

(** [get_available_current_for_phase], given what the meter reports: an
    [int] or [None], so that [floor] leaves the difference as it is. *)
Definition get_available_current_for_phase (self : t)
    (active_current : option Z) : option Z :=
  match active_current with
  | Some a => Some (Z.min (fuse_size self) (fuse_size self - a))
  | None => None
  end.

(** [any(new_settings[p] < current_limits[p] for p in new_settings)] *)
Definition any_lower (new_settings current_limits : gmap Phase Z)
  : Result bool :=
  any_of (fun p v => c ← getitem current_limits p; Ok (bool_decide (v < c)))
         (items new_settings).

(** [any(new_settings[p] > current_limits[p] for p in new_settings)] *)
Definition any_higher (new_settings current_limits : gmap Phase Z)
  : Result bool :=
  any_of (fun p v => c ← getitem current_limits p; Ok (bool_decide (v > c)))
         (items new_settings).

(** [_may_update_charger_settings] *)
Definition _may_update_charger_settings (self : t)
    (new_settings current_limits : gmap Phase Z) (timestamp : Z)
  : Result bool :=
  match _last_charger_update_time self with
  | None => Ok true
  | Some last_update_time =>
      let of_charger_delay_minutes := charge_limit_hysteresis self in
      lower ← any_lower new_settings current_limits;
      if lower : bool then Ok true
      else if bool_decide
                (timestamp - last_update_time <= MIN_CHARGER_UPDATE_DELAY)
      then Ok false
      else
        let last_decrease_time :=
          match _last_decrease_time self with
          | Some t => t
          | None => last_update_time
          end in
        higher ← any_higher new_settings current_limits;
        if (higher : bool)
           && bool_decide (timestamp - last_decrease_time
                           > of_charger_delay_minutes * 60)
        then Ok true
        else Ok false
  end.

(** *** The update cycle *)

Definition COORDINATOR_STATE_AWAITING_CHARGER : string := "awaiting_charger".
Definition COORDINATOR_STATE_MONITORING_LOAD : string := "monitoring_loads".
Definition EVENT_ACTION_NEW_CHARGER_LIMITS : string := "new_charger_limits".

Definition set_last_charger_update_time (v : option Z) (self : t) : t :=
  mk v (_last_decrease_time self) (fuse_size self)
     (charge_limit_hysteresis self).

Definition set_last_decrease_time (v : option Z) (self : t) : t :=
  mk (_last_charger_update_time self) v (fuse_size self)
     (charge_limit_hysteresis self).

(** [_available_phases], given [phase_count =
    int(config_entry.data.get(CONF_PHASE_COUNT, 3))]: the slice
    [list(Phase)[:phase_count]]. A negative stop counts from the end. *)
Definition _available_phases (phase_count : Z) : list Phase :=
  let stop :=
    if bool_decide (phase_count < 0)
    then Z.max 0 (Z.of_nat (length Phases) + phase_count)
    else phase_count in
  take (Z.to_nat stop) Phases.

(** The loop of [_get_available_currents]; [meter phase] is what
    [self._meter.get_active_phase_current(phase)] returns. *)
Fixpoint available_loop (self : t) (meter : Phase -> option Z)
    (phases : list Phase) (available_currents : gmap Phase Z)
  : option (gmap Phase Z) :=
  match phases with
  | [] => Some available_currents
  | phase_obj :: rest =>
      match get_available_current_for_phase self (meter phase_obj) with
      | None => None
      | Some current =>
          available_loop self meter rest
            (<[phase_obj := current]> available_currents)
      end
  end.

(** [_get_available_currents] *)
Definition _get_available_currents (self : t) (meter : Phase -> option Z)
    (phase_count : Z) : option (gmap Phase Z) :=
  available_loop self meter (_available_phases phase_count) ∅.

(** [_should_check_charger] *)
Definition _should_check_charger
    (_power_allocator : gmap string ChargerState.t) : bool :=
  PowerAllocator.should_monitor _power_allocator.

(** [get_load_balancing_state] *)
Definition get_load_balancing_state
    (_power_allocator : gmap string ChargerState.t) : string :=
  if _should_check_charger _power_allocator
  then COORDINATOR_STATE_MONITORING_LOAD
  else COORDINATOR_STATE_AWAITING_CHARGER.

(** What a cycle does to Home Assistant: the sensors are refreshed, an
    event is fired on the bus, a task that calls
    [self._charger.set_current_limit] is created. Log records are left
    out. *)
Inductive Effect : Type :=
  | UpdateSensors
  | FireEvent (action : string) (new_limits : gmap Phase Z)
  | SetCurrentLimit (new_limits : gmap Phase Z).

(** [_update_charger_settings]; the device entry read by
    [_emit_charger_event] is taken to exist. *)
Definition _update_charger_settings (self : t) (new_limits : gmap Phase Z)
    (timestamp : Z) : t * list Effect :=
  (set_last_charger_update_time (Some timestamp) self,
   [FireEvent EVENT_ACTION_NEW_CHARGER_LIMITS new_limits;
    SetCurrentLimit new_limits]).

(** [_execute_update_cycle]. The balancer is not part of this
    development: [compute_availability available_currents timestamp]
    stands for [self._balancer_algo.compute_availability]. [meter] and
    [_charger] are what the meter and the charger adapter report during
    the cycle, [clock] is [int(time())] as read by the allocator and
    [timestamp] is [now.timestamp()]. The result is the coordinator, the
    allocator's chargers and the effects, in order; [Raise] stands for an
    exception leaving the cycle. *)
Definition _execute_update_cycle
    (compute_availability : gmap Phase Z -> Z -> gmap Phase Z)
    (meter : Phase -> option Z) (phase_count : Z) (_charger : Charger.t)
    (clock timestamp : Z)
    (self : t) (_power_allocator : gmap string ChargerState.t)
  : Result (t * gmap string ChargerState.t * list Effect) :=
  let available_currents := _get_available_currents self meter phase_count in
  match available_currents with
  | None => Ok (self, _power_allocator, [UpdateSensors])
  | Some available_currents =>
      if negb (_should_check_charger _power_allocator)
      then Ok (self, _power_allocator, [UpdateSensors])
      else
        let computed_availability :=
          compute_availability available_currents timestamp in
        '(allocation_results, _power_allocator) ←
          PowerAllocator.update_allocation clock _power_allocator
            computed_availability;
        let allocation_result := allocation_results !! Charger.id _charger in
        match Charger.get_current_limit _charger with
        | None => Ok (self, _power_allocator, [UpdateSensors])
        | Some current_limit =>
            match allocation_result with
            | Some new_limits =>
                if bool_decide (new_limits ≠ ∅) then
                  may ← _may_update_charger_settings self new_limits
                          current_limit timestamp;
                  if may : bool then
                    is_decrease ← any_lower new_limits current_limit;
                    let self :=
                      if is_decrease : bool
                      then set_last_decrease_time (Some timestamp) self
                      else self in
                    let '(self, effects) :=
                      _update_charger_settings self new_limits timestamp in
                    _power_allocator ←
                      (PowerAllocator.update_applied_current _power_allocator
                         (Charger.id _charger) new_limits timestamp).2;
                    Ok (self, _power_allocator, UpdateSensors :: effects)
                  else Ok (self, _power_allocator, [UpdateSensors])
                else Ok (self, _power_allocator, [UpdateSensors])
            | None => Ok (self, _power_allocator, [UpdateSensors])
            end
        end
  end.

(** *** Sensors *)

(** [self._sensors.remove(sensor)]: the first occurrence is removed. *)
Fixpoint list_remove `{EqDecision A} (x : A) (l : list A) : list A :=
  match l with
  | [] => []
  | y :: l => if decide (x = y) then l else y :: list_remove x l
  end.

(** [register_sensor] *)
Definition register_sensor `{EqDecision A} (_sensors : list A) (sensor : A)
  : list A :=
  if bool_decide (sensor ∈ _sensors) then _sensors
  else _sensors ++ [sensor].

(** [unregister_sensor] *)
Definition unregister_sensor `{EqDecision A} (_sensors : list A)
    (sensor : A) : list A :=
  if bool_decide (sensor ∈ _sensors) then list_remove sensor _sensors
  else _sensors.

End Coordinator.

(** ** Webasto Unite charger adapter *)

Module WebastoUniteCharger.

(** [WebastoUniteStatusMap] *)
Definition Available : Z := 0.
Definition Preparing : Z := 1.
Definition Charging : Z := 2.
Definition SuspendedEVSE : Z := 3.
Definition SuspendedEV : Z := 4.
Definition Finishing : Z := 5.
Definition Reserved : Z := 6.
Definition Unavailable : Z := 7.
Definition Faulted : Z := 8.

(** [status in [...]], with [status] what [_get_status] returns: an
    [int], or [None], which equals no member of the list. *)
Definition status_in (status : option Z) (l : list Z) : bool :=
  match status with
  | Some s => bool_decide (s ∈ l)
  | None => false
  end.

(** [car_connected] *)
Definition car_connected (status : option Z) : bool :=
  status_in status
    [Preparing; Charging; SuspendedEVSE; SuspendedEV; Finishing].

(** [can_charge] *)
Definition can_charge (status : option Z) : bool :=
  status_in status [Preparing; Charging; SuspendedEV].

(** [is_charging] *)
Definition is_charging (status : option Z) : bool :=
  bool_decide (status = Some Charging).

(** [has_synced_phase_limits] *)
Definition has_synced_phase_limits : bool := true.

(** [get_current_limit] and [get_max_current_limit], given the entity
    state as [int(float(state))] reads it: [None] when the state is
    missing or cannot be parsed. *)
Definition get_current_limit (state : option Z) : option (gmap Phase Z) :=
  match state with
  | None => None
  | Some current_limit => Some (fromkeys current_limit)
  end.

Definition get_max_current_limit (state : option Z)
  : option (gmap Phase Z) :=
  match state with
  | None => None
  | Some max_limit => Some (fromkeys max_limit)
  end.

(** [set_current_limit]: the [value] of the [number.set_value] service
    call. *)
Definition set_current_limit (limit : gmap Phase Z) : Result Z :=
  min_values limit.

(** What the adapter reports while one tick runs, given the states of its
    three entities; the identifier and the settle time come from the
    base class. *)
Definition adapter (id : string) (current_change_settle_time : Z)
    (limit_state max_state status : option Z) : Charger.t :=
  Charger.mk id has_synced_phase_limits current_change_settle_time
    (get_current_limit limit_state) (get_max_current_limit max_state)
    (can_charge status).

End WebastoUniteCharger.

(** ** DSMR meter *)

Module DsmrMeter.

Import PyFloat.

(** [a - b] on two [float]s. *)
Definition sub : float -> float -> float := SFsub prec emax.

(** [a / b] on two [float]s. *)
Definition float_truediv (a b : float) : Result float :=
  match b with
  | S754_zero _ => Raise ZeroDivisionError
  | _ => Ok (div a b)
  end.

(** Truthiness of a [float]: only the zeros are false. *)
Definition float_truthy (f : float) : bool :=
  match f with
  | S754_zero _ => false
  | _ => true
  end.

(** [get_active_phase_power], given the states of the consumption and
    of the production sensor of the phase. *)
Definition get_active_phase_power
    (consumption_state production_state : option float) : option float :=
  match consumption_state with
  | None => None
  | Some consumption_state =>
      let production_state := default (S754_zero false) production_state in
      Some (sub consumption_state production_state)
  end.

(** [get_active_phase_current], given the three sensor states of the
    phase. *)
Definition get_active_phase_current
    (consumption_state production_state voltage_state : option float)
  : Result (option Z) :=
  let active_power :=
    get_active_phase_power consumption_state production_state in
  match active_power, voltage_state with
  | Some active_power, Some voltage_state =>
      if float_truthy voltage_state then
        thousand ← of_int 1000;
        quotient ← float_truediv (mul active_power thousand) voltage_state;
        current ← floor quotient;
        Ok (Some current)
      else Ok None
  | _, _ => Ok None
  end.

End DsmrMeter.



(** * Statements and scenarios *)

Section Statements.

Import ChargerState PowerAllocator.

(** The object after a call of [detect_manual_override]: the returned
    state, or [self] itself when the call raised (no field is written
    before the raising test). *)
Definition after_detect (now : Z) (self : t) : t :=
  match detect_manual_override now self with
  | Ok self' => self'
  | Raise _ => self
  end.

(** Every per-phase value of every charger of [result] satisfies [Q]. *)
Definition all_entries (Q : Phase -> Z -> Prop)
    (result : gmap string (gmap Phase Z)) : Prop :=
  forall charger_id d p v,
    result !! charger_id = Some d -> d !! p = Some v -> Q p v.

(** Every per-phase value of [result] lies in [0, fuse]. *)
Definition setpoints_within (fuse : Z)
    (result : gmap string (gmap Phase Z)) : Prop :=
  all_entries (fun _ v => 0 <= v <= fuse) result.

(** Every charger of [result] has a value on some phase of [processed]. *)
Definition touches (processed : Phase -> Prop)
    (result : gmap string (gmap Phase Z)) : Prop :=
  forall charger_id d,
    result !! charger_id = Some d ->
    exists p, processed p /\ is_Some (d !! p).

(** [d] carries one scalar on every phase: the least value of
    [charger_currents] over the phases selected by [sel]. *)
Definition flattened_over (sel : Phase -> Prop)
    (charger_currents d : gmap Phase Z) : Prop :=
  exists m,
    d = fromkeys m
    /\ (exists p, sel p /\ charger_currents !! p = Some m)
    /\ (forall p v, sel p -> charger_currents !! p = Some v -> m <= v).

(** The exact quotient of the specification's formulas, rounded down. *)
Definition exact_share (delta part whole : Z) : Z := (delta * part) / whole.

(** The code's cut equals the exact share, for one input and for every
    delta in [-D, -1], every total in [1, Tmax] and every part of it. *)
Definition cut_agrees (deficit current total_current : Z) : bool :=
  match proportional_cut deficit current total_current with
  | Ok cut => cut =? exact_share deficit current total_current
  | Raise _ => false
  end.

Definition cuts_agree (D Tmax : Z) : bool :=
  forallb (fun T =>
    forallb (fun c =>
      forallb (fun d => cut_agrees d c T) (seqZ (- D) D))
      (seqZ 0 (T + 1)))
    (seqZ 1 Tmax).

(** The same for the increase, for every delta in [1, S], every total
    potential in [1, Pmax] and every positive part of it. *)
Definition increase_agrees (surplus potential total_potential : Z) : bool :=
  match proportional_increase surplus potential total_potential with
  | Ok increase =>
      increase =? Z.min (exact_share surplus potential total_potential)
                    potential
  | Raise _ => false
  end.

Definition increases_agree (S Pmax : Z) : bool :=
  forallb (fun P =>
    forallb (fun p =>
      forallb (fun s => increase_agrees s p P) (seqZ 1 S))
      (seqZ 1 P))
    (seqZ 1 Pmax).

(** The time an increase is measured against: the last decrease, or the
    last charger update when no decrease has been recorded. *)
Definition hysteresis_reference (self : Coordinator.t) : option Z :=
  match Coordinator._last_decrease_time self with
  | Some t => Some t
  | None => Coordinator._last_charger_update_time self
  end.

(** A proposal is let through only when the hysteresis has elapsed since
    the reference time. *)
Definition applied_only_after_hysteresis (self : Coordinator.t)
    (new_settings current_limits : gmap Phase Z) (timestamp : Z) : Prop :=
  Coordinator._may_update_charger_settings self new_settings current_limits
    timestamp = Ok true ->
  exists t,
    hysteresis_reference self = Some t
    /\ timestamp - t > Coordinator.charge_limit_hysteresis self * 60.

(** A charger written at 100 s with a settle time of 5 s; 27 A were
    applied and the adapter reports 32 A. *)
Definition settle_example : t :=
  mk (Charger.mk "c1" false 5 (Some (fromkeys 32)) (Some (fromkeys 32)) true)
     (Some (fromkeys 32)) None (Some (fromkeys 27)) 100 false true true.

(** Requested 32 A, 27 A applied at time 0 with a settle time of 5 s. *)
Definition slow_charger (reported : Z) : t :=
  mk (Charger.mk "c1" false 5 (Some (fromkeys reported))
        (Some (fromkeys 32)) true)
     (Some (fromkeys 32)) None (Some (fromkeys 27)) 0 false true true.

(** An adapter at 16 A whose car can charge, and a state initialized at
    16 A while no car could. *)
Definition new_session (max_limits : option (gmap Phase Z)) : Charger.t :=
  Charger.mk "c1" false 5 (Some (fromkeys 16)) max_limits true.

Definition before_session : t :=
  mk (new_session None) (Some (fromkeys 16)) None (Some (fromkeys 16)) 0
     false true false.

(** A charger that can charge, with the settle time elapsed at the times
    used in the scenarios. *)
Definition charging (charger_id : string) (synced : bool)
    (limit requested : gmap Phase Z) : ChargerState.t :=
  ChargerState.mk
    (Charger.mk charger_id synced 5 (Some limit) (Some requested) true)
    (Some requested) None (Some limit) 0 false true true.

Definition one_charger (synced : bool) (limit requested : Z)
  : gmap string ChargerState.t :=
  {[ "c1" := charging "c1" synced (fromkeys limit) (fromkeys requested) ]}.

(** Two chargers of a single-phase installation. *)
Definition two_chargers (limit1 requested1 limit2 requested2 : Z)
  : gmap string ChargerState.t :=
  <[ "c1" := charging "c1" false {[L1 := limit1]} {[L1 := requested1]} ]>
    {[ "c2" := charging "c2" false {[L1 := limit2]} {[L1 := requested2]} ]}.

(** The deltas of the synced-phase scenario of the specification, and
    deltas that raise one phase and hold the other two. *)
Definition cut_raise_hold : gmap Phase Z :=
  <[L1 := -1]> (<[L2 := 2]> {[L3 := 0]}).

Definition raise_hold_hold : gmap Phase Z :=
  <[L1 := 2]> (<[L2 := 0]> {[L3 := 0]}).

(** A synced charger whose limits differ between the phases, a state the
    tests use too ([test_update_allocation_recovery]): here 8 A, 10 A and
    10 A, requesting 32 A. *)
Definition uneven_synced_charger : gmap string ChargerState.t :=
  {[ "c1" := charging "c1" true (<[L1 := 8]> (<[L2 := 10]> {[L3 := 10]}))
               (fromkeys 32) ]}.

(** The mock charger of the tests as far as the scenarios below depend on
    it: synced phase limits, able to charge, reporting [limit]. Its
    maximum and its settle time are not exercised. *)
Definition mock_charger (charger_id : string) (limit : gmap Phase Z)
  : Charger.t :=
  Charger.mk charger_id true 5 (Some limit) (Some (fromkeys 32)) true.

(** [power_allocator.add_charger(charger)] *)
Definition with_charger (c : Charger.t)
    (_chargers : gmap string ChargerState.t) : gmap string ChargerState.t :=
  (add_charger c _chargers).2.

(** The new limits [update_allocation] returns. *)
Definition proposals
    (r : Result (gmap string (gmap Phase Z) * gmap string ChargerState.t))
  : Result (gmap string (gmap Phase Z)) :=
  match r with
  | Ok (result, _) => Ok result
  | Raise e => Raise e
  end.

(** The new limits and the chargers a call of [update_allocation] leaves
    behind. *)
Definition proposed
    (r : Result (gmap string (gmap Phase Z) * gmap string ChargerState.t))
  : gmap string (gmap Phase Z) :=
  match r with
  | Ok (result, _) => result
  | Raise _ => ∅
  end.

Definition chargers_after
    (r : Result (gmap string (gmap Phase Z) * gmap string ChargerState.t))
  : gmap string ChargerState.t :=
  match r with
  | Ok (_, _chargers) => _chargers
  | Raise _ => ∅
  end.

(** [new_limits] changes a charger that reads [current_setting]: on some
    phase for independent phases, in the least value for synced ones. *)
Definition is_a_change (synced : bool)
    (current_setting new_limits : gmap Phase Z) : Prop :=
  if synced then
    exists min_current min_new,
      min_values current_setting = Ok min_current
      /\ min_values new_limits = Ok min_new
      /\ min_new <> min_current
  else
    exists p v c,
      new_limits !! p = Some v /\ current_setting !! p = Some c /\ v <> c.

(** [result[charger_id][phase]], and what the allocator reads as the
    current of the charger on [phase]; 0 where there is none. *)
Definition setpoint (phase : Phase) (result : gmap string (gmap Phase Z))
    (charger_id : string) : Z :=
  match result !! charger_id with
  | Some limits => default 0 (limits !! phase)
  | None => 0
  end.

Definition read_current (now : Z) (_chargers : gmap string ChargerState.t)
    (phase : Phase) (charger_id : string) : Z :=
  match _chargers !! charger_id with
  | Some state =>
      match get_current_limit now state with
      | Some current_setting => default 0 (current_setting !! phase)
      | None => 0
      end
  | None => 0
  end.

Definition sum_over (f : string -> Z) (charger_ids : list string) : Z :=
  foldr (fun charger_id acc => f charger_id + acc) 0 charger_ids.

(** How a per-phase value [v] relates to the current [current] the
    allocator read and to the requested current [wanted], under the delta
    of the phase: lowered but not below 0 under a negative delta, raised
    but not above the requested current under a positive one, kept
    otherwise. *)
Definition moves_with_delta (delta : option Z) (current : Z)
    (wanted : option Z) (v : Z) : Prop :=
  match delta with
  | Some a =>
      if decide (a < 0) then 0 <= v <= current
      else if decide (a > 0) then
        v = current
        \/ (exists w, wanted = Some w /\ current <= v <= w)
      else v = current
  | None => v = current
  end.

(** [state.requested_current[phase]] where there is one. *)
Definition wanted_on (phase : Phase) (state : ChargerState.t) : option Z :=
  match requested_current state with
  | Some requested => requested !! phase
  | None => None
  end.

(** The entry [limits] of a charger follows, phase by phase, the current
    setting the allocator read for it. *)
Definition follows_deltas (now : Z) (available_currents : gmap Phase Z)
    (state : ChargerState.t) (limits : gmap Phase Z) : Prop :=
  exists current_setting,
    get_current_limit now state = Some current_setting
    /\ forall p,
         match current_setting !! p with
         | Some current =>
             exists v, limits !! p = Some v
                       /\ moves_with_delta (available_currents !! p) current
                            (wanted_on p state) v
         | None => limits !! p = None
         end.

(** Every entry of the per-phase result belongs to a charger that can
    charge and follows the deltas. *)
Definition per_phase_invariant (now : Z)
    (_chargers : gmap string ChargerState.t)
    (available_currents : gmap Phase Z)
    (r : gmap string (gmap Phase Z)) : Prop :=
  forall charger_id limits,
    r !! charger_id = Some limits ->
    exists state,
      _chargers !! charger_id = Some state
      /\ Charger.can_charge (charger state) = true
      /\ follows_deltas now available_currents state limits.

(** A recorded decrease is never later than the recorded charger
    update. *)
Definition timestamps_ordered (self : Coordinator.t) : Prop :=
  match Coordinator._last_decrease_time self with
  | Some last_decrease =>
      exists last_update,
        Coordinator._last_charger_update_time self = Some last_update
        /\ last_decrease <= last_update
  | None => True
  end.

(** No recorded time lies after [timestamp]. *)
Definition not_after (timestamp : Z) (self : Coordinator.t) : Prop :=
  forall last_update,
    Coordinator._last_charger_update_time self = Some last_update ->
    last_update <= timestamp.

(** The index below which [list(Phase)[:phase_count]] takes phases. *)
Definition slice_stop (phase_count : Z) : Z :=
  if bool_decide (phase_count < 0) then 3 + phase_count else phase_count.

(** A cycle of a three-phase installation with a fuse of 25 A and fifteen
    minutes of hysteresis: the meter reads 27 A on every phase, one
    charger at 16 A requests 32 A, and the balancer hands the available
    currents on unchanged. *)
Definition overloaded_cycle (self : Coordinator.t) (timestamp : Z)
  : Result (Coordinator.t * gmap string ChargerState.t
            * list Coordinator.Effect) :=
  Coordinator._execute_update_cycle
    (fun available_currents _ => available_currents)
    (fun _ => Some 27) 3 (mock_charger "c1" (fromkeys 16))
    timestamp timestamp self (one_charger true 16 32).

(** The chargers a cycle leaves behind. *)
Definition allocator_after
    (r : Result (Coordinator.t * gmap string ChargerState.t
                 * list Coordinator.Effect))
  : gmap string ChargerState.t :=
  match r with
  | Ok (_, _power_allocator, _) => _power_allocator
  | Raise _ => ∅
  end.

(** The double nearest to [a / b]. *)
Definition float_of_ratio (a b : Z) : PyFloat.float :=
  PyFloat.div (PyFloat.exact a) (PyFloat.exact b).

End Statements.


(** * Properties *)

(** ** The [Result] monad *)

Lemma bind_Ok {A B} (m : Result A) (f : A -> Result B) (b : B) :
  m ≫= f = Ok b -> exists a, m = Ok a /\ f a = Ok b.
Proof. destruct m as [a|e]; [eauto | discriminate]. Qed.

Lemma getitem_Ok `{Lookup K V M} (d : M) (k : K) (v : V) :
  getitem d k = Ok v <-> d !! k = Some v.
Proof.
  unfold getitem. destruct (d !! k); split; intros Heq; congruence.
Qed.

(** Inverts a hypothesis [m ≫= f = Ok b]. *)
Ltac bind_inv H :=
  let x := fresh "x" in
  let Hx := fresh "Hx" in
  apply bind_Ok in H; destruct H as (x & Hx & H).

(** ** Floats: signs, floors and truncations *)

Section FloatFacts.

Import PyFloat.

Lemma has_sign_round_aux s m e l :
  has_sign s (binary_round_aux prec emax s m e l).
Proof.
  unfold binary_round_aux.
  destruct (shr_fexp prec emax m e l) as [mrs e'].
  destruct (shr_fexp prec emax _ e' loc_Exact) as [mrs' e''].
  destruct (shr_m mrs'); simpl; trivial.
  destruct (Z.leb _ _); reflexivity.
Qed.

Lemma has_sign_mul sx sy x y :
  has_sign sx x -> has_sign sy y -> has_sign (xorb sx sy) (mul x y).
Proof.
  destruct x, y; simpl; intros; subst; trivial.
  apply has_sign_round_aux.
Qed.

Lemma has_sign_div sx sy x y :
  has_sign sx x -> has_sign sy y -> has_sign (xorb sx sy) (div x y).
Proof.
  destruct x as [| | |? mx ex], y as [| | |? my ey]; simpl; intros; subst;
    trivial.
  destruct (SFdiv_core_binary prec emax (Z.pos mx) ex (Z.pos my) ey)
    as [[mz ez] lz].
  apply has_sign_round_aux.
Qed.

Lemma has_sign_exact_nonneg z : 0 <= z -> has_sign false (exact z).
Proof. destruct z; simpl; [reflexivity | reflexivity | lia]. Qed.

Lemma finite_or_overflow_Ok f g :
  finite_or_overflow f = Ok g -> g = f.
Proof. destruct f; simpl; congruence. Qed.

Lemma has_sign_of_int z f :
  of_int z = Ok f -> has_sign (bool_decide (z < 0)) f.
Proof.
  unfold of_int. intros Hf. apply finite_or_overflow_Ok in Hf. subst f.
  destruct z as [|m|m]; simpl.
  - reflexivity.
  - unfold binary_round.
    destruct (shl_align m 0 _) as [mz ez]. apply has_sign_round_aux.
  - unfold binary_round.
    destruct (shl_align m 0 _) as [mz ez]. apply has_sign_round_aux.
Qed.

Lemma has_sign_truediv a b f :
  0 <= a -> 0 < b -> truediv a b = Ok f -> has_sign false f.
Proof.
  unfold truediv. intros Ha Hb Hf.
  destruct (decide (b = 0)); [discriminate|].
  apply finite_or_overflow_Ok in Hf. subst f.
  change false with (xorb false false).
  apply has_sign_div; apply has_sign_exact_nonneg; lia.
Qed.

Lemma has_sign_int_mul z s f g :
  has_sign s f -> int_mul z f = Ok g ->
  has_sign (xorb (bool_decide (z < 0)) s) g.
Proof.
  unfold int_mul. intros Hs Hg. bind_inv Hg.
  injection Hg as <-.
  apply has_sign_mul; [by apply has_sign_of_int | done].
Qed.

Lemma pow2_pos k : 0 < 2 ^ k \/ (k < 0 /\ 2 ^ k = 0).
Proof.
  destruct (Z_lt_le_dec k 0) as [Hk|Hk].
  - right. split; [done|]. by apply Z.pow_neg_r.
  - left. by apply Z.pow_pos_nonneg.
Qed.

Lemma floor_finite_neg m e : floor_finite true m e <= 0.
Proof.
  unfold floor_finite, signed.
  destruct (0 <=? e) eqn:He.
  - apply Z.leb_le in He.
    pose proof (Z.pow_pos_nonneg 2 e ltac:(lia) He). nia.
  - apply Z.leb_gt in He.
    pose proof (Z.pow_pos_nonneg 2 (- e) ltac:(lia) ltac:(lia)) as Hp.
    apply Z.lt_le_incl, Z.div_lt_upper_bound; lia.
Qed.

Lemma floor_finite_pos m e : 0 <= floor_finite false m e.
Proof.
  unfold floor_finite, signed.
  destruct (0 <=? e) eqn:He.
  - apply Z.leb_le in He.
    pose proof (Z.pow_pos_nonneg 2 e ltac:(lia) He). nia.
  - apply Z.leb_gt in He.
    pose proof (Z.pow_pos_nonneg 2 (- e) ltac:(lia) ltac:(lia)) as Hp.
    apply Z.div_pos; lia.
Qed.

Lemma floor_le_ceil m e : floor_finite false m e <= ceil_finite false m e.
Proof.
  unfold ceil_finite, floor_finite, signed. simpl.
  destruct (0 <=? e) eqn:He.
  - change (Z.neg m) with (- Z.pos m). lia.
  - apply Z.leb_gt in He.
    pose proof (Z.pow_pos_nonneg 2 (- e) ltac:(lia) ltac:(lia)) as Hp.
    change (Z.neg m) with (- Z.pos m).
    pose proof (Z.div_mod (Z.pos m) (2 ^ (- e)) ltac:(lia)) as H1.
    pose proof (Z.div_mod (- Z.pos m) (2 ^ (- e)) ltac:(lia)) as H2.
    pose proof (Z.mod_pos_bound (Z.pos m) (2 ^ (- e)) Hp) as H3.
    pose proof (Z.mod_pos_bound (- Z.pos m) (2 ^ (- e)) Hp) as H4.
    nia.
Qed.

Lemma floor_nonpos f n : has_sign true f -> floor f = Ok n -> n <= 0.
Proof.
  destruct f as [| | |s m e]; simpl; intros Hs Hn; try discriminate.
  - injection Hn as <-. lia.
  - injection Hn as <-. subst s. apply floor_finite_neg.
Qed.

(** [int(min(f, p))] lies between 0 and [p] when [f] is not negative. *)
Lemma to_int_min_bounds f p n :
  has_sign false f -> 0 <= p ->
  to_int (min_float_int f p) = Ok n -> 0 <= n <= p.
Proof.
  unfold min_float_int. intros Hs Hp Hn.
  destruct (int_lt p f) eqn:Hlt; simpl in Hn.
  - injection Hn as <-. lia.
  - destruct f as [| | |s m e]; simpl in *; try discriminate.
    + injection Hn as <-. lia.
    + subst s. injection Hn as <-.
      apply Z.ltb_ge in Hlt.
      pose proof (floor_finite_pos m e). pose proof (floor_le_ceil m e). lia.
Qed.

End FloatFacts.

(** ** Dictionaries keyed by [Phase] *)

Lemma elem_of_items (d : gmap Phase Z) p v :
  (p, v) ∈ items d <-> d !! p = Some v.
Proof.
  unfold items. rewrite list_elem_of_omap. split.
  - intros (q & _ & Hq). destruct (d !! q) eqn:Hd; simpl in Hq; [|done].
    by simplify_eq.
  - intros Hd. exists p. split.
    + unfold Phases. destruct p; set_solver.
    + by rewrite Hd.
Qed.

Lemma items_empty_iff (d : gmap Phase Z) : items d = [] <-> d = ∅.
Proof.
  split.
  - intros Hnil. apply map_eq. intros p. rewrite lookup_empty.
    destruct (d !! p) as [v|] eqn:Hd; [|done].
    apply elem_of_items in Hd. rewrite Hnil in Hd. by apply elem_of_nil in Hd.
  - intros ->. reflexivity.
Qed.

Lemma foldl_min_le (vs : list Z) (v : Z) :
  foldl Z.min v vs <= v /\ (forall w, w ∈ vs -> foldl Z.min v vs <= w).
Proof.
  revert v. induction vs as [|x vs IH]; intros v; simpl.
  - split; [lia|]. intros w Hw. by apply elem_of_nil in Hw.
  - destruct (IH (Z.min v x)) as [H1 H2]. split; [lia|].
    intros w Hw. apply elem_of_cons in Hw as [->|Hw]; [lia | by apply H2].
Qed.

Lemma foldl_min_elem (vs : list Z) (v : Z) :
  foldl Z.min v vs = v \/ foldl Z.min v vs ∈ vs.
Proof.
  revert v. induction vs as [|x vs IH]; intros v; simpl; [by left|].
  destruct (IH (Z.min v x)) as [H|H].
  - rewrite H. destruct (Z.min_spec v x) as [[_ ->]|[_ ->]];
      [by left | right; by left].
  - right. by right.
Qed.

Lemma elem_of_values (d : gmap Phase Z) v :
  v ∈ values d <-> exists p, d !! p = Some v.
Proof.
  unfold values. rewrite list_elem_of_fmap. split.
  - intros ([p w] & -> & Hin). exists p. by apply elem_of_items.
  - intros (p & Hp). exists (p, v). split; [done | by apply elem_of_items].
Qed.

(** [min(d.values())] is one of the values and a lower bound of all. *)
Lemma min_values_Ok (d : gmap Phase Z) m :
  min_values d = Ok m ->
  (exists p, d !! p = Some m) /\ (forall p v, d !! p = Some v -> m <= v).
Proof.
  unfold min_values. destruct (values d) as [|v vs] eqn:Hv; [done|].
  intros [= <-]. split.
  - apply elem_of_values. rewrite Hv.
    destruct (foldl_min_elem vs v) as [-> | H]; [by left | by right].
  - intros p w Hw.
    assert (w ∈ values d) as Hin by (apply elem_of_values; eauto).
    rewrite Hv in Hin. destruct (foldl_min_le vs v) as [H1 H2].
    apply elem_of_cons in Hin as [->|Hin]; [done | by apply H2].
Qed.

Lemma lookup_fromkeys v p : fromkeys v !! p = Some v.
Proof. unfold fromkeys. destruct p; by simplify_map_eq. Qed.

(** ** [any] *)

Lemma any_of_true f l p v :
  (forall q w, (q, w) ∈ l -> exists b, f q w = Ok b) ->
  (p, v) ∈ l -> f p v = Ok true -> any_of f l = Ok true.
Proof.
  induction l as [|[q w] l IH]; intros Hall Hin Hf.
  - by apply elem_of_nil in Hin.
  - simpl. destruct (Hall q w) as [b Hb]; [by left|]. rewrite Hb. simpl.
    destruct b; [done|].
    apply elem_of_cons in Hin as [Heq|Hin]; [congruence|].
    apply IH; [|exact Hin|exact Hf]. intros q' w' H'. apply Hall. by right.
Qed.

Lemma any_of_false f l :
  (forall q w, (q, w) ∈ l -> f q w = Ok false) -> any_of f l = Ok false.
Proof.
  induction l as [|[q w] l IH]; intros Hall; [done|].
  simpl. rewrite (Hall q w); [|by left]. simpl.
  apply IH. intros q' w' H'. apply Hall. by right.
Qed.

Lemma any_of_Ok_true f l :
  any_of f l = Ok true -> exists p v, (p, v) ∈ l /\ f p v = Ok true.
Proof.
  induction l as [|[q w] l IH]; [done|]. simpl. intros H.
  bind_inv H. destruct x.
  - exists q, w. split; [by left | done].
  - destruct (IH H) as (p & v & Hin & Hf). exists p, v. split; [by right|done].
Qed.

Lemma any_of_total f l :
  (forall q w, (q, w) ∈ l -> exists b, f q w = Ok b) ->
  exists b, any_of f l = Ok b.
Proof.
  induction l as [|[q w] l IH]; intros Hall; [by exists false|].
  simpl. destruct (Hall q w) as [b Hb]; [by left|]. rewrite Hb. simpl.
  destruct b; [by exists true|].
  apply IH. intros q' w' H'. apply Hall. by right.
Qed.

(** ** ChargerState.get_current_limit *)

Section GetCurrentLimit.

Import ChargerState.

(** C7. Inside the settle window, [now - last_update_time <
    current_change_settle_time], [get_current_limit] returns
    [last_applied_current], whatever the adapter reports; outside of it,
    it returns what the adapter reports. *)
Theorem get_current_limit_settle_window (now : Z) (self : t) :
  (now - last_update_time self
   < Charger.current_change_settle_time (charger self) ->
   get_current_limit now self = last_applied_current self
   /\ forall reported,
        get_current_limit now
          (set_charger
             (Charger.mk (Charger.id (charger self))
                (Charger.has_synced_phase_limits (charger self))
                (Charger.current_change_settle_time (charger self))
                reported
                (Charger.get_max_current_limit (charger self))
                (Charger.can_charge (charger self)))
             self)
        = last_applied_current self)
  /\ (~ now - last_update_time self
        < Charger.current_change_settle_time (charger self) ->
      get_current_limit now self = Charger.get_current_limit (charger self)).
Proof.
  unfold get_current_limit. split.
  - intros Hlt. split.
    + by rewrite bool_decide_eq_true_2.
    + intros reported. simpl. by rewrite bool_decide_eq_true_2.
  - intros Hge. by rewrite bool_decide_eq_false_2.
Qed.

(** A charger written 3 s ago with a settle time of 5 s: the allocator sees
    the 27 A it dispatched although the adapter still reports 32 A; at
    [now = 110] it sees the adapter's 32 A. *)
Lemma get_current_limit_settle_window_witness :
  get_current_limit 103 settle_example = Some (fromkeys 27)
  /\ get_current_limit 110 settle_example = Some (fromkeys 32).
Proof.
  split.
  - apply (proj1 (get_current_limit_settle_window 103 settle_example)).
    simpl. lia.
  - apply (proj2 (get_current_limit_settle_window 110 settle_example)).
    simpl. lia.
Defined.

End GetCurrentLimit.

(** ** Coordinator._may_update_charger_settings *)

Section Gate.

Import Coordinator.

Lemma any_lower_true (new_settings current_limits : gmap Phase Z) p v c :
  (forall q w, new_settings !! q = Some w -> is_Some (current_limits !! q)) ->
  new_settings !! p = Some v -> current_limits !! p = Some c -> v < c ->
  any_lower new_settings current_limits = Ok true.
Proof.
  intros Hdom Hp Hc Hlt. unfold any_lower.
  apply any_of_true with (p := p) (v := v).
  - intros q w Hin. apply elem_of_items in Hin.
    destruct (Hdom q w Hin) as [c' Hc']. unfold getitem. rewrite Hc'. simpl.
    eauto.
  - by apply elem_of_items.
  - unfold getitem. rewrite Hc. simpl. by rewrite bool_decide_eq_true_2.
Qed.

(** C5. A proposal that lowers some phase below the current setting is
    allowed by [_may_update_charger_settings] in every coordinator state
    and at every timestamp: neither the minimum update delay nor the
    increase hysteresis defers it. The proposal's phases are phases of the
    current limits, as for the dictionaries the coordinator passes. *)
Theorem decrease_is_never_deferred (self : Coordinator.t)
    (new_settings current_limits : gmap Phase Z) (timestamp : Z)
    (p : Phase) (v c : Z) :
  (forall q w, new_settings !! q = Some w -> is_Some (current_limits !! q)) ->
  new_settings !! p = Some v -> current_limits !! p = Some c -> v < c ->
  _may_update_charger_settings self new_settings current_limits timestamp
  = Ok true.
Proof.
  intros Hdom Hp Hc Hlt. unfold _may_update_charger_settings.
  destruct (_last_charger_update_time self); [|done].
  by rewrite (any_lower_true _ _ p v c).
Qed.

(** The charger was written one second ago and the last decrease happened
    one second ago as well; lowering L1 from 16 A to 8 A still passes. *)
Lemma decrease_is_never_deferred_witness :
  _may_update_charger_settings (mk (Some 999) (Some 999) 25 15)
    {[L1 := 8]} (fromkeys 16) 1000 = Ok true.
Proof.
  apply (decrease_is_never_deferred _ _ _ _ L1 8 16).
  - intros q w Hq. rewrite lookup_fromkeys. eauto.
  - reflexivity.
  - reflexivity.
  - lia.
Defined.

Lemma any_lower_false (new_settings current_limits : gmap Phase Z) :
  (forall q w, new_settings !! q = Some w ->
     exists c, current_limits !! q = Some c /\ c <= w) ->
  any_lower new_settings current_limits = Ok false.
Proof.
  intros Hno. unfold any_lower. apply any_of_false.
  intros q w Hin. apply elem_of_items in Hin.
  destruct (Hno q w Hin) as (c & Hc & Hle). unfold getitem. rewrite Hc. simpl.
  by rewrite bool_decide_eq_false_2 by lia.
Qed.

Lemma any_higher_spec (new_settings current_limits : gmap Phase Z) :
  (forall q w, new_settings !! q = Some w -> is_Some (current_limits !! q)) ->
  exists b, any_higher new_settings current_limits = Ok b
    /\ (b = true <->
        exists p v c, new_settings !! p = Some v
                      /\ current_limits !! p = Some c /\ v > c).
Proof.
  intros Hdom. unfold any_higher.
  set (f := fun (p : Phase) (v : Z) =>
              c ← getitem current_limits p; Ok (bool_decide (v > c))).
  assert (Htot : forall q w, (q, w) ∈ items new_settings ->
                   exists b, f q w = Ok b).
  { intros q w Hin. apply elem_of_items in Hin.
    destruct (Hdom q w Hin) as [c' Hc']. unfold f, getitem. rewrite Hc'.
    simpl. eauto. }
  destruct (any_of_total f _ Htot) as [b Hb]. exists b. split; [done|].
  split.
  - intros ->. apply any_of_Ok_true in Hb as (p & v & Hin & Hf).
    apply elem_of_items in Hin. destruct (Hdom p v Hin) as [c Hc].
    unfold f, getitem in Hf. rewrite Hc in Hf. simpl in Hf.
    injection Hf as Hf. apply bool_decide_eq_true_1 in Hf. eauto 6.
  - intros (p & v & c & Hp & Hc & Hgt). destruct b; [done|].
    assert (any_of f (items new_settings) = Ok true) as Ht; [|congruence].
    apply any_of_true with (p := p) (v := v); [done|by apply elem_of_items|].
    unfold f, getitem. rewrite Hc. simpl. by rewrite bool_decide_eq_true_2.
Qed.

(** C6, as the code has it. For a proposal without a decrease: while no
    charger update has been recorded the gate lets it through at once.
    Once the charger has been written at [last_update], the proposal is
    deferred while [timestamp - last_update <= MIN_CHARGER_UPDATE_DELAY];
    after that it is allowed exactly when it raises some phase and
    [timestamp - last_decrease > hysteresis * 60], where [last_decrease]
    is [_last_decrease_time], or [last_update] when no decrease has been
    recorded. So after a write and with no decrease recorded an increase
    is refused until the hysteresis has elapsed since the last update. *)
Theorem increase_gate (self : Coordinator.t)
    (new_settings current_limits : gmap Phase Z) (timestamp : Z) :
  (forall q w, new_settings !! q = Some w ->
     exists c, current_limits !! q = Some c /\ c <= w) ->
  let verdict :=
    _may_update_charger_settings self new_settings current_limits timestamp in
  match _last_charger_update_time self with
  | None => verdict = Ok true
  | Some last_update =>
      let last_decrease := default last_update (_last_decrease_time self) in
      MIN_CHARGER_UPDATE_DELAY = 20
      /\ (timestamp - last_update <= MIN_CHARGER_UPDATE_DELAY ->
          verdict = Ok false)
      /\ (timestamp - last_update > MIN_CHARGER_UPDATE_DELAY ->
          (verdict = Ok true \/ verdict = Ok false)
          /\ (verdict = Ok true <->
              (exists p v c, new_settings !! p = Some v
                             /\ current_limits !! p = Some c /\ v > c)
              /\ timestamp - last_decrease
                 > charge_limit_hysteresis self * 60))
      /\ (_last_decrease_time self = None ->
          timestamp - last_update <= charge_limit_hysteresis self * 60 ->
          verdict = Ok false)
  end.
Proof.
  intros Hno verdict.
  destruct (_last_charger_update_time self) as [last_update|] eqn:Hlast.
  2:{ unfold verdict, _may_update_charger_settings. by rewrite Hlast. }
  intros last_decrease.
  assert (Hdom : forall q w, new_settings !! q = Some w ->
                   is_Some (current_limits !! q)).
  { intros q w Hq. destruct (Hno q w Hq) as (c & -> & _). eauto. }
  destruct (any_higher_spec new_settings current_limits Hdom)
    as (b & Hb & Hiff).
  assert (Hv : verdict =
    if bool_decide (timestamp - last_update <= MIN_CHARGER_UPDATE_DELAY)
    then Ok false
    else if b && bool_decide (timestamp - last_decrease
                              > charge_limit_hysteresis self * 60)
         then Ok true else Ok false).
  { unfold verdict, _may_update_charger_settings. rewrite Hlast.
    rewrite (any_lower_false _ _ Hno). simpl.
    case_bool_decide; [done|]. rewrite Hb. simpl.
    unfold last_decrease. by destruct (_last_decrease_time self). }
  split; [reflexivity|]. split; [|split].
  - intros Hle. rewrite Hv. by rewrite bool_decide_eq_true_2.
  - intros Hgt. rewrite Hv. rewrite bool_decide_eq_false_2 by lia.
    clear Hv Hb. destruct b; simpl.
    + case_bool_decide as Hh.
      * split; [by left|]. split; [|done]. intros _. split; [|done].
        by apply Hiff.
      * split; [by right|]. split; [done|]. intros [_ Hh']. lia.
    + split; [by right|]. split; [done|]. intros [Hex _].
      apply Hiff in Hex. done.
  - intros Hnone Hle. rewrite Hv. clear Hv. case_bool_decide; [done|].
    unfold last_decrease. rewrite Hnone. simpl.
    rewrite (bool_decide_eq_false_2 (timestamp - last_update > _)) by lia.
    by rewrite andb_false_r.
Qed.

(** Fifteen minutes of hysteresis, last write at 1000 s, no decrease
    recorded: raising L1 from 10 A to 15 A is refused at 1500 s and
    allowed at 1901 s. *)
Lemma increase_gate_witness :
  _may_update_charger_settings (mk (Some 1000) None 25 15)
    {[L1 := 15]} (fromkeys 10) 1500 = Ok false
  /\ _may_update_charger_settings (mk (Some 1000) None 25 15)
       {[L1 := 15]} (fromkeys 10) 1901 = Ok true.
Proof.
  assert (Hno : forall q w, ({[L1 := 15]} : gmap Phase Z) !! q = Some w ->
                  exists c, fromkeys 10 !! q = Some c /\ c <= w).
  { intros q w Hq. rewrite lookup_fromkeys. exists 10. split; [done|].
    destruct q; simplify_map_eq; lia. }
  pose proof (increase_gate (mk (Some 1000) None 25 15) _ _ 1500 Hno)
    as (_ & _ & _ & Hblocked).
  pose proof (increase_gate (mk (Some 1000) None 25 15) _ _ 1901 Hno)
    as (_ & _ & Hopen & _).
  split.
  - apply Hblocked; simpl; [reflexivity|lia].
  - apply Hopen; simpl; [unfold MIN_CHARGER_UPDATE_DELAY; lia|].
    split; [|lia]. exists L1, 15, 10. by simplify_map_eq.
Defined.

(** C6, refuted as stated. In a coordinator that has not written the
    charger yet, raising L1 from 10 A to 12 A is let through at once,
    although no time is recorded from which a hysteresis could have
    elapsed: the first increase is not blocked. *)
Lemma first_increase_is_let_through :
  _may_update_charger_settings (mk None None 25 15)
    {[L1 := 12]} {[L1 := 10]} 1000 = Ok true
  /\ ~ applied_only_after_hysteresis (mk None None 25 15)
        {[L1 := 12]} {[L1 := 10]} 1000.
Proof.
  split; [reflexivity|].
  intros Hclaim. destruct (Hclaim eq_refl) as (t & Ht & _).
  discriminate.
Qed.

End Gate.

(** ** ChargerState.detect_manual_override *)

Section DetectManualOverride.

Import ChargerState.

Lemma differs_from_Ok_true (current_setting last_applied : gmap Phase Z) :
  differs_from current_setting last_applied = Ok true ->
  exists p a b, current_setting !! p = Some a /\ last_applied !! p = Some b
                /\ a <> b.
Proof.
  unfold differs_from. intros H.
  apply any_of_Ok_true in H as (p & a & Hin & Hf).
  apply elem_of_items in Hin. bind_inv Hf. apply getitem_Ok in Hx.
  injection Hf as Hf. apply bool_decide_eq_true_1 in Hf. eauto 6.
Qed.

Lemma differs_from_same (d : gmap Phase Z) : differs_from d d = Ok false.
Proof.
  unfold differs_from. apply any_of_false. intros q w Hin.
  apply elem_of_items in Hin. unfold getitem. rewrite Hin. simpl.
  by rewrite bool_decide_eq_false_2 by (intros ?; congruence).
Qed.

(** The [elif] test holds only if the reading differs from the last
    applied current on some phase and from the requested current. *)
Lemma override_test_Ok_true (current_setting : gmap Phase Z) (self : t) :
  override_test current_setting self = Ok true ->
  (exists last_applied p a b,
      last_applied_current self = Some last_applied
      /\ current_setting !! p = Some a /\ last_applied !! p = Some b
      /\ a <> b)
  /\ Some current_setting <> requested_current self.
Proof.
  unfold override_test.
  destruct (last_applied_current self) as [l|]; [|done].
  case_bool_decide as Hnonempty; [|done]. intros H. bind_inv H.
  injection H as H. apply andb_true_iff in H as [-> Hreq].
  apply bool_decide_eq_true_1 in Hreq.
  apply differs_from_Ok_true in Hx as (p & a & b & ? & ? & ?).
  split; [|done]. exists l, p, a, b. done.
Qed.

(** C9. In an ongoing session ([_active_session] is set),
    [detect_manual_override] writes [requested_current] or
    [manual_override_detected] only when the observed limit differs from
    [last_applied_current] on some phase and differs from
    [requested_current]; it then stores the reading as requested current
    and sets the flag. When the reading equals [last_applied_current] or
    [requested_current], both fields are left as they were. *)
Theorem manual_override_needs_both_differences (now : Z) (self : t) :
  _active_session self = true ->
  let self' := after_detect now self in
  ((requested_current self' <> requested_current self
    \/ manual_override_detected self' <> manual_override_detected self) ->
   exists reading last_applied p a b,
     get_current_limit now self = Some reading
     /\ last_applied_current self = Some last_applied
     /\ reading !! p = Some a /\ last_applied !! p = Some b /\ a <> b
     /\ Some reading <> requested_current self
     /\ requested_current self' = Some reading
     /\ manual_override_detected self' = true)
  /\ ((get_current_limit now self = last_applied_current self
       \/ get_current_limit now self = requested_current self) ->
      requested_current self' = requested_current self
      /\ manual_override_detected self' = manual_override_detected self).
Proof.
  intros Hactive self'.
  assert (Hcases :
    (requested_current self' = requested_current self
     /\ manual_override_detected self' = manual_override_detected self)
    \/ (exists reading,
          get_current_limit now self = Some reading
          /\ override_test reading self = Ok true
          /\ requested_current self' = Some reading
          /\ manual_override_detected self' = true)).
  { unfold self', after_detect, detect_manual_override.
    destruct (get_current_limit now self) as [reading|]; [|by left].
    case_bool_decide; [|by left].
    rewrite Hactive, andb_false_r.
    destruct (override_test reading self) as [[|]|e] eqn:Htest; simpl.
    - right. exists reading. done.
    - by left.
    - by left. }
  split.
  - intros Hchanged. destruct Hcases as [[? ?]|(reading & Hr & Ht & ? & ?)].
    + destruct Hchanged; congruence.
    + apply override_test_Ok_true in Ht
        as [(l & p & a & b & ? & ? & ? & ?) ?].
      exists reading, l, p, a, b. done.
  - intros Heq. destruct Hcases as [?|(reading & Hr & Ht & ? & ?)]; [done|].
    exfalso. apply override_test_Ok_true in Ht
      as [(l & p & a & b & Hl & Ha & Hb & Hne) Hreq].
    destruct Heq as [Heq|Heq].
    + rewrite Hr, Hl in Heq. simplify_eq.
    + rewrite Hr in Heq. done.
Qed.

(** After the settle time the adapter still reports 32 A, which equals the
    requested current; later it reports 27 A, which equals the last
    applied current. Neither call records an override and the requested
    current stays at 32 A. *)
Lemma manual_override_needs_both_differences_witness :
  let first := after_detect 100 (slow_charger 32) in
  let second :=
    after_detect 200 (set_charger (charger (slow_charger 27)) first) in
  requested_current first = Some (fromkeys 32)
  /\ manual_override_detected first = false
  /\ requested_current second = Some (fromkeys 32)
  /\ manual_override_detected second = false.
Proof.
  intros first second.
  destruct (proj2 (manual_override_needs_both_differences 100
                     (slow_charger 32) eq_refl)) as [H1 H2].
  { right. reflexivity. }
  fold first in H1, H2.
  assert (Hactive : _active_session
            (set_charger (charger (slow_charger 27)) first) = true)
    by (vm_compute; reflexivity).
  destruct (proj2 (manual_override_needs_both_differences 200 _ Hactive))
    as [H3 H4].
  { left. vm_compute. reflexivity. }
  fold second in H3, H4. simpl in H3, H4.
  rewrite H1 in H3. rewrite H2 in H4. done.
Defined.

(** C8. At the failing input the reset of a new session is lost, not
    deferred. A charger initialized at 16 A while no car could charge
    starts a session ([can_charge] turns true) when the adapter cannot
    report its maximum: the first call changes nothing in
    [requested_current] but marks the session active. At the next tick the
    adapter reports a maximum of 32 A, and the second call leaves
    [requested_current] at 16 A. *)
Theorem new_session_reset_is_lost :
  exists first second,
    detect_manual_override 100 before_session = Ok first
    /\ requested_current first = Some (fromkeys 16)
    /\ _active_session first = true
    /\ detect_manual_override 101
         (set_charger (new_session (Some (fromkeys 32))) first) = Ok second
    /\ requested_current second = Some (fromkeys 16)
    /\ requested_current second
       <> Charger.get_max_current_limit (charger second).
Proof.
  eexists. eexists.
  split; [vm_compute; reflexivity|].
  split; [vm_compute; reflexivity|].
  split; [vm_compute; reflexivity|].
  split; [vm_compute; reflexivity|].
  split; [vm_compute; reflexivity|].
  vm_compute. discriminate.
Qed.

(** The cause, for every state: when a session starts and the maximum is
    unknown, the call ends by setting [_active_session], so the
    new-session branch is not entered again while the charger can
    charge. *)
Lemma unknown_maximum_marks_session_active (now : Z) (self : t) :
  Charger.can_charge (charger self) = true ->
  _active_session self = false ->
  truthy (get_current_limit now self) = true ->
  truthy (Charger.get_max_current_limit (charger self)) = false ->
  exists self',
    detect_manual_override now self = Ok self'
    /\ requested_current self' = requested_current self
    /\ _active_session self' = true.
Proof.
  intros Hcan Hsession Hreading Hmax. unfold detect_manual_override.
  destruct (get_current_limit now self) as [reading|]; [|done].
  simpl in Hreading. rewrite Hreading, Hcan, Hsession, Hmax. simpl.
  eexists. split; [reflexivity|]. done.
Qed.

(** While a session is marked active the new-session branch is not
    taken: a call leaves [requested_current] as it was or replaces it by
    the reading, and never by the adapter's maximum for its own sake. *)
Lemma active_session_is_not_reset (now : Z) (self self' : t) :
  _active_session self = true ->
  detect_manual_override now self = Ok self' ->
  requested_current self' = requested_current self
  \/ requested_current self' = get_current_limit now self.
Proof.
  intros Hactive. unfold detect_manual_override.
  destruct (get_current_limit now self) as [reading|];
    [|intros [= <-]; by left].
  case_bool_decide as Hnonempty; [|intros [= <-]; by left].
  rewrite Hactive, andb_false_r.
  destruct (override_test reading self) as [[|]|e]; simpl;
    intros [= <-]; [by right|by left].
Qed.

End DetectManualOverride.

(** ** PowerAllocator.update_applied_current *)

Section UpdateAppliedCurrent.

Import ChargerState PowerAllocator.

(** C10. For a charger the allocator knows, [update_applied_current]
    returns without a warning, with [last_applied_current] set to the
    applied current and [last_update_time] to the timestamp in the one
    returned state; the other fields of that charger and all other
    chargers are as before. For an unknown charger it logs a warning and
    then raises [KeyError]; no state is produced. *)
Theorem update_applied_current_spec
    (_chargers : gmap string ChargerState.t) (charger_id : string)
    (applied_current : gmap Phase Z) (timestamp : Z) :
  match _chargers !! charger_id with
  | Some state =>
      exists _chargers' state',
        update_applied_current _chargers charger_id applied_current timestamp
        = ([Debug "Updated applied current for charger %s: %s"
              charger_id applied_current], Ok _chargers')
        /\ _chargers' !! charger_id = Some state'
        /\ last_applied_current state' = Some applied_current
        /\ last_update_time state' = timestamp
        /\ charger state' = charger state
        /\ requested_current state' = requested_current state
        /\ last_calculated_current state' = last_calculated_current state
        /\ manual_override_detected state' = manual_override_detected state
        /\ initialized state' = initialized state
        /\ _active_session state' = _active_session state
        /\ (forall other, other <> charger_id ->
              _chargers' !! other = _chargers !! other)
  | None =>
      update_applied_current _chargers charger_id applied_current timestamp
      = ([Warning "Charger %s not found in PowerAllocator" charger_id],
         Raise KeyError)
  end.
Proof.
  unfold update_applied_current, getitem.
  destruct (_chargers !! charger_id) as [state|] eqn:Hlookup; [|done].
  eexists. eexists. split; [reflexivity|].
  rewrite lookup_insert_eq. split; [reflexivity|].
  repeat (split; [reflexivity|]).
  intros other Hne. by rewrite lookup_insert_ne.
Qed.

End UpdateAppliedCurrent.

(** ** PowerAllocator: the distribution loops *)

Section Distribution.

Import ChargerState PowerAllocator.

Lemma elem_of_active (_chargers : gmap string ChargerState.t) charger_id state :
  (charger_id, state) ∈ map_to_list (_active_chargers _chargers) <->
  _chargers !! charger_id = Some state
  /\ Charger.can_charge (charger state) = true.
Proof.
  rewrite elem_of_map_to_list. unfold _active_chargers.
  by rewrite map_lookup_filter_Some.
Qed.

Lemma proportional_cut_nonpos deficit current total_current cut :
  deficit < 0 -> 0 <= current -> 0 < total_current ->
  proportional_cut deficit current total_current = Ok cut -> cut <= 0.
Proof.
  unfold proportional_cut. intros Hd Hc Ht H.
  bind_inv H. bind_inv H.
  apply has_sign_truediv in Hx; [|done..].
  apply (has_sign_int_mul _ _ _ _ Hx) in Hx0.
  rewrite bool_decide_eq_true_2 in Hx0 by done.
  by apply floor_nonpos in H.
Qed.

Lemma proportional_increase_bounds surplus potential total_potential inc :
  0 < surplus -> 0 < potential -> 0 < total_potential ->
  proportional_increase surplus potential total_potential = Ok inc ->
  0 <= inc <= potential.
Proof.
  unfold proportional_increase. intros Hs Hp Ht H.
  bind_inv H. bind_inv H.
  apply has_sign_truediv in Hx; [|lia|done].
  apply (has_sign_int_mul _ _ _ _ Hx) in Hx0.
  rewrite bool_decide_eq_false_2 in Hx0 by lia.
  apply to_int_min_bounds in H; [done|done|lia].
Qed.

Lemma open_entry_Ok now _chargers phase charger_id result old entry result' :
  open_entry now _chargers phase charger_id result = Ok (old, entry, result') ->
  exists state current_setting,
    _chargers !! charger_id = Some state
    /\ get_current_limit now state = Some current_setting
    /\ current_setting !! phase = Some old
    /\ result' !! charger_id = Some entry
    /\ ((result !! charger_id = None
         /\ result' = <[charger_id := current_setting]> result
         /\ entry = current_setting)
        \/ (result !! charger_id = Some entry /\ result' = result)).
Proof.
  unfold open_entry. intros H. bind_inv H. apply getitem_Ok in Hx.
  destruct (get_current_limit now x) as [current_setting|] eqn:Hlimit.
  - bind_inv H. apply getitem_Ok in Hx0. bind_inv H.
    apply getitem_Ok in Hx1. injection H as -> -> <-.
    exists x, current_setting. repeat (split; [done|]).
    destruct (result !! charger_id) as [d|] eqn:Hres.
    + right. split; congruence.
    + left. rewrite lookup_insert_eq in Hx1. split; [done|].
      split; congruence.
  - by destruct (result !! charger_id).
Qed.

(** Writing one phase of one charger keeps a property of all entries. *)
Lemma write_entry_all (Q : Phase -> Z -> Prop) now _chargers phase charger_id
    result old entry result' v :
  open_entry now _chargers phase charger_id result = Ok (old, entry, result') ->
  all_entries Q result ->
  (forall state current_setting p w,
     _chargers !! charger_id = Some state ->
     get_current_limit now state = Some current_setting ->
     current_setting !! p = Some w -> Q p w) ->
  Q phase v ->
  all_entries Q (<[charger_id := <[phase := v]> entry]> result').
Proof.
  intros Hopen Hall Hsetting Hv.
  apply open_entry_Ok in Hopen
    as (state & cs & Hstate & Hlimit & Hold & Hentry & Hcase).
  intros cid d p w Hd Hp.
  destruct (decide (cid = charger_id)) as [->|Hne].
  - rewrite lookup_insert_eq in Hd. injection Hd as <-.
    destruct (decide (p = phase)) as [->|Hp'].
    + rewrite lookup_insert_eq in Hp. by injection Hp as <-.
    + rewrite lookup_insert_ne in Hp by done.
      destruct Hcase as [(_ & _ & ->)|[Hres _]].
      * by eapply Hsetting.
      * by eapply Hall.
  - rewrite lookup_insert_ne in Hd by done.
    destruct Hcase as [(_ & -> & _)|[_ ->]].
    + rewrite lookup_insert_ne in Hd by done. by eapply Hall.
    + by eapply Hall.
Qed.

Lemma write_entry_touches (processed : Phase -> Prop) now _chargers phase
    charger_id result old entry result' v :
  open_entry now _chargers phase charger_id result = Ok (old, entry, result') ->
  touches processed result -> processed phase ->
  touches processed (<[charger_id := <[phase := v]> entry]> result').
Proof.
  intros Hopen Hall Hphase.
  apply open_entry_Ok in Hopen
    as (state & cs & Hstate & Hlimit & Hold & Hentry & Hcase).
  intros cid d Hd.
  destruct (decide (cid = charger_id)) as [->|Hne].
  - rewrite lookup_insert_eq in Hd. injection Hd as <-.
    exists phase. split; [done|]. rewrite lookup_insert_eq. eauto.
  - rewrite lookup_insert_ne in Hd by done.
    destruct Hcase as [(_ & -> & _)|[_ ->]].
    + rewrite lookup_insert_ne in Hd by done. by eapply Hall.
    + by eapply Hall.
Qed.

Lemma collect_currents_nonempty now phase active charger_currents
    charger_id current :
  collect_currents now phase active = Ok charger_currents ->
  (charger_id, current) ∈ charger_currents ->
  exists state current_setting,
    (charger_id, state) ∈ active
    /\ get_current_limit now state = Some current_setting
    /\ current_setting <> ∅
    /\ current_setting !! phase = Some current.
Proof.
  revert charger_currents.
  induction active as [|[cid state] rest IH]; intros cc Hcc Hin; simpl in Hcc.
  - injection Hcc as <-. by apply elem_of_nil in Hin.
  - assert (Hskip : collect_currents now phase rest = Ok cc ->
              exists state0 current_setting,
                (charger_id, state0) ∈ (cid, state) :: rest
                /\ get_current_limit now state0 = Some current_setting
                /\ current_setting <> ∅
                /\ current_setting !! phase = Some current).
    { intros Hrest. destruct (IH cc Hrest Hin) as (s & cs & ? & ? & ? & ?).
      exists s, cs. split; [by right|done]. }
    destruct (get_current_limit now state) as [d|] eqn:Hlimit; [|by apply Hskip].
    case_bool_decide as Hnonempty; [|by apply Hskip].
    bind_inv Hcc. apply getitem_Ok in Hx. bind_inv Hcc.
    injection Hcc as <-.
    apply elem_of_cons in Hin as [Heq|Hin].
    + injection Heq as -> ->. exists state, d. split; [by left|done].
    + destruct (IH x0 Hx0 Hin) as (s & cs & ? & ? & ? & ?).
      exists s, cs. split; [by right|done].
Qed.

Lemma collect_currents_elem now phase active charger_currents charger_id current :
  collect_currents now phase active = Ok charger_currents ->
  (charger_id, current) ∈ charger_currents ->
  exists state current_setting,
    (charger_id, state) ∈ active
    /\ get_current_limit now state = Some current_setting
    /\ current_setting !! phase = Some current.
Proof.
  intros Hcc Hin.
  destruct (collect_currents_nonempty _ _ _ _ _ _ Hcc Hin)
    as (state & cs & ? & ? & _ & ?).
  by exists state, cs.
Qed.

Lemma collect_potentials_nonempty now phase active potential_increases
    charger_id potential :
  collect_potentials now phase active = Ok potential_increases ->
  (charger_id, potential) ∈ potential_increases ->
  exists state current_setting requested current wanted,
    (charger_id, state) ∈ active
    /\ get_current_limit now state = Some current_setting
    /\ current_setting <> ∅
    /\ requested_current state = Some requested
    /\ requested <> ∅
    /\ current_setting !! phase = Some current
    /\ requested !! phase = Some wanted
    /\ wanted > current
    /\ potential = wanted - current.
Proof.
  revert potential_increases.
  induction active as [|[cid state] rest IH]; intros pi Hpi Hin; simpl in Hpi.
  - injection Hpi as <-. by apply elem_of_nil in Hin.
  - assert (Hskip : forall l, collect_potentials now phase rest = Ok l ->
              (charger_id, potential) ∈ l ->
              exists state0 current_setting requested current wanted,
                (charger_id, state0) ∈ (cid, state) :: rest
                /\ get_current_limit now state0 = Some current_setting
                /\ current_setting <> ∅
                /\ requested_current state0 = Some requested
                /\ requested <> ∅
                /\ current_setting !! phase = Some current
                /\ requested !! phase = Some wanted
                /\ wanted > current
                /\ potential = wanted - current).
    { intros l Hrest Hl.
      destruct (IH l Hrest Hl) as (s & cs & r & c & w & ? & ?).
      exists s, cs, r, c, w. split; [by right|done]. }
    destruct (get_current_limit now state) as [d|] eqn:Hlimit;
      [|by apply (Hskip pi)].
    destruct (requested_current state) as [r|] eqn:Hreq;
      [|by apply (Hskip pi)].
    destruct (bool_decide (d ≠ ∅) && bool_decide (r ≠ ∅)) eqn:Hboth;
      [|by apply (Hskip pi)].
    apply andb_true_iff in Hboth as [Hd Hr].
    apply bool_decide_eq_true_1 in Hd. apply bool_decide_eq_true_1 in Hr.
    bind_inv Hpi. apply getitem_Ok in Hx. bind_inv Hpi.
    apply getitem_Ok in Hx0. bind_inv Hpi.
    case_bool_decide as Hgt.
    + injection Hpi as <-. apply elem_of_cons in Hin as [Heq|Hin].
      * injection Heq as -> ->. exists state, d, r, x, x0.
        split; [by left|done].
      * by apply (Hskip x1).
    + injection Hpi as <-. by apply (Hskip x1).
Qed.

Lemma collect_potentials_elem now phase active potential_increases
    charger_id potential :
  collect_potentials now phase active = Ok potential_increases ->
  (charger_id, potential) ∈ potential_increases ->
  exists state current_setting requested current wanted,
    (charger_id, state) ∈ active
    /\ get_current_limit now state = Some current_setting
    /\ requested_current state = Some requested
    /\ current_setting !! phase = Some current
    /\ requested !! phase = Some wanted
    /\ wanted > current
    /\ potential = wanted - current.
Proof.
  intros Hpi Hin.
  destruct (collect_potentials_nonempty _ _ _ _ _ _ Hpi Hin)
    as (state & cs & rq & c & w & ? & ? & _ & ? & _ & ? & ? & ? & ?).
  by exists state, cs, rq, c, w.
Qed.

Lemma total_nonneg (l : list (string * Z)) :
  (forall charger_id v, (charger_id, v) ∈ l -> 0 <= v) -> 0 <= total l.
Proof.
  induction l as [|[cid v] l IH]; intros Hall; simpl; [done|].
  assert (0 <= v) by (apply (Hall cid); by left).
  assert (0 <= total l) by (apply IH; intros c w ?; apply (Hall c); by right).
  unfold total in *. lia.
Qed.

(** An invariant of [result] kept by each write of the second loop of
    [_distribute_cuts] holds when the loop ends. *)
Lemma apply_cuts_invariant (P : gmap string (gmap Phase Z) -> Prop)
    now _chargers phase deficit total_current charger_currents result res :
  (forall charger_id current cut old entry r r',
     (charger_id, current) ∈ charger_currents ->
     proportional_cut deficit current total_current = Ok cut ->
     open_entry now _chargers phase charger_id r = Ok (old, entry, r') ->
     P r ->
     P (<[charger_id := <[phase := Z.max 0 (old + cut)]> entry]> r')) ->
  P result ->
  apply_cuts now _chargers phase deficit total_current charger_currents result
  = Ok res ->
  P res.
Proof.
  revert result.
  induction charger_currents as [|[cid current] rest IH];
    intros result Hstep HP Happly; simpl in Happly.
  - by injection Happly as <-.
  - bind_inv Happly. bind_inv Happly. destruct x0 as [[old entry] r'].
    eapply IH; [| |exact Happly].
    + intros c cur cut o e r0 r0' Hin. apply Hstep. by right.
    + eapply Hstep; [by left|done..].
Qed.

Lemma apply_increases_invariant (P : gmap string (gmap Phase Z) -> Prop)
    now _chargers phase surplus total_potential potential_increases result res :
  (forall charger_id potential increase old entry r r',
     (charger_id, potential) ∈ potential_increases ->
     proportional_increase surplus potential total_potential = Ok increase ->
     open_entry now _chargers phase charger_id r = Ok (old, entry, r') ->
     P r ->
     P (<[charger_id := <[phase := old + increase]> entry]> r')) ->
  P result ->
  apply_increases now _chargers phase surplus total_potential
    potential_increases result = Ok res ->
  P res.
Proof.
  revert result.
  induction potential_increases as [|[cid potential] rest IH];
    intros result Hstep HP Happly; simpl in Happly.
  - by injection Happly as <-.
  - bind_inv Happly. bind_inv Happly. destruct x0 as [[old entry] r'].
    eapply IH; [| |exact Happly].
    + intros c pot inc o e r0 r0' Hin. apply Hstep. by right.
    + eapply Hstep; [by left|done..].
Qed.

(** An invariant kept by [_distribute_cuts] on every phase with a
    negative delta and by [_distribute_increases] on every phase with a
    positive one holds after the loop over the phases. *)
Lemma distribute_invariant (P : gmap string (gmap Phase Z) -> Prop)
    now _chargers available result res :
  (forall phase a r r',
     (phase, a) ∈ available -> a < 0 ->
     _distribute_cuts now _chargers phase a r = Ok r' -> P r -> P r') ->
  (forall phase a r r',
     (phase, a) ∈ available -> a > 0 ->
     _distribute_increases now _chargers phase a r = Ok r' -> P r -> P r') ->
  P result ->
  distribute now _chargers available result = Ok res ->
  P res.
Proof.
  revert result.
  induction available as [|[phase a] rest IH];
    intros result Hcut Hinc HP Hd; simpl in Hd.
  - by injection Hd as <-.
  - bind_inv Hd.
    eapply IH; [| | |exact Hd].
    + intros ph b r r' Hin. apply Hcut. by right.
    + intros ph b r r' Hin. apply Hinc. by right.
    + case_bool_decide as Hneg.
      * eapply Hcut; [by left|done..].
      * case_bool_decide as Hpos.
        -- eapply Hinc; [by left|done..].
        -- by injection Hx as <-.
Qed.

(** *** What the loops write, charger by charger *)

Lemma collect_currents_sublist now phase active charger_currents :
  collect_currents now phase active = Ok charger_currents ->
  charger_currents.*1 `sublist_of` active.*1.
Proof.
  revert charger_currents.
  induction active as [|[cid state] rest IH]; intros cc Hcc; simpl in Hcc.
  - injection Hcc as <-. constructor.
  - destruct (get_current_limit now state) as [d|];
      [|by apply sublist_cons, IH].
    case_bool_decide as Hnonempty; [|by apply sublist_cons, IH].
    bind_inv Hcc. bind_inv Hcc. injection Hcc as <-.
    simpl. by apply sublist_skip, IH.
Qed.

Lemma collect_currents_complete now phase active charger_currents
    charger_id state current_setting :
  collect_currents now phase active = Ok charger_currents ->
  (charger_id, state) ∈ active ->
  get_current_limit now state = Some current_setting ->
  current_setting <> ∅ ->
  exists current,
    current_setting !! phase = Some current
    /\ (charger_id, current) ∈ charger_currents.
Proof.
  revert charger_currents.
  induction active as [|[cid st] rest IH]; intros cc Hcc Hin Hlimit Hne.
  - by apply elem_of_nil in Hin.
  - simpl in Hcc. apply elem_of_cons in Hin as [Heq|Hin].
    + injection Heq as <- <-. rewrite Hlimit in Hcc.
      rewrite bool_decide_eq_true_2 in Hcc by done.
      bind_inv Hcc. apply getitem_Ok in Hx. bind_inv Hcc.
      injection Hcc as <-. exists x. split; [done|by left].
    + destruct (get_current_limit now st) as [d|]; [|by apply IH].
      case_bool_decide as Hnonempty; [|by apply IH].
      bind_inv Hcc. bind_inv Hcc. injection Hcc as <-.
      destruct (IH x0 Hx0 Hin Hlimit Hne) as (current & ? & ?).
      exists current. split; [done|by right].
Qed.

Lemma open_entry_elsewhere now _chargers phase charger_id result old entry
    result' other :
  open_entry now _chargers phase charger_id result = Ok (old, entry, result') ->
  other <> charger_id -> result' !! other = result !! other.
Proof.
  intros Hopen Hne.
  apply open_entry_Ok in Hopen as (? & ? & _ & _ & _ & _ & Hcase).
  destruct Hcase as [(_ & -> & _)|[_ ->]]; [|done].
  by rewrite lookup_insert_ne.
Qed.

Lemma open_entry_default now _chargers phase charger_id result old entry result' :
  open_entry now _chargers phase charger_id result = Ok (old, entry, result') ->
  exists state current_setting,
    _chargers !! charger_id = Some state
    /\ get_current_limit now state = Some current_setting
    /\ current_setting !! phase = Some old
    /\ entry = default current_setting (result !! charger_id).
Proof.
  intros Hopen.
  apply open_entry_Ok in Hopen as (state & cs & ? & ? & ? & _ & Hcase).
  exists state, cs. repeat (split; [done|]).
  destruct Hcase as [(-> & _ & ->)|[-> _]]; done.
Qed.

(** After the second loop of [_distribute_cuts], a charger of
    [charger_currents] holds its previous entry (or a copy of its current
    limit) with [phase] overwritten; every other charger is untouched. *)
Lemma apply_cuts_lookup now _chargers phase deficit total_current
    charger_currents result res :
  NoDup charger_currents.*1 ->
  apply_cuts now _chargers phase deficit total_current charger_currents result
  = Ok res ->
  forall charger_id,
    (charger_id ∉ charger_currents.*1 ->
     res !! charger_id = result !! charger_id)
    /\ (forall current,
          (charger_id, current) ∈ charger_currents ->
          exists cut state current_setting old,
            proportional_cut deficit current total_current = Ok cut
            /\ _chargers !! charger_id = Some state
            /\ get_current_limit now state = Some current_setting
            /\ current_setting !! phase = Some old
            /\ res !! charger_id
               = Some (<[phase := Z.max 0 (old + cut)]>
                         (default current_setting (result !! charger_id)))).
Proof.
  revert result.
  induction charger_currents as [|[cid cur] rest IH];
    intros result Hnd Happly charger_id; simpl in Happly.
  - injection Happly as <-. split; [done|].
    intros c Hin. by apply elem_of_nil in Hin.
  - bind_inv Happly. rename x into cut. bind_inv Happly.
    destruct x as [[old entry] r'].
    rewrite fmap_cons in Hnd. apply NoDup_cons in Hnd as [Hfresh Hnd].
    simpl in Hfresh.
    destruct (IH _ Hnd Happly charger_id) as [IHout IHin]. split.
    + intros Hnotin. rewrite fmap_cons in Hnotin.
      apply not_elem_of_cons in Hnotin as [Hne Hnotin]. simpl in Hne.
      rewrite IHout by done. rewrite lookup_insert_ne by done.
      by eapply open_entry_elsewhere.
    + intros current Hin. apply elem_of_cons in Hin as [Heq|Hin].
      * injection Heq as -> ->.
        destruct (open_entry_default _ _ _ _ _ _ _ _ Hx0)
          as (state & cs & ? & ? & ? & ->).
        exists cut, state, cs, old. repeat (split; [done|]).
        destruct (IH _ Hnd Happly cid) as [IHout' _].
        rewrite IHout' by done. by rewrite lookup_insert_eq.
      * destruct (IHin current Hin)
          as (cut' & state & cs & old' & ? & ? & ? & ? & Hres).
        exists cut', state, cs, old'. repeat (split; [done|]).
        rewrite Hres. do 3 f_equal.
        assert (charger_id <> cid) as Hne.
        { intros ->. apply Hfresh. apply list_elem_of_fmap.
          by exists (cid, current). }
        rewrite lookup_insert_ne by done.
        by eapply open_entry_elsewhere.
Qed.

(** X27. What [_distribute_cuts] does on one phase. [charger_currents]
    lists, once each, the chargers that can charge and have a readable
    current limit, with their current on [phase]; [T] is the sum of these
    currents. If [T = 0] nothing is written. Otherwise each of these
    chargers gets [max(0, current + cut)] on [phase], where [cut] is the
    floor of the double [deficit * (current / T)], and no other charger
    is touched. *)
Lemma _distribute_cuts_writes now (_chargers : gmap string ChargerState.t)
    phase deficit result res :
  _distribute_cuts now _chargers phase deficit result = Ok res ->
  exists charger_currents,
    NoDup charger_currents.*1
    /\ (forall charger_id current,
          (charger_id, current) ∈ charger_currents <->
          exists state current_setting,
            _chargers !! charger_id = Some state
            /\ Charger.can_charge (charger state) = true
            /\ get_current_limit now state = Some current_setting
            /\ current_setting <> ∅
            /\ current_setting !! phase = Some current)
    /\ (total charger_currents = 0 -> res = result)
    /\ (total charger_currents <> 0 ->
        (forall charger_id current,
           (charger_id, current) ∈ charger_currents ->
           exists cut entry,
             proportional_cut deficit current (total charger_currents)
             = Ok cut
             /\ res !! charger_id
                = Some (<[phase := Z.max 0 (current + cut)]> entry))
        /\ (forall charger_id,
              charger_id ∉ charger_currents.*1 ->
              res !! charger_id = result !! charger_id)).
Proof.
  unfold _distribute_cuts. intros Hcuts. bind_inv Hcuts.
  rename x into charger_currents. exists charger_currents.
  assert (NoDup charger_currents.*1) as Hnd.
  { eapply sublist_NoDup; [|by eapply collect_currents_sublist].
    apply NoDup_fst_map_to_list. }
  split; [done|]. split; [|split].
  - intros cid current. split.
    + intros Hin.
      destruct (collect_currents_nonempty _ _ _ _ _ _ Hx Hin)
        as (state & cs & Hactive & ? & ? & ?).
      apply elem_of_active in Hactive as [? ?]. by exists state, cs.
    + intros (state & cs & Hstate & Hcan & Hlimit & Hne & Hcur).
      assert ((cid, state) ∈ map_to_list (_active_chargers _chargers))
        as Hactive by (by apply elem_of_active).
      destruct (collect_currents_complete _ _ _ _ _ _ _ Hx Hactive Hlimit Hne)
        as (current' & Hcur' & Hin).
      by assert (current' = current) as -> by congruence.
  - intros Hzero. rewrite bool_decide_eq_true_2 in Hcuts by done.
    by injection Hcuts as <-.
  - intros Hnonzero. rewrite bool_decide_eq_false_2 in Hcuts by done.
    split.
    + intros cid current Hin.
      destruct (apply_cuts_lookup _ _ _ _ _ _ _ _ Hnd Hcuts cid) as [_ Hres].
      destruct (Hres current Hin)
        as (cut & state & cs & old & Hcut & Hstate & Hlimit & Hold & Hlookup).
      destruct (collect_currents_nonempty _ _ _ _ _ _ Hx Hin)
        as (state' & cs' & Hactive & Hlimit' & _ & Hcur).
      apply elem_of_active in Hactive as [Hstate' _].
      assert (state' = state) as -> by congruence.
      assert (old = current) as -> by congruence.
      eauto.
    + intros cid Hnotin.
      by destruct (apply_cuts_lookup _ _ _ _ _ _ _ _ Hnd Hcuts cid) as [-> _].
Qed.

Lemma collect_potentials_sublist now phase active potential_increases :
  collect_potentials now phase active = Ok potential_increases ->
  potential_increases.*1 `sublist_of` active.*1.
Proof.
  revert potential_increases.
  induction active as [|[cid state] rest IH]; intros pi Hpi; simpl in Hpi.
  - injection Hpi as <-. constructor.
  - destruct (get_current_limit now state) as [d|];
      [|by apply sublist_cons, IH].
    destruct (requested_current state) as [r|];
      [|by apply sublist_cons, IH].
    destruct (bool_decide (d ≠ ∅) && bool_decide (r ≠ ∅));
      [|by apply sublist_cons, IH].
    bind_inv Hpi. bind_inv Hpi. bind_inv Hpi.
    case_bool_decide as Hgt; injection Hpi as <-; simpl.
    + by apply sublist_skip, IH.
    + by apply sublist_cons, IH.
Qed.

Lemma collect_potentials_complete now phase active potential_increases
    charger_id state current_setting requested current wanted :
  collect_potentials now phase active = Ok potential_increases ->
  (charger_id, state) ∈ active ->
  get_current_limit now state = Some current_setting ->
  current_setting <> ∅ ->
  requested_current state = Some requested ->
  requested <> ∅ ->
  current_setting !! phase = Some current ->
  requested !! phase = Some wanted ->
  wanted > current ->
  (charger_id, wanted - current) ∈ potential_increases.
Proof.
  revert potential_increases.
  induction active as [|[cid st] rest IH];
    intros pi Hpi Hin Hlimit Hne Hreq Hrne Hcur Hwanted Hgt.
  - by apply elem_of_nil in Hin.
  - simpl in Hpi. apply elem_of_cons in Hin as [Heq|Hin].
    + injection Heq as <- <-. rewrite Hlimit, Hreq in Hpi.
      rewrite !bool_decide_eq_true_2 in Hpi by done. simpl in Hpi.
      unfold getitem in Hpi. rewrite Hcur, Hwanted in Hpi. simpl in Hpi.
      bind_inv Hpi. rewrite bool_decide_eq_true_2 in Hpi by done.
      injection Hpi as <-. by left.
    + destruct (get_current_limit now st) as [d|]; [|by eapply IH].
      destruct (requested_current st) as [r|]; [|by eapply IH].
      destruct (bool_decide (d ≠ ∅) && bool_decide (r ≠ ∅)); [|by eapply IH].
      bind_inv Hpi. bind_inv Hpi. bind_inv Hpi.
      assert ((charger_id, wanted - current) ∈ x1) by (by eapply IH).
      case_bool_decide; injection Hpi as <-; [by right|done].
Qed.

(** The counterpart of [apply_cuts_lookup] for the second loop of
    [_distribute_increases]. *)
Lemma apply_increases_lookup now _chargers phase surplus total_potential
    potential_increases result res :
  NoDup potential_increases.*1 ->
  apply_increases now _chargers phase surplus total_potential
    potential_increases result = Ok res ->
  forall charger_id,
    (charger_id ∉ potential_increases.*1 ->
     res !! charger_id = result !! charger_id)
    /\ (forall potential,
          (charger_id, potential) ∈ potential_increases ->
          exists increase state current_setting old,
            proportional_increase surplus potential total_potential
            = Ok increase
            /\ _chargers !! charger_id = Some state
            /\ get_current_limit now state = Some current_setting
            /\ current_setting !! phase = Some old
            /\ res !! charger_id
               = Some (<[phase := old + increase]>
                         (default current_setting (result !! charger_id)))).
Proof.
  revert result.
  induction potential_increases as [|[cid pot] rest IH];
    intros result Hnd Happly charger_id; simpl in Happly.
  - injection Happly as <-. split; [done|].
    intros c Hin. by apply elem_of_nil in Hin.
  - bind_inv Happly. rename x into inc. bind_inv Happly.
    destruct x as [[old entry] r'].
    rewrite fmap_cons in Hnd. apply NoDup_cons in Hnd as [Hfresh Hnd].
    simpl in Hfresh.
    destruct (IH _ Hnd Happly charger_id) as [IHout IHin]. split.
    + intros Hnotin. rewrite fmap_cons in Hnotin.
      apply not_elem_of_cons in Hnotin as [Hne Hnotin]. simpl in Hne.
      rewrite IHout by done. rewrite lookup_insert_ne by done.
      by eapply open_entry_elsewhere.
    + intros potential Hin. apply elem_of_cons in Hin as [Heq|Hin].
      * injection Heq as -> ->.
        destruct (open_entry_default _ _ _ _ _ _ _ _ Hx0)
          as (state & cs & ? & ? & ? & ->).
        exists inc, state, cs, old. repeat (split; [done|]).
        destruct (IH _ Hnd Happly cid) as [IHout' _].
        rewrite IHout' by done. by rewrite lookup_insert_eq.
      * destruct (IHin potential Hin)
          as (inc' & state & cs & old' & ? & ? & ? & ? & Hres).
        exists inc', state, cs, old'. repeat (split; [done|]).
        rewrite Hres. do 3 f_equal.
        assert (charger_id <> cid) as Hne.
        { intros ->. apply Hfresh. apply list_elem_of_fmap.
          by exists (cid, potential). }
        rewrite lookup_insert_ne by done.
        by eapply open_entry_elsewhere.
Qed.

Lemma total_pos (l : list (string * Z)) :
  (forall charger_id v, (charger_id, v) ∈ l -> 0 < v) ->
  total l <> 0 -> 0 < total l.
Proof.
  intros Hall Hne.
  assert (0 <= total l); [|lia].
  apply total_nonneg. intros c v Hin. pose proof (Hall c v Hin). lia.
Qed.

(** X28. What [_distribute_increases] does on one phase.
    [potential_increases] lists, once each, the chargers that can charge,
    have a readable current limit and a requested current, and request
    more than their current on [phase], with the difference as their
    potential; [P] is the sum of the potentials. If [P = 0] nothing is
    written. Otherwise each of these chargers gets [current + increase] on
    [phase], where [increase] is
    [int(min(surplus * (potential / P), potential))] computed in doubles,
    and no other charger is touched. For a positive surplus the increase
    lies in [0, potential], so no charger is raised above its requested
    current. *)
Lemma _distribute_increases_writes now (_chargers : gmap string ChargerState.t)
    phase surplus result res :
  _distribute_increases now _chargers phase surplus result = Ok res ->
  exists potential_increases,
    NoDup potential_increases.*1
    /\ (forall charger_id potential,
          (charger_id, potential) ∈ potential_increases <->
          exists state current_setting requested current wanted,
            _chargers !! charger_id = Some state
            /\ Charger.can_charge (charger state) = true
            /\ get_current_limit now state = Some current_setting
            /\ current_setting <> ∅
            /\ requested_current state = Some requested
            /\ requested <> ∅
            /\ current_setting !! phase = Some current
            /\ requested !! phase = Some wanted
            /\ wanted > current
            /\ potential = wanted - current)
    /\ (total potential_increases = 0 -> res = result)
    /\ (total potential_increases <> 0 ->
        (forall charger_id state current_setting requested current wanted,
           _chargers !! charger_id = Some state ->
           Charger.can_charge (charger state) = true ->
           get_current_limit now state = Some current_setting ->
           current_setting <> ∅ ->
           requested_current state = Some requested ->
           requested <> ∅ ->
           current_setting !! phase = Some current ->
           requested !! phase = Some wanted ->
           wanted > current ->
           exists increase entry,
             proportional_increase surplus (wanted - current)
               (total potential_increases) = Ok increase
             /\ res !! charger_id
                = Some (<[phase := current + increase]> entry)
             /\ (0 < surplus ->
                 0 <= increase /\ current + increase <= wanted))
        /\ (forall charger_id,
              charger_id ∉ potential_increases.*1 ->
              res !! charger_id = result !! charger_id)).
Proof.
  unfold _distribute_increases. intros Hinc. bind_inv Hinc.
  rename x into potential_increases. exists potential_increases.
  assert (NoDup potential_increases.*1) as Hnd.
  { eapply sublist_NoDup; [|by eapply collect_potentials_sublist].
    apply NoDup_fst_map_to_list. }
  assert (Hmem : forall cid st cs rq current wanted,
            _chargers !! cid = Some st ->
            Charger.can_charge (charger st) = true ->
            get_current_limit now st = Some cs -> cs <> ∅ ->
            requested_current st = Some rq -> rq <> ∅ ->
            cs !! phase = Some current -> rq !! phase = Some wanted ->
            wanted > current ->
            (cid, wanted - current) ∈ potential_increases).
  { intros cid st cs rq current wanted Hstate Hcan ? ? ? ? ? ? ?.
    assert ((cid, st) ∈ map_to_list (_active_chargers _chargers))
      as Hactive by (by apply elem_of_active).
    by eapply collect_potentials_complete. }
  split; [done|]. split; [|split].
  - intros cid potential. split.
    + intros Hin.
      destruct (collect_potentials_nonempty _ _ _ _ _ _ Hx Hin)
        as (state & cs & rq & c & w & Hactive & ?).
      apply elem_of_active in Hactive as [? ?].
      by exists state, cs, rq, c, w.
    + intros (st & cs & rq & c & w & ? & ? & ? & ? & ? & ? & ? & ? & ? & ->).
      by eapply Hmem.
  - intros Hzero. rewrite bool_decide_eq_true_2 in Hinc by done.
    by injection Hinc as <-.
  - intros Hnonzero. rewrite bool_decide_eq_false_2 in Hinc by done.
    split.
    + intros cid state cs rq current wanted
        Hstate Hcan Hlimit Hne Hreq Hrne Hcur Hwanted Hgt.
      assert ((cid, wanted - current) ∈ potential_increases) as Hin
        by (by eapply Hmem).
      destruct (apply_increases_lookup _ _ _ _ _ _ _ _ Hnd Hinc cid)
        as [_ Hres].
      destruct (Hres _ Hin)
        as (inc & state' & cs' & old & Hprop & Hstate' & Hlimit' & Hold
            & Hlookup).
      assert (state' = state) as -> by congruence.
      assert (old = current) as -> by congruence.
      exists inc, (default cs' (result !! cid)).
      split; [done|]. split; [done|].
      intros Hsurplus.
      assert (0 <= inc <= wanted - current); [|lia].
      eapply proportional_increase_bounds; [done|lia| |done].
      apply total_pos; [|done].
      intros c v Hv.
      destruct (collect_potentials_elem _ _ _ _ _ _ Hx Hv)
        as (? & ? & ? & ? & ? & _ & _ & _ & _ & _ & ? & ->).
      lia.
    + intros cid Hnotin.
      by destruct (apply_increases_lookup _ _ _ _ _ _ _ _ Hnd Hinc cid)
        as [-> _].
Qed.

(** *** Checking against the exact formula on a range *)

Lemma forallb_seqZ (f : Z -> bool) m n x :
  forallb f (seqZ m n) = true -> m <= x < m + n -> f x = true.
Proof.
  intros Hall Hx. rewrite forallb_forall in Hall. apply Hall.
  apply list_elem_of_In, elem_of_seqZ. lia.
Qed.

Lemma cuts_agree_sound D Tmax deficit current total_current :
  cuts_agree D Tmax = true ->
  - D <= deficit < 0 -> 0 <= current <= total_current ->
  1 <= total_current <= Tmax ->
  proportional_cut deficit current total_current
  = Ok (exact_share deficit current total_current).
Proof.
  intros H Hd Hc HT. unfold cuts_agree in H.
  apply (forallb_seqZ _ _ _ total_current) in H; [|lia].
  apply (forallb_seqZ _ _ _ current) in H; [|lia].
  apply (forallb_seqZ _ _ _ deficit) in H; [|lia].
  unfold cut_agrees in H.
  destruct (proportional_cut deficit current total_current); [|done].
  apply Z.eqb_eq in H. by subst.
Qed.

Lemma increases_agree_sound S Pmax surplus potential total_potential :
  increases_agree S Pmax = true ->
  1 <= surplus <= S -> 1 <= potential <= total_potential ->
  1 <= total_potential <= Pmax ->
  proportional_increase surplus potential total_potential
  = Ok (Z.min (exact_share surplus potential total_potential) potential).
Proof.
  intros H Hs Hp HP. unfold increases_agree in H.
  apply (forallb_seqZ _ _ _ total_potential) in H; [|lia].
  apply (forallb_seqZ _ _ _ potential) in H; [|lia].
  apply (forallb_seqZ _ _ _ surplus) in H; [|lia].
  unfold increase_agrees in H.
  destruct (proportional_increase surplus potential total_potential);
    [|done].
  apply Z.eqb_eq in H. by subst.
Qed.

End Distribution.

(** ** PowerAllocator._allocate_current: flattening *)

Section Flattening.

Import ChargerState PowerAllocator.

Lemma flatten_lookup _chargers processed entries result res :
  NoDup entries.*1 ->
  flatten _chargers processed entries result = Ok res ->
  forall charger_id,
    (charger_id ∉ entries.*1 -> res !! charger_id = result !! charger_id)
    /\ (forall charger_currents,
          (charger_id, charger_currents) ∈ entries ->
          exists state flattened,
            _active_chargers _chargers !! charger_id = Some state
            /\ flatten_entry processed
                 (Charger.has_synced_phase_limits (charger state))
                 charger_currents = Ok flattened
            /\ res !! charger_id = Some flattened).
Proof.
  revert result.
  induction entries as [|[cid cc] rest IH]; intros result Hnd Hf charger_id;
    simpl in Hf.
  - injection Hf as <-. split; [done|].
    intros c Hin. by apply elem_of_nil in Hin.
  - bind_inv Hf. apply getitem_Ok in Hx. bind_inv Hf.
    rewrite fmap_cons in Hnd. apply NoDup_cons in Hnd as [Hfresh Hnd].
    destruct (IH _ Hnd Hf charger_id) as [IHout IHin]. split.
    + intros Hnotin. rewrite fmap_cons in Hnotin.
      apply not_elem_of_cons in Hnotin as [Hne Hnotin].
      rewrite IHout by done. by rewrite lookup_insert_ne.
    + intros c Hin. apply elem_of_cons in Hin as [Heq|Hin].
      * injection Heq as -> ->. exists x, x0. split; [done|]. split; [done|].
        destruct (IH _ Hnd Hf cid) as [IHout' _].
        rewrite IHout' by done. by rewrite lookup_insert_eq.
      * by apply IHin.
Qed.

(** The result of the flattening loop, charger by charger. *)
Lemma flatten_result _chargers processed result res charger_id d :
  flatten _chargers processed (map_to_list result) result = Ok res ->
  res !! charger_id = Some d ->
  exists state charger_currents,
    _chargers !! charger_id = Some state
    /\ Charger.can_charge (charger state) = true
    /\ result !! charger_id = Some charger_currents
    /\ flatten_entry processed
         (Charger.has_synced_phase_limits (charger state))
         charger_currents = Ok d.
Proof.
  intros Hf Hd.
  destruct (flatten_lookup _ _ _ _ _ (NoDup_fst_map_to_list result) Hf
              charger_id) as [Hout Hin].
  destruct (result !! charger_id) as [cc|] eqn:Hres.
  - destruct (Hin cc) as (state & flattened & Hactive & Hflat & Hlookup).
    { by apply elem_of_map_to_list. }
    unfold _active_chargers in Hactive.
    apply map_lookup_filter_Some in Hactive as [Hstate Hcan].
    exists state, cc. rewrite Hlookup in Hd. injection Hd as <-. done.
  - rewrite Hout in Hd; [congruence|].
    intros Hel. apply list_elem_of_fmap in Hel as ([c cc] & -> & Hel).
    apply elem_of_map_to_list in Hel. simpl in Hres. congruence.
Qed.

Lemma flatten_entry_synced (processed : gset Phase)
    (charger_currents d : gmap Phase Z) :
  (exists p, p ∈ processed /\ is_Some (charger_currents !! p)) ->
  flatten_entry processed true charger_currents = Ok d ->
  flattened_over (fun p => p ∈ processed) charger_currents d.
Proof.
  intros (p0 & Hp0 & [v0 Hv0]). unfold flatten_entry.
  case_bool_decide as Hempty.
  - intros H. bind_inv H. injection H as <-. rename x into m.
    apply min_values_Ok in Hx as [(p & Hp) Hle]. exists m.
    apply map_lookup_filter_Some in Hp as [Hp Hsel]. simpl in Hsel.
    split; [done|]. split; [by exists p|].
    intros q v Hq Hv. apply (Hle q). by apply map_lookup_filter_Some.
  - exfalso.
    assert (filter (fun kv : Phase * Z => kv.1 ∈ processed) charger_currents
              !! p0 = Some v0) as Hin
      by (by apply map_lookup_filter_Some).
    rewrite Hempty in Hin. by rewrite lookup_empty in Hin.
Qed.

Lemma flatten_entry_all (Q : Z -> Prop) processed synced
    (charger_currents d : gmap Phase Z) :
  (forall p v, charger_currents !! p = Some v -> Q v) ->
  flatten_entry processed synced charger_currents = Ok d ->
  forall p v, d !! p = Some v -> Q v.
Proof.
  intros Hall. unfold flatten_entry.
  destruct synced; [|by intros [= <-]].
  case_bool_decide as Hnonempty; [|by intros [= <-]].
  intros H p v. bind_inv H. injection H as <-.
  rewrite lookup_fromkeys. intros [= <-].
  apply min_values_Ok in Hx as [(q & Hq) _].
  apply map_lookup_filter_Some in Hq as [Hq _]. by eapply Hall.
Qed.

(** Each charger of the per-phase result has a value on a phase of the
    deltas: a charger enters the result only when one of those phases is
    written for it. *)
Lemma distribute_touches now _chargers (available_currents : gmap Phase Z)
    per_phase :
  distribute now _chargers (items available_currents) ∅ = Ok per_phase ->
  touches (fun p => p ∈ dom available_currents) per_phase.
Proof.
  apply distribute_invariant.
  - intros phase a r r' Hin _ Hcuts Hr.
    apply elem_of_items in Hin.
    assert (phase ∈ dom available_currents) as Hdom
      by (apply elem_of_dom; eauto).
    unfold _distribute_cuts in Hcuts. bind_inv Hcuts.
    case_bool_decide; [by injection Hcuts as <-|].
    revert Hr Hcuts. apply apply_cuts_invariant.
    intros cid current cut old entry r0 r0' _ _ Hopen Hr0.
    by eapply write_entry_touches.
  - intros phase a r r' Hin _ Hinc Hr.
    apply elem_of_items in Hin.
    assert (phase ∈ dom available_currents) as Hdom
      by (apply elem_of_dom; eauto).
    unfold _distribute_increases in Hinc. bind_inv Hinc.
    case_bool_decide; [by injection Hinc as <-|].
    revert Hr Hinc. apply apply_increases_invariant.
    intros cid potential inc old entry r0 r0' _ _ Hopen Hr0.
    by eapply write_entry_touches.
  - intros cid d Hd. by rewrite lookup_empty in Hd.
Qed.

(** C4, as the code has it. A charger with synced phase limits that
    appears in the result of [_allocate_current] gets one scalar on all
    three phases: the least of its per-phase values over the phases that
    are keys of the deltas, those with a delta of 0 included. *)
Theorem synced_charger_flattened_over_delta_keys
    (now : Z) (_chargers : gmap string ChargerState.t)
    (available_currents : gmap Phase Z)
    (res : gmap string (gmap Phase Z))
    (charger_id : string) (d : gmap Phase Z) (state : ChargerState.t) :
  _allocate_current now _chargers available_currents = Ok res ->
  res !! charger_id = Some d ->
  _chargers !! charger_id = Some state ->
  Charger.has_synced_phase_limits (charger state) = true ->
  exists per_phase charger_currents,
    distribute now _chargers (items available_currents) ∅ = Ok per_phase
    /\ per_phase !! charger_id = Some charger_currents
    /\ flattened_over (fun p => is_Some (available_currents !! p))
         charger_currents d.
Proof.
  unfold _allocate_current. intros Halloc Hd Hstate Hsynced.
  bind_inv Halloc. rename x into per_phase.
  destruct (flatten_result _ _ _ _ _ _ Halloc Hd)
    as (state' & cc & Hstate' & _ & Hcc & Hflat).
  assert (state' = state) as -> by congruence.
  exists per_phase, cc. split; [done|]. split; [done|].
  rewrite Hsynced in Hflat.
  destruct (flatten_entry_synced (dom available_currents) cc d)
    as (m & Hm & (p & Hp & Hpm) & Hle); [|done|].
  { by apply (distribute_touches _ _ _ _ Hx charger_id). }
  exists m. split; [done|]. split.
  - exists p. split; [by apply elem_of_dom|done].
  - intros q v Hq. apply Hle. by apply elem_of_dom.
Qed.

(** ** PowerAllocator.update_allocation *)

Lemma collect_updates_entries now allocated _chargers result res _chargers' :
  collect_updates now allocated _chargers result = Ok (res, _chargers') ->
  forall charger_id d,
    res !! charger_id = Some d ->
    result !! charger_id = Some d \/ (charger_id, d) ∈ allocated.
Proof.
  revert _chargers result.
  induction allocated as [|[cid new_limits] rest IH];
    intros chargers result Hc charger_id d Hd; simpl in Hc.
  - injection Hc as <- _. by left.
  - bind_inv Hc.
    assert (Hskip : collect_updates now rest chargers result
                    = Ok (res, _chargers') ->
              result !! charger_id = Some d
              \/ (charger_id, d) ∈ (cid, new_limits) :: rest).
    { intros Hrest. destruct (IH _ _ Hrest charger_id d Hd) as [?|?];
        [by left|right; by right]. }
    destruct (get_current_limit now x) as [cs|]; [|by apply Hskip].
    case_bool_decide as Hnonempty; [|by apply Hskip].
    bind_inv Hc. destruct x0; [|by apply Hskip].
    destruct (IH _ _ Hc charger_id d Hd) as [Hin|Hin]; [|right; by right].
    destruct (decide (charger_id = cid)) as [->|Hne].
    + rewrite lookup_insert_eq in Hin. injection Hin as ->. right. by left.
    + rewrite lookup_insert_ne in Hin by done. by left.
Qed.

(** Every proposal of [update_allocation] is the entry of that charger in
    the result of [_allocate_current], taken on the chargers as the first
    loop leaves them. *)
Lemma update_allocation_entries now (_chargers : gmap string ChargerState.t)
    available_currents res _chargers' charger_id d :
  update_allocation now _chargers available_currents = Ok (res, _chargers') ->
  res !! charger_id = Some d ->
  exists prepared allocated,
    prepare_all now (map_to_list _chargers) _chargers = Ok prepared
    /\ _allocate_current now prepared available_currents = Ok allocated
    /\ allocated !! charger_id = Some d.
Proof.
  unfold update_allocation. intros Hu Hd.
  case_bool_decide as Hactive.
  - injection Hu as <- _. by rewrite lookup_empty in Hd.
  - bind_inv Hu. rename x into prepared. bind_inv Hu.
    rename x into allocated. exists prepared, allocated.
    split; [done|]. split; [done|].
    destruct (collect_updates_entries _ _ _ _ _ _ Hu charger_id d Hd)
      as [Hin|Hin].
    + by rewrite lookup_empty in Hin.
    + by apply elem_of_map_to_list in Hin.
Qed.

End Flattening.

(** ** Bounds on the allocated setpoints *)

Section Bounds.

Import ChargerState PowerAllocator.

Variable now : Z.
Variable _chargers : gmap string ChargerState.t.
Variable fuse : Z.

(** What the allocator reads as the current limit of a charger that can
    charge lies in [0, fuse] on every phase. *)
Hypothesis current_within :
  forall charger_id state current_setting p v,
    _chargers !! charger_id = Some state ->
    Charger.can_charge (charger state) = true ->
    get_current_limit now state = Some current_setting ->
    current_setting !! p = Some v -> 0 <= v <= fuse.

(** The requested current of a charger that can charge does not exceed
    [fuse] on any phase. *)
Hypothesis requested_within :
  forall charger_id state requested p v,
    _chargers !! charger_id = Some state ->
    Charger.can_charge (charger state) = true ->
    requested_current state = Some requested ->
    requested !! p = Some v -> v <= fuse.

Lemma _distribute_cuts_within phase deficit r r' :
  deficit < 0 ->
  _distribute_cuts now _chargers phase deficit r = Ok r' ->
  setpoints_within fuse r -> setpoints_within fuse r'.
Proof.
  intros Hdeficit Hcuts Hr. unfold _distribute_cuts in Hcuts.
  bind_inv Hcuts. rename x into charger_currents.
  case_bool_decide as Htotal; [by injection Hcuts as <-|].
  assert (Helem : forall cid current,
            (cid, current) ∈ charger_currents ->
            exists state current_setting,
              _chargers !! cid = Some state
              /\ Charger.can_charge (charger state) = true
              /\ get_current_limit now state = Some current_setting
              /\ current_setting !! phase = Some current).
  { intros cid current Hin.
    destruct (collect_currents_elem _ _ _ _ _ _ Hx Hin)
      as (state & cs & Hactive & Hlimit & Hcur).
    apply elem_of_active in Hactive as [Hstate Hcan]. eauto 8. }
  assert (0 < total charger_currents) as Hpos.
  { assert (0 <= total charger_currents); [|lia].
    apply total_nonneg. intros cid v Hin.
    destruct (Helem cid v Hin) as (state & cs & ? & ? & ? & ?).
    by eapply current_within. }
  revert Hr Hcuts. apply apply_cuts_invariant.
  intros cid current cut old entry r0 r0' Hin Hcut Hopen Hr0.
  destruct (Helem cid current Hin) as (state & cs & Hstate & Hcan & Hlimit & Hcur).
  assert (0 <= current <= fuse) as Hbound by (by eapply current_within).
  apply proportional_cut_nonpos in Hcut; [|lia..].
  pose proof Hopen as Hopen'.
  apply open_entry_Ok in Hopen'
    as (state' & cs' & Hstate' & Hlimit' & Hold & _).
  assert (state' = state) as -> by congruence.
  assert (old = current) as -> by congruence.
  eapply write_entry_all; [exact Hopen|exact Hr0| |simpl; lia].
  intros st cs0 p w Hst Hcs Hw.
  assert (st = state) as -> by congruence. by eapply current_within.
Qed.

Lemma _distribute_increases_within phase surplus r r' :
  surplus > 0 ->
  _distribute_increases now _chargers phase surplus r = Ok r' ->
  setpoints_within fuse r -> setpoints_within fuse r'.
Proof.
  intros Hsurplus Hinc Hr. unfold _distribute_increases in Hinc.
  bind_inv Hinc. rename x into potential_increases.
  case_bool_decide as Htotal; [by injection Hinc as <-|].
  assert (Helem : forall cid potential,
            (cid, potential) ∈ potential_increases ->
            exists state current_setting requested current wanted,
              _chargers !! cid = Some state
              /\ Charger.can_charge (charger state) = true
              /\ get_current_limit now state = Some current_setting
              /\ requested_current state = Some requested
              /\ current_setting !! phase = Some current
              /\ requested !! phase = Some wanted
              /\ wanted > current
              /\ potential = wanted - current).
  { intros cid potential Hin.
    destruct (collect_potentials_elem _ _ _ _ _ _ Hx Hin)
      as (state & cs & rq & c & w & Hactive & ? & ? & ? & ? & ? & ?).
    apply elem_of_active in Hactive as [Hstate Hcan].
    exists state, cs, rq, c, w. done. }
  assert (0 < total potential_increases) as Hpos.
  { assert (0 <= total potential_increases); [|lia].
    apply total_nonneg. intros cid v Hin.
    destruct (Helem cid v Hin) as (? & ? & ? & ? & ? & ? & ? & ? & ? & ? & ? & ?).
    lia. }
  revert Hr Hinc. apply apply_increases_invariant.
  intros cid potential inc old entry r0 r0' Hin Hprop Hopen Hr0.
  destruct (Helem cid potential Hin)
    as (state & cs & rq & current & wanted & Hstate & Hcan & Hlimit & Hreq
        & Hcur & Hwanted & Hgt & ->).
  assert (0 <= current <= fuse) as Hbound by (by eapply current_within).
  assert (wanted <= fuse) as Hwant by (by eapply requested_within).
  apply proportional_increase_bounds in Hprop; [|lia..].
  pose proof Hopen as Hopen'.
  apply open_entry_Ok in Hopen'
    as (state' & cs' & Hstate' & Hlimit' & Hold & _).
  assert (state' = state) as -> by congruence.
  assert (old = current) as -> by congruence.
  eapply write_entry_all; [exact Hopen|exact Hr0| |simpl; lia].
  intros st cs0 p w Hst Hcs Hw.
  assert (st = state) as -> by congruence. by eapply current_within.
Qed.

Lemma _allocate_current_within available_currents res :
  _allocate_current now _chargers available_currents = Ok res ->
  setpoints_within fuse res.
Proof.
  unfold _allocate_current. intros Halloc. bind_inv Halloc.
  rename x into per_phase.
  assert (setpoints_within fuse per_phase) as Hper.
  { revert Hx. apply distribute_invariant.
    - intros phase a r r' _ Ha. by apply _distribute_cuts_within.
    - intros phase a r r' _ Ha. by apply _distribute_increases_within.
    - intros cid d p v Hd. by rewrite lookup_empty in Hd. }
  intros cid d p v Hd Hv.
  destruct (flatten_result _ _ _ _ _ _ Halloc Hd)
    as (state & cc & _ & _ & Hcc & Hflat).
  revert Hflat p v Hv. apply (flatten_entry_all (fun v => 0 <= v <= fuse)).
  intros q w Hw. by eapply (Hper cid cc q w).
Qed.

End Bounds.

Section Scenarios.

Import ChargerState PowerAllocator.

(** C1, as the code has it. The allocator never reads the fuse size.
    When the current limit it reads for every charger that can charge lies
    in [0, fuse_size] on every phase and no requested current exceeds
    [fuse_size], every per-phase value of the result of
    [_allocate_current], whether written by [_distribute_cuts] or by
    [_distribute_increases], copied from the current limit or flattened,
    lies in [0, fuse_size]. *)
Theorem setpoints_within_fuse_when_requests_are
    (now : Z) (_chargers : gmap string ChargerState.t) (fuse_size : Z)
    (available_currents : gmap Phase Z) (res : gmap string (gmap Phase Z)) :
  (forall charger_id state current_setting p v,
     _chargers !! charger_id = Some state ->
     Charger.can_charge (charger state) = true ->
     get_current_limit now state = Some current_setting ->
     current_setting !! p = Some v -> 0 <= v <= fuse_size) ->
  (forall charger_id state requested p v,
     _chargers !! charger_id = Some state ->
     Charger.can_charge (charger state) = true ->
     requested_current state = Some requested ->
     requested !! p = Some v -> v <= fuse_size) ->
  _allocate_current now _chargers available_currents = Ok res ->
  setpoints_within fuse_size res.
Proof.
  intros Hcur Hreq Halloc.
  by eapply _allocate_current_within.
Qed.

Lemma lookup_one_charger synced limit requested charger_id state :
  one_charger synced limit requested !! charger_id = Some state ->
  state = charging "c1" synced (fromkeys limit) (fromkeys requested).
Proof.
  unfold one_charger. intros H. apply lookup_singleton_Some in H as [_ <-].
  done.
Qed.

(** Fuse 25 A, a charger at 16 A with a requested current of 20 A, 16 A of
    headroom on L1: the charger is raised to 20 A. *)
Lemma setpoints_within_fuse_when_requests_are_witness :
  exists res,
    _allocate_current 100 (one_charger false 16 20) {[L1 := 16]} = Ok res
    /\ setpoints_within 25 res.
Proof.
  eexists. split; [vm_compute; reflexivity|].
  apply (setpoints_within_fuse_when_requests_are 100
           (one_charger false 16 20) 25 {[L1 := 16]}).
  - intros cid state cs p v Hstate _ Hlimit Hv.
    apply lookup_one_charger in Hstate. subst state.
    injection Hlimit as <-. rewrite lookup_fromkeys in Hv.
    injection Hv as <-. lia.
  - intros cid state rq p v Hstate _ Hreq Hv.
    apply lookup_one_charger in Hstate. subst state.
    injection Hreq as <-. rewrite lookup_fromkeys in Hv.
    injection Hv as <-. lia.
  - vm_compute. reflexivity.
Defined.

(** C1, refuted as stated. Fuse 25 A and 9 A measured on L1 leave 16 A
    available; a charger at 16 A whose requested current is its hardware
    maximum of 32 A is raised to 32 A on L1, above the fuse size. *)
Lemma setpoint_above_fuse_size :
  Coordinator.get_available_current_for_phase
    (Coordinator.mk None None 25 15) (Some 9) = Some 16
  /\ _distribute_increases 100 (one_charger false 16 32) L1 16 ∅
     = Ok {[ "c1" := <[L1 := 32]> (fromkeys 16) ]}
  /\ exists res,
       _allocate_current 100 (one_charger false 16 32) {[L1 := 16]} = Ok res
       /\ res !! "c1" = Some (<[L1 := 32]> (fromkeys 16))
       /\ ~ setpoints_within 25 res.
Proof.
  split; [reflexivity|].
  split; [vm_compute; reflexivity|].
  eexists. split; [vm_compute; reflexivity|].
  split; [vm_compute; reflexivity|].
  intros Hwithin.
  assert (0 <= 32 <= 25) as Habsurd; [|lia].
  apply (Hwithin "c1" (<[L1 := 32]> (fromkeys 16)) L1 32).
  - vm_compute. reflexivity.
  - vm_compute. reflexivity.
Qed.

(** A synced charger at 16 A, deltas -1, +2 and 0: the per-phase values
    are 15, 18 and 16 and the charger gets 15 A on all three phases. *)
Lemma synced_charger_flattened_over_delta_keys_witness :
  exists per_phase charger_currents,
    distribute 100 (one_charger true 16 32) (items cut_raise_hold) ∅
    = Ok per_phase
    /\ per_phase !! "c1" = Some charger_currents
    /\ flattened_over (fun p => is_Some (cut_raise_hold !! p))
         charger_currents (fromkeys 15).
Proof.
  apply (synced_charger_flattened_over_delta_keys 100
           (one_charger true 16 32) cut_raise_hold
           {[ "c1" := fromkeys 15 ]} "c1" (fromkeys 15)
           (charging "c1" true (fromkeys 16) (fromkeys 32))).
  - vm_compute. reflexivity.
  - vm_compute. reflexivity.
  - vm_compute. reflexivity.
  - reflexivity.
Defined.

(** C4, refuted as stated. A synced charger at 16 A with deltas +2, 0
    and 0: L1 is the only phase with a non-zero delta and its value is
    18, yet the charger gets 16 A in the result of [_allocate_current],
    because L2 and L3 are keys of the deltas and count in the minimum.
    16 A being the current setting, [update_allocation] then proposes
    nothing, where a minimum of 18 A would have been proposed. *)
Lemma flattening_counts_phases_with_zero_delta :
  exists per_phase res charger_currents d,
    distribute 100 (one_charger true 16 32) (items raise_hold_hold) ∅
    = Ok per_phase
    /\ _allocate_current 100 (one_charger true 16 32) raise_hold_hold = Ok res
    /\ per_phase !! "c1" = Some charger_currents
    /\ charger_currents = <[L1 := 18]> (fromkeys 16)
    /\ res !! "c1" = Some d
    /\ d = fromkeys 16
    /\ proposals (update_allocation 100 (one_charger true 16 32)
                    raise_hold_hold) = Ok ∅
    /\ ~ flattened_over
           (fun p => exists a, raise_hold_hold !! p = Some a /\ a <> 0)
           charger_currents d.
Proof.
  eexists. eexists. eexists. eexists.
  split; [vm_compute; reflexivity|].
  split; [vm_compute; reflexivity|].
  split; [vm_compute; reflexivity|].
  split; [vm_compute; reflexivity|].
  split; [vm_compute; reflexivity|].
  split; [vm_compute; reflexivity|].
  split; [vm_compute; reflexivity|].
  intros (m & Hm & (p & (a & Ha & Hnz) & Hp) & _).
  assert (m = 16) as ->.
  { assert (fromkeys m !! L1 = Some 16) as H by (rewrite <- Hm; reflexivity).
    rewrite lookup_fromkeys in H. congruence. }
  destruct p.
  - vm_compute in Hp. discriminate.
  - vm_compute in Ha. congruence.
  - vm_compute in Ha. congruence.
Qed.

(** The same with limits that differ between the phases: 8 A, 10 A and
    10 A with deltas +4, 0 and 0. L1, the only phase with a non-zero
    delta, is raised to 12 A, and [update_allocation] proposes 10 A on all
    phases, the least value over the three keys of the deltas. *)
Lemma uneven_limits_flatten_over_delta_keys :
  _allocate_current 100 uneven_synced_charger
    (<[L1 := 4]> (<[L2 := 0]> {[L3 := 0]}))
  = Ok {[ "c1" := fromkeys 10 ]}
  /\ proposals (update_allocation 100 uneven_synced_charger
                  (<[L1 := 4]> (<[L2 := 0]> {[L3 := 0]})))
     = Ok {[ "c1" := fromkeys 10 ]}
  /\ distribute 100 uneven_synced_charger
       (items (<[L1 := 4]> (<[L2 := 0]> {[L3 := 0]}))) ∅
     = Ok {[ "c1" := <[L1 := 12]> (<[L2 := 10]> {[L3 := 10]}) ]}.
Proof.
  split; [vm_compute; reflexivity|].
  split; [vm_compute; reflexivity|].
  vm_compute. reflexivity.
Qed.

(** C2 at the failing input. Chargers at 22 A and 28 A on L1 and a delta of
    -25 A: [T = 50] and the exact share of the second charger is
    [-25 * 28 / 50 = -14], so the formula of the specification gives
    14 A. The code divides first: [28 / 50] is the double nearest to
    0.56, which lies above it, the product with -25 is the double just
    below -14, and its floor is -15; the charger gets 13 A. *)
Theorem proportional_cut_below_exact_share :
  _distribute_cuts 100 (two_chargers 22 32 28 32) L1 (-25) ∅
  = Ok (<[ "c1" := {[L1 := 11]} ]> {[ "c2" := {[L1 := 13]} ]})
  /\ proportional_cut (-25) 28 50 = Ok (-15)
  /\ exact_share (-25) 28 50 = -14
  /\ Z.max 0 (28 + exact_share (-25) 28 50) = 14.
Proof.
  split; [vm_compute; reflexivity|].
  split; [vm_compute; reflexivity|].
  split; reflexivity.
Qed.

(** The two-charger scenario of the specification: 10 A and 16 A with a
    delta of -4 A give 8 A and 13 A, as the exact formula does. *)
Lemma proportional_cut_scenario :
  _allocate_current 100 (two_chargers 10 32 16 32) {[L1 := -4]}
  = Ok (<[ "c1" := {[L1 := 8]} ]> {[ "c2" := {[L1 := 13]} ]})
  /\ Z.max 0 (10 + exact_share (-4) 10 26) = 8
  /\ Z.max 0 (16 + exact_share (-4) 16 26) = 13.
Proof.
  split; [vm_compute; reflexivity|]. split; reflexivity.
Qed.

(** Where the code and the exact formula agree: every delta from -24 to
    -1 A with a total of at most 64 A. The failing input above has the
    smallest delta for which they differ within that total. *)
Lemma cuts_agree_checked : cuts_agree 24 64 = true.
Proof. vm_compute. reflexivity. Qed.

Lemma proportional_cut_exact_for_small_deltas deficit current total_current :
  -24 <= deficit < 0 -> 0 <= current <= total_current ->
  1 <= total_current <= 64 ->
  proportional_cut deficit current total_current
  = Ok (exact_share deficit current total_current).
Proof.
  intros Hd Hc HT.
  exact (cuts_agree_sound 24 64 _ _ _ cuts_agree_checked Hd Hc HT).
Qed.

(** With no current to cut, [T = 0], the phase is skipped. *)
Lemma nothing_to_cut_is_skipped :
  _distribute_cuts 100 (two_chargers 0 32 0 32) L1 (-4) ∅ = Ok ∅.
Proof. vm_compute. reflexivity. Qed.

(** C3 at the failing input. Chargers at 1 A and 9 A, both requesting
    16 A, and a delta of +22 A: the potentials are 15 and 7, [P = 22], and
    the first charger's share is [22 * 15 / 22 = 15], so the formula of
    the specification raises it to 16 A. The code divides first:
    [15 / 22] rounds below the quotient, the product with 22 is the double
    just below 15, and [int] truncates it to 14; the charger gets 15 A. *)
Theorem proportional_increase_below_exact_share :
  _distribute_increases 100 (two_chargers 1 16 9 16) L1 22 ∅
  = Ok (<[ "c1" := {[L1 := 15]} ]> {[ "c2" := {[L1 := 16]} ]})
  /\ proportional_increase 22 15 22 = Ok 14
  /\ Z.min (exact_share 22 15 22) 15 = 15
  /\ 1 + Z.min (exact_share 22 15 22) 15 = 16.
Proof.
  split; [vm_compute; reflexivity|].
  split; [vm_compute; reflexivity|].
  split; reflexivity.
Qed.

(** Where the code and the exact formula agree: every delta from 1 to
    21 A with a total potential of at most 64 A. *)
Lemma increases_agree_checked : increases_agree 21 64 = true.
Proof. vm_compute. reflexivity. Qed.

Lemma proportional_increase_exact_for_small_deltas
    surplus potential total_potential :
  1 <= surplus <= 21 -> 1 <= potential <= total_potential ->
  1 <= total_potential <= 64 ->
  proportional_increase surplus potential total_potential
  = Ok (Z.min (exact_share surplus potential total_potential) potential).
Proof.
  intros Hs Hp HP.
  exact (increases_agree_sound 21 64 _ _ _ increases_agree_checked Hs Hp HP).
Qed.

(** First scenario of the specification: fuse 25 A, one charger at 16 A,
    27 A measured on L1. 2 A must be surrendered and the charger is cut to
    14 A. *)
Lemma scenario_single_phase_overcurrent :
  Coordinator.get_available_current_for_phase
    (Coordinator.mk None None 25 15) (Some 27) = Some (-2)
  /\ _allocate_current 100
       {[ "c1" := charging "c1" false {[L1 := 16]} {[L1 := 16]} ]}
       {[L1 := -2]}
     = Ok {[ "c1" := {[L1 := 14]} ]}.
Proof. split; [reflexivity|]. vm_compute. reflexivity. Qed.

(** Second scenario: a charger at 10 A requesting 16 A with 5 A available
    on each phase is raised to 15 A on each phase. *)
Lemma scenario_three_phase_recovery :
  _allocate_current 100 (one_charger false 10 16) (fromkeys 5)
  = Ok {[ "c1" := fromkeys 15 ]}.
Proof. vm_compute. reflexivity. Qed.

(** [test_single_phase_multiple_chargers_allocation]: synced chargers at
    16 A and 12 A with -10 A on L1 get 10 A and 7 A on all phases. *)
Lemma scenario_two_synced_chargers :
  _allocate_current 100
    (<[ "charger1" := charging "charger1" true (fromkeys 16) (fromkeys 16) ]>
       {[ "charger2" :=
            charging "charger2" true (fromkeys 12) (fromkeys 12) ]})
    {[L1 := -10]}
  = Ok (<[ "charger1" := fromkeys 10 ]> {[ "charger2" := fromkeys 7 ]}).
Proof. vm_compute. reflexivity. Qed.

(** [test_update_allocation_overcurrent]: a charger at 10 A with deltas
    -8, -2 and +2 is proposed 2 A on all phases. *)
Lemma scenario_update_allocation_overcurrent :
  proposals
    (update_allocation 1000
       (with_charger (mock_charger "charger1" (fromkeys 10)) ∅)
       (<[L1 := -8]> (<[L2 := -2]> {[L3 := 2]})))
  = Ok {[ "charger1" := fromkeys 2 ]}.
Proof. vm_compute. reflexivity. Qed.

(** [test_update_allocation_recovery]: a charger at 7 A, 8 A and 10 A
    requesting 16 A, with 5 A available on each phase, is proposed 12 A
    on all phases. *)
Lemma scenario_update_allocation_recovery :
  proposals
    (update_allocation 1000
       {[ "charger1" :=
            set_requested_current (Some (fromkeys 16))
              (initialize
                 (__init__
                    (mock_charger "charger1"
                       (<[L1 := 7]> (<[L2 := 8]> {[L3 := 10]}))))).2 ]}
       (fromkeys 5))
  = Ok {[ "charger1" := fromkeys 12 ]}.
Proof. vm_compute. reflexivity. Qed.

(** [test_multiple_chargers_allocation]: chargers at 10 A and 16 A with
    deltas -10, -4 and 0 are proposed 6 A and 9 A. *)
Lemma scenario_multiple_chargers :
  proposals
    (update_allocation 1000
       (with_charger (mock_charger "charger2" (fromkeys 16))
          (with_charger (mock_charger "charger1" (fromkeys 10)) ∅))
       (<[L1 := -10]> (<[L2 := -4]> {[L3 := 0]})))
  = Ok (<[ "charger1" := fromkeys 6 ]> {[ "charger2" := fromkeys 9 ]}).
Proof. vm_compute. reflexivity. Qed.

End Scenarios.


(** * Further properties *)

(** ** The allocator's registry *)

Lemma fromkeys_nonempty (v : Z) : fromkeys v <> ∅.
Proof.
  intros H. assert (fromkeys v !! L1 = None) as Hl by (by rewrite H).
  by rewrite lookup_fromkeys in Hl.
Qed.


(** ** The allocator's registry *)

Section Registry.

Import ChargerState PowerAllocator.

(** X1. Adding a charger under an identifier the allocator does not know
    registers a fresh state for it and touches no other charger; adding it
    again is refused and changes nothing; removing it gives back the
    allocator as it was, and removing a charger that is not registered is
    refused. *)
Theorem remove_charger_undoes_add_charger (c : Charger.t)
    (_chargers : gmap string ChargerState.t) :
  _chargers !! Charger.id c = None ->
  exists after,
    add_charger c _chargers = (true, after)
    /\ after !! Charger.id c = Some (ChargerState.__init__ c)
    /\ (forall other, other <> Charger.id c ->
          after !! other = _chargers !! other)
    /\ add_charger c after = (false, after)
    /\ remove_charger c after = (true, _chargers)
    /\ remove_charger c _chargers = (false, _chargers).
Proof.
  intros Hnew. unfold add_charger, remove_charger. rewrite Hnew.
  eexists. split; [reflexivity|]. rewrite lookup_insert_eq.
  split; [done|]. split.
  - intros other Hne. by rewrite lookup_insert_ne.
  - split; [done|]. split; [|done]. by rewrite delete_insert_id.
Qed.

Lemma remove_charger_undoes_add_charger_witness :
  exists after,
    add_charger (mock_charger "c1" (fromkeys 16)) ∅ = (true, after)
    /\ after !! "c1"
       = Some (ChargerState.__init__ (mock_charger "c1" (fromkeys 16)))
    /\ (forall other, other <> "c1" ->
          after !! other = (∅ : gmap string ChargerState.t) !! other)
    /\ add_charger (mock_charger "c1" (fromkeys 16)) after = (false, after)
    /\ remove_charger (mock_charger "c1" (fromkeys 16)) after = (true, ∅)
    /\ remove_charger (mock_charger "c1" (fromkeys 16)) ∅ = (false, ∅).
Proof.
  apply (remove_charger_undoes_add_charger
           (mock_charger "c1" (fromkeys 16)) ∅).
  reflexivity.
Defined.

(** X2. [add_charger_and_initialize] never raises. It answers [True]
    exactly when the identifier is new and the adapter reports a non-empty
    current limit. When the identifier is new and the limit cannot be
    read it answers [False] and the charger is registered all the same,
    with the state [ChargerState(charger)]; when the identifier is known
    the allocator is left as it was. *)
Theorem add_charger_and_initialize_registers_uninitialized (c : Charger.t)
    (_chargers : gmap string ChargerState.t) :
  exists ok after,
    add_charger_and_initialize c _chargers = Ok (ok, after)
    /\ (ok = true <->
        _chargers !! Charger.id c = None
        /\ truthy (Charger.get_current_limit c) = true)
    /\ (is_Some (_chargers !! Charger.id c) -> after = _chargers)
    /\ (_chargers !! Charger.id c = None ->
        exists state,
          after = <[Charger.id c := state]> _chargers
          /\ charger state = c
          /\ initialized state = ok
          /\ (ok = false -> state = ChargerState.__init__ c)).
Proof.
  unfold add_charger_and_initialize, add_charger.
  destruct (_chargers !! Charger.id c) as [existing|] eqn:Hlookup.
  - exists false, _chargers. split; [done|]. split.
    + split; [done|]. by intros [? _].
    + split; [done|]. done.
  - unfold getitem. rewrite lookup_insert_eq. simpl.
    unfold initialize. simpl.
    destruct (truthy (Charger.get_current_limit c)) eqn:Hlimit.
    + eexists true, _. split; [reflexivity|]. split; [done|].
      split; [by intros [? ?]|]. intros _. eexists. rewrite insert_insert_eq.
      split; [reflexivity|]. done.
    + eexists false, _. split; [reflexivity|]. split.
      * split; [done|]. by intros [_ ?].
      * split; [by intros [? ?]|]. intros _. eexists.
        rewrite insert_insert_eq. split; [reflexivity|]. done.
Qed.

(** X3. [initialize] answers whether the state is initialized afterwards;
    calling it again changes nothing and gives the same answer. A failed
    call and a call on an initialized state leave the state as it was. A
    first successful call copies the adapter's non-empty current limit
    into [requested_current] and [last_applied_current] and sets
    [_active_session] to what [can_charge] reports. *)
Theorem initialize_is_idempotent (self : ChargerState.t) :
  initialized (initialize self).2 = (initialize self).1
  /\ initialize (initialize self).2 = initialize self
  /\ ((initialize self).1 = false -> (initialize self).2 = self)
  /\ (initialized self = true -> (initialize self).2 = self)
  /\ (initialized self = false -> (initialize self).1 = true ->
      truthy (Charger.get_current_limit (charger self)) = true
      /\ requested_current (initialize self).2
         = Charger.get_current_limit (charger self)
      /\ last_applied_current (initialize self).2
         = Charger.get_current_limit (charger self)
      /\ _active_session (initialize self).2
         = Charger.can_charge (charger self)).
Proof.
  unfold initialize.
  destruct (initialized self) eqn:Hinit; simpl.
  - rewrite Hinit. done.
  - destruct (truthy (Charger.get_current_limit (charger self))) eqn:Hlimit;
      simpl.
    + done.
    + rewrite Hinit, Hlimit. done.
Qed.

(** [should_monitor], in terms of the registered chargers. *)
Lemma should_monitor_true (_chargers : gmap string ChargerState.t) :
  should_monitor _chargers = true <->
  exists charger_id state,
    _chargers !! charger_id = Some state
    /\ Charger.can_charge (charger state) = true.
Proof.
  unfold should_monitor. rewrite bool_decide_eq_true. split.
  - intros Hne. apply map_choose in Hne as (charger_id & state & Hin).
    exists charger_id, state. unfold _active_chargers in Hin.
    by apply map_lookup_filter_Some in Hin.
  - intros (charger_id & state & Hstate & Hcan) Hempty.
    assert (_active_chargers _chargers !! charger_id = Some state) as Hin.
    { unfold _active_chargers. by apply map_lookup_filter_Some. }
    rewrite Hempty in Hin. by rewrite lookup_empty in Hin.
Qed.

(** X4. [should_monitor] holds exactly when some registered charger can
    charge; the coordinator reports [monitoring_loads] in that case, and
    [awaiting_charger] exactly when no registered charger can charge. *)
Theorem should_monitor_iff_some_charger_can_charge
    (_chargers : gmap string ChargerState.t) :
  (should_monitor _chargers = true <->
   exists charger_id state,
     _chargers !! charger_id = Some state
     /\ Charger.can_charge (charger state) = true)
  /\ (Coordinator.get_load_balancing_state _chargers = "monitoring_loads" <->
      exists charger_id state,
        _chargers !! charger_id = Some state
        /\ Charger.can_charge (charger state) = true)
  /\ (Coordinator.get_load_balancing_state _chargers = "awaiting_charger" <->
      forall charger_id state,
        _chargers !! charger_id = Some state ->
        Charger.can_charge (charger state) = false).
Proof.
  pose proof (should_monitor_true _chargers) as Hmonitor.
  split; [done|].
  unfold Coordinator.get_load_balancing_state,
    Coordinator._should_check_charger.
  destruct (should_monitor _chargers) eqn:Hm.
  - pose proof (proj1 Hmonitor eq_refl) as Hex.
    split; [done|]. split; [done|].
    intros Hidle. destruct Hex as (cid & state & Hstate & Hcan).
    rewrite (Hidle cid state Hstate) in Hcan. done.
  - split.
    + split; [done|]. intros Hex. apply Hmonitor in Hex. done.
    + split; [|done]. intros _ cid state Hstate.
      destruct (Charger.can_charge (charger state)) eqn:Hcan; [|done].
      assert (false = true); [|done].
      apply Hmonitor. by exists cid, state.
Qed.

End Registry.

(** ** ChargerState: sessions and the settle window *)

Section ManualOverride.

Import ChargerState PowerAllocator.

Lemma override_test_after_override (reading : gmap Phase Z) (self : t) b :
  override_test reading self = Ok true ->
  override_test reading
    (set_active_session b
       (set_manual_override_detected true
          (set_requested_current (Some reading) self))) = Ok false.
Proof.
  unfold override_test. simpl.
  destruct (last_applied_current self) as [l|]; [|done].
  case_bool_decide as Hnonempty; [|done]. intros H. bind_inv H.
  rewrite Hx. simpl. rewrite bool_decide_eq_false_2 by (intros ?; congruence).
  by rewrite andb_false_r.
Qed.

(** X5. Outside the start of a session (the car cannot charge, or the
    session is already marked active) a second call of
    [detect_manual_override] at the same time and with the same adapter
    readings changes nothing: the state the first call leaves is a fixed
    point. *)
Theorem detect_manual_override_is_idempotent_in_a_session
    (now : Z) (self self' : t) :
  Charger.can_charge (charger self) = false \/ _active_session self = true ->
  detect_manual_override now self = Ok self' ->
  detect_manual_override now self' = Ok self'.
Proof.
  intros Hsession. unfold detect_manual_override.
  assert (Charger.can_charge (charger self) && negb (_active_session self)
          = false) as Hbranch.
  { destruct Hsession as [-> | ->]; simpl; [done|apply andb_false_r]. }
  rewrite Hbranch.
  destruct (get_current_limit now self) as [reading|] eqn:Hreading.
  2:{ intros [= <-]. by rewrite Hreading. }
  case_bool_decide as Hnonempty.
  2:{ intros [= <-]. rewrite Hreading. by case_bool_decide. }
  destruct (override_test reading self) as [[|]|e] eqn:Htest;
    [| |discriminate].
  - intros [= <-].
    replace (get_current_limit now _) with (Some reading) by done.
    rewrite bool_decide_eq_true_2 by done. simpl.
    rewrite andb_negb_r.
    rewrite (override_test_after_override _ _ _ Htest). simpl. done.
  - intros [= <-].
    replace (get_current_limit now _) with (Some reading) by done.
    rewrite bool_decide_eq_true_2 by done. simpl.
    rewrite andb_negb_r.
    replace (override_test reading _) with (override_test reading self)
      by done.
    rewrite Htest. simpl. by destruct self.
Qed.

Lemma detect_manual_override_is_idempotent_in_a_session_witness :
  detect_manual_override 100 (after_detect 100 (slow_charger 30))
  = Ok (after_detect 100 (slow_charger 30)).
Proof.
  apply (detect_manual_override_is_idempotent_in_a_session 100
           (slow_charger 30)).
  - right. reflexivity.
  - vm_compute. reflexivity.
Defined.

(** The fields [detect_manual_override] keeps and those it writes. *)
Lemma detect_manual_override_fields (now : Z) (self self' : t) :
  detect_manual_override now self = Ok self' ->
  charger self' = charger self
  /\ last_calculated_current self' = last_calculated_current self
  /\ last_applied_current self' = last_applied_current self
  /\ last_update_time self' = last_update_time self
  /\ initialized self' = initialized self
  /\ get_current_limit now self' = get_current_limit now self
  /\ (manual_override_detected self = true ->
      manual_override_detected self' = true)
  /\ (truthy (get_current_limit now self) = true ->
      _active_session self' = Charger.can_charge (charger self))
  /\ (truthy (get_current_limit now self) = false -> self' = self).
Proof.
  unfold detect_manual_override.
  destruct (get_current_limit now self) as [reading|] eqn:Hreading.
  2:{ intros [= <-]. by rewrite Hreading. }
  simpl. case_bool_decide as Hnonempty.
  2:{ intros [= <-]. by rewrite Hreading. }
  intros H. bind_inv H. injection H as <-.
  assert (exists r m a,
            x = set_active_session a
                  (set_manual_override_detected m
                     (set_requested_current r self))
            /\ (manual_override_detected self = true -> m = true))
    as (r & m & a & -> & Hm).
  { destruct (Charger.can_charge (charger self)
              && negb (_active_session self)).
    - destruct (truthy (Charger.get_max_current_limit (charger self)));
        injection Hx as <-.
      + by exists (Charger.get_max_current_limit (charger self)),
          (manual_override_detected self), true.
      + exists (requested_current self), (manual_override_detected self),
          (_active_session self). by destruct self.
    - bind_inv Hx. destruct x0; injection Hx as <-.
      + by exists (Some reading), true, (_active_session self).
      + exists (requested_current self), (manual_override_detected self),
          (_active_session self). by destruct self. }
  simpl. repeat (split; [done|]). intros Hf. discriminate Hf.
Qed.

(** X6. [detect_manual_override] writes only [requested_current],
    [manual_override_detected] and [_active_session]: the adapter, the
    calculated and the applied current, the time of the last write and
    [initialized] are kept, and so is what [get_current_limit] reads. It
    never clears [manual_override_detected]. With a non-empty reading
    [_active_session] ends as [can_charge()]; with no reading, or an empty
    one, the state is left as it was, [_active_session] included. *)
Theorem detect_manual_override_writes_three_fields (now : Z) (self self' : t) :
  detect_manual_override now self = Ok self' ->
  charger self' = charger self
  /\ last_calculated_current self' = last_calculated_current self
  /\ last_applied_current self' = last_applied_current self
  /\ last_update_time self' = last_update_time self
  /\ initialized self' = initialized self
  /\ get_current_limit now self' = get_current_limit now self
  /\ (manual_override_detected self = true ->
      manual_override_detected self' = true)
  /\ (truthy (get_current_limit now self) = true ->
      _active_session self' = Charger.can_charge (charger self))
  /\ (truthy (get_current_limit now self) = false -> self' = self).
Proof. apply detect_manual_override_fields. Qed.

Lemma detect_manual_override_writes_three_fields_witness :
  charger (after_detect 100 (slow_charger 30)) = charger (slow_charger 30)
  /\ last_calculated_current (after_detect 100 (slow_charger 30))
     = last_calculated_current (slow_charger 30)
  /\ last_applied_current (after_detect 100 (slow_charger 30))
     = last_applied_current (slow_charger 30)
  /\ last_update_time (after_detect 100 (slow_charger 30))
     = last_update_time (slow_charger 30)
  /\ initialized (after_detect 100 (slow_charger 30))
     = initialized (slow_charger 30)
  /\ get_current_limit 100 (after_detect 100 (slow_charger 30))
     = get_current_limit 100 (slow_charger 30)
  /\ (manual_override_detected (slow_charger 30) = true ->
      manual_override_detected (after_detect 100 (slow_charger 30)) = true)
  /\ (truthy (get_current_limit 100 (slow_charger 30)) = true ->
      _active_session (after_detect 100 (slow_charger 30))
      = Charger.can_charge (charger (slow_charger 30)))
  /\ (truthy (get_current_limit 100 (slow_charger 30)) = false ->
      after_detect 100 (slow_charger 30) = slow_charger 30).
Proof.
  apply (detect_manual_override_writes_three_fields 100 (slow_charger 30)).
  vm_compute. reflexivity.
Defined.

(** X7. At the start of a session (the car can charge, no session is
    marked active, the reading is not empty) with a known, non-empty
    maximum, [requested_current] becomes the adapter's maximum and the
    session is marked active; the override test is not evaluated, so
    [manual_override_detected] keeps its value. *)
Theorem session_start_requests_the_maximum (now : Z) (self : t)
    (max_limits : gmap Phase Z) :
  Charger.can_charge (charger self) = true ->
  _active_session self = false ->
  truthy (get_current_limit now self) = true ->
  Charger.get_max_current_limit (charger self) = Some max_limits ->
  max_limits <> ∅ ->
  exists self',
    detect_manual_override now self = Ok self'
    /\ requested_current self' = Some max_limits
    /\ manual_override_detected self' = manual_override_detected self
    /\ _active_session self' = true.
Proof.
  intros Hcan Hsession Hreading Hmax Hnonempty.
  unfold detect_manual_override.
  destruct (get_current_limit now self) as [reading|]; [|done].
  simpl in Hreading. rewrite Hreading, Hcan, Hsession, Hmax. simpl.
  rewrite bool_decide_eq_true_2 by done. simpl.
  eexists. split; [reflexivity|]. done.
Qed.

End ManualOverride.

Section SettleWindow.

Import ChargerState PowerAllocator.

Lemma session_start_requests_the_maximum_witness :
  exists self',
    detect_manual_override 100
      (set_charger (new_session (Some (fromkeys 32))) before_session)
    = Ok self'
    /\ requested_current self' = Some (fromkeys 32)
    /\ manual_override_detected self'
       = manual_override_detected
           (set_charger (new_session (Some (fromkeys 32))) before_session)
    /\ _active_session self' = true.
Proof.
  apply (session_start_requests_the_maximum 100
           (set_charger (new_session (Some (fromkeys 32))) before_session)
           (fromkeys 32)).
  - reflexivity.
  - reflexivity.
  - vm_compute. reflexivity.
  - reflexivity.
  - apply fromkeys_nonempty.
Defined.

(** X8. After [update_applied_current], while the settle time of the
    charger has not elapsed since [timestamp], the allocator reads the
    applied current as the charger's limit whatever the adapter reports,
    and [requested_current] is untouched; outside the start of a session
    [detect_manual_override] then flags no override and leaves
    [requested_current] as it was. *)
Theorem applied_current_is_read_back_while_settling
    (_chargers : gmap string ChargerState.t) (charger_id : string)
    (state : ChargerState.t) (applied_current : gmap Phase Z)
    (timestamp now : Z) :
  _chargers !! charger_id = Some state ->
  now - timestamp < Charger.current_change_settle_time (charger state) ->
  exists state',
    (update_applied_current _chargers charger_id applied_current timestamp).2
    = Ok (<[charger_id := state']> _chargers)
    /\ get_current_limit now state' = Some applied_current
    /\ requested_current state' = requested_current state
    /\ (Charger.can_charge (charger state) = false
        \/ _active_session state = true ->
        exists state'',
          detect_manual_override now state' = Ok state''
          /\ requested_current state'' = requested_current state
          /\ manual_override_detected state''
             = manual_override_detected state).
Proof.
  intros Hstate Hsettle. unfold update_applied_current, getitem.
  rewrite Hstate. simpl. eexists. split; [reflexivity|].
  assert (get_current_limit now
            (set_last_update_time timestamp
               (set_last_applied_current (Some applied_current) state))
          = Some applied_current) as Hread.
  { unfold get_current_limit. simpl. by rewrite bool_decide_eq_true_2. }
  split; [exact Hread|]. split; [done|].
  intros Hsession. unfold detect_manual_override. rewrite Hread.
  case_bool_decide as Hnonempty; [|by eexists].
  assert (Charger.can_charge (charger state) && negb (_active_session state)
          = false) as Hbranch.
  { destruct Hsession as [-> | ->]; simpl; [done|apply andb_false_r]. }
  simpl. rewrite Hbranch. unfold override_test. simpl.
  rewrite bool_decide_eq_true_2 by done.
  rewrite differs_from_same. simpl. by eexists.
Qed.

Lemma applied_current_is_read_back_while_settling_witness :
  exists state',
    (update_applied_current (one_charger true 16 32) "c1" (fromkeys 10)
       100).2
    = Ok (<["c1" := state']> (one_charger true 16 32))
    /\ get_current_limit 102 state' = Some (fromkeys 10)
    /\ requested_current state'
       = requested_current (charging "c1" true (fromkeys 16) (fromkeys 32))
    /\ (Charger.can_charge
          (charger (charging "c1" true (fromkeys 16) (fromkeys 32))) = false
        \/ _active_session (charging "c1" true (fromkeys 16) (fromkeys 32))
           = true ->
        exists state'',
          detect_manual_override 102 state' = Ok state''
          /\ requested_current state''
             = requested_current
                 (charging "c1" true (fromkeys 16) (fromkeys 32))
          /\ manual_override_detected state''
             = manual_override_detected
                 (charging "c1" true (fromkeys 16) (fromkeys 32))).
Proof.
  apply (applied_current_is_read_back_while_settling
           (one_charger true 16 32) "c1"
           (charging "c1" true (fromkeys 16) (fromkeys 32))
           (fromkeys 10) 100 102).
  - reflexivity.
  - simpl. lia.
Defined.

End SettleWindow.

(** ** PowerAllocator.update_allocation: proposals and records *)

Section UpdateAllocation.

Import ChargerState PowerAllocator.

(** The first loop of [update_allocation] on one state: the adapter, the
    time of the last write and [last_calculated_current] are kept, and so
    is the applied current of a charger that was initialized. *)
Lemma prepare_fields (now : Z) (state state' : t) :
  prepare now state = Ok state' ->
  charger state' = charger state
  /\ last_calculated_current state' = last_calculated_current state
  /\ last_update_time state' = last_update_time state
  /\ (initialized state = true ->
      last_applied_current state' = last_applied_current state
      /\ initialized state' = true).
Proof.
  unfold prepare. destruct (initialized state) eqn:Hinit.
  - intros H. apply detect_manual_override_fields in H
      as (? & ? & ? & ? & ? & _). split; [done|]. split; [done|].
    split; [done|]. intros _. split; [done|congruence].
  - unfold initialize. rewrite Hinit.
    destruct (truthy (Charger.get_current_limit (charger state))).
    + intros H. apply detect_manual_override_fields in H
        as (? & ? & ? & ? & ? & _). done.
    + by intros [= <-].
Qed.

Lemma prepare_all_lookup now states (m m' : gmap string ChargerState.t) :
  NoDup states.*1 ->
  prepare_all now states m = Ok m' ->
  forall charger_id,
    (charger_id ∉ states.*1 -> m' !! charger_id = m !! charger_id)
    /\ (forall state,
          (charger_id, state) ∈ states ->
          exists state',
            prepare now state = Ok state'
            /\ m' !! charger_id = Some state').
Proof.
  revert m.
  induction states as [|[cid st] rest IH]; intros m Hnd Hp charger_id;
    simpl in Hp.
  - injection Hp as <-. split; [done|].
    intros s Hin. by apply elem_of_nil in Hin.
  - bind_inv Hp. rewrite fmap_cons in Hnd.
    apply NoDup_cons in Hnd as [Hfresh Hnd]. simpl in Hfresh.
    destruct (IH _ Hnd Hp charger_id) as [IHout IHin]. split.
    + intros Hnotin. rewrite fmap_cons in Hnotin.
      apply not_elem_of_cons in Hnotin as [Hne Hnotin]. simpl in Hne.
      rewrite IHout by done. by rewrite lookup_insert_ne.
    + intros s Hin. apply elem_of_cons in Hin as [Heq|Hin].
      * injection Heq as -> ->. exists x. split; [done|].
        destruct (IH _ Hnd Hp cid) as [IHout' _].
        rewrite IHout' by done. by rewrite lookup_insert_eq.
      * by apply IHin.
Qed.

(** The first loop of [update_allocation], charger by charger. *)
Lemma prepare_all_states now (_chargers prepared : gmap string ChargerState.t) :
  prepare_all now (map_to_list _chargers) _chargers = Ok prepared ->
  forall charger_id,
    match _chargers !! charger_id with
    | Some state =>
        exists state', prepare now state = Ok state'
                       /\ prepared !! charger_id = Some state'
    | None => prepared !! charger_id = None
    end.
Proof.
  intros Hp charger_id.
  destruct (prepare_all_lookup _ _ _ _ (NoDup_fst_map_to_list _chargers) Hp
              charger_id) as [Hout Hin].
  destruct (_chargers !! charger_id) as [state|] eqn:Hstate.
  - apply Hin. by apply elem_of_map_to_list.
  - rewrite Hout; [done|].
    intros Hel. apply list_elem_of_fmap in Hel as ([c s] & -> & Hel).
    apply elem_of_map_to_list in Hel. simpl in Hstate. congruence.
Qed.

Lemma has_changes_Ok_true synced (current_setting new_limits : gmap Phase Z) :
  has_changes synced current_setting new_limits = Ok true ->
  is_a_change synced current_setting new_limits.
Proof.
  unfold has_changes, is_a_change. destruct synced.
  - intros H. bind_inv H. bind_inv H. injection H as H.
    apply bool_decide_eq_true_1 in H.
    case_bool_decide as Hnonempty.
    + by exists x, x0.
    + injection Hx0 as <-. done.
  - intros H. apply any_of_Ok_true in H as (p & v & Hin & Hf).
    apply elem_of_items in Hin. bind_inv Hf. apply getitem_Ok in Hx.
    injection Hf as Hf. apply bool_decide_eq_true_1 in Hf. eauto 6.
Qed.

(** The last loop of [update_allocation], charger by charger. *)
Lemma collect_updates_lookup now allocated
    (m m' : gmap string ChargerState.t) result res :
  NoDup allocated.*1 ->
  collect_updates now allocated m result = Ok (res, m') ->
  forall charger_id,
    (charger_id ∉ allocated.*1 ->
     res !! charger_id = result !! charger_id
     /\ m' !! charger_id = m !! charger_id)
    /\ (forall new_limits,
          (charger_id, new_limits) ∈ allocated ->
          exists state,
            m !! charger_id = Some state
            /\ ((exists current_setting,
                   get_current_limit now state = Some current_setting
                   /\ current_setting <> ∅
                   /\ has_changes
                        (Charger.has_synced_phase_limits (charger state))
                        current_setting new_limits = Ok true
                   /\ res !! charger_id = Some new_limits
                   /\ m' !! charger_id
                      = Some (set_manual_override_detected false
                                (set_last_calculated_current
                                   (Some new_limits) state)))
                \/ (res !! charger_id = result !! charger_id
                    /\ m' !! charger_id = Some state))).
Proof.
  revert m result.
  induction allocated as [|[cid d] rest IH];
    intros m result Hnd Hc charger_id; simpl in Hc.
  - injection Hc as <- <-. split; [done|].
    intros s Hin. by apply elem_of_nil in Hin.
  - bind_inv Hc. apply getitem_Ok in Hx. rename x into state.
    rewrite fmap_cons in Hnd. apply NoDup_cons in Hnd as [Hfresh Hnd].
    simpl in Hfresh.
    assert (Hskip :
      collect_updates now rest m result = Ok (res, m') ->
      (charger_id ∉ ((cid, d) :: rest).*1 ->
       res !! charger_id = result !! charger_id
       /\ m' !! charger_id = m !! charger_id)
      /\ (forall new_limits,
            (charger_id, new_limits) ∈ (cid, d) :: rest ->
            exists state0,
              m !! charger_id = Some state0
              /\ ((exists current_setting,
                     get_current_limit now state0 = Some current_setting
                     /\ current_setting <> ∅
                     /\ has_changes
                          (Charger.has_synced_phase_limits (charger state0))
                          current_setting new_limits = Ok true
                     /\ res !! charger_id = Some new_limits
                     /\ m' !! charger_id
                        = Some (set_manual_override_detected false
                                  (set_last_calculated_current
                                     (Some new_limits) state0)))
                  \/ (res !! charger_id = result !! charger_id
                      /\ m' !! charger_id = Some state0)))).
    { intros Hrest. destruct (IH _ _ Hnd Hrest charger_id) as [IHout IHin].
      split.
      - intros Hnotin. rewrite fmap_cons in Hnotin.
        apply not_elem_of_cons in Hnotin as [_ Hnotin]. by apply IHout.
      - intros new_limits Hin. apply elem_of_cons in Hin as [Heq|Hin].
        + injection Heq as -> ->. exists state. split; [done|]. right.
          destruct (IH _ _ Hnd Hrest cid) as [IHout' _].
          destruct (IHout' Hfresh) as [-> ->]. done.
        + by apply IHin. }
    destruct (get_current_limit now state) as [cs|] eqn:Hlimit;
      [|by apply Hskip].
    case_bool_decide as Hnonempty; [|by apply Hskip].
    bind_inv Hc. destruct x; [|by apply Hskip].
    destruct (IH _ _ Hnd Hc charger_id) as [IHout IHin]. split.
    + intros Hnotin. rewrite fmap_cons in Hnotin.
      apply not_elem_of_cons in Hnotin as [Hne Hnotin]. simpl in Hne.
      destruct (IHout Hnotin) as [-> ->].
      by rewrite !lookup_insert_ne by done.
    + intros new_limits Hin. apply elem_of_cons in Hin as [Heq|Hin].
      * injection Heq as -> ->. exists state. split; [done|]. left.
        exists cs. repeat (split; [done|]).
        destruct (IH _ _ Hnd Hc cid) as [IHout' _].
        destruct (IHout' Hfresh) as [-> ->].
        by rewrite !lookup_insert_eq.
      * assert (charger_id <> cid) as Hne.
        { intros ->. apply Hfresh. apply list_elem_of_fmap.
          by exists (cid, new_limits). }
        destruct (IHin new_limits Hin) as (state0 & Hstate0 & Hcase).
        rewrite lookup_insert_ne in Hstate0 by done.
        exists state0. split; [done|].
        destruct Hcase as [Hcase|[Hres Hm]]; [by left|right].
        by rewrite lookup_insert_ne in Hres by done.
Qed.

(** The three steps of [update_allocation] when some charger can
    charge. *)
Lemma update_allocation_steps now (_chargers : gmap string ChargerState.t)
    available_currents res _chargers' :
  update_allocation now _chargers available_currents = Ok (res, _chargers') ->
  (_active_chargers _chargers = ∅ /\ res = ∅ /\ _chargers' = _chargers)
  \/ (exists prepared allocated,
        prepare_all now (map_to_list _chargers) _chargers = Ok prepared
        /\ _allocate_current now prepared available_currents = Ok allocated
        /\ collect_updates now (map_to_list allocated) prepared ∅
           = Ok (res, _chargers')).
Proof.
  unfold update_allocation. intros Hu. case_bool_decide as Hactive.
  - injection Hu as <- <-. by left.
  - bind_inv Hu. bind_inv Hu. right. by exists x, x0.
Qed.

Lemma allocated_can_charge now (_chargers : gmap string ChargerState.t)
    available_currents allocated charger_id d :
  _allocate_current now _chargers available_currents = Ok allocated ->
  allocated !! charger_id = Some d ->
  exists state,
    _chargers !! charger_id = Some state
    /\ Charger.can_charge (charger state) = true.
Proof.
  unfold _allocate_current. intros Halloc Hd. bind_inv Halloc.
  destruct (flatten_result _ _ _ _ _ _ Halloc Hd)
    as (state & cc & ? & ? & _). by exists state.
Qed.

(** A proposal of [update_allocation]: the charger can charge, the
    proposal is recorded in its state and differs from what the allocator
    reads as its current limit. *)
Lemma update_allocation_proposal
    (now : Z) (_chargers : gmap string ChargerState.t)
    (available_currents : gmap Phase Z)
    (res : gmap string (gmap Phase Z))
    (_chargers' : gmap string ChargerState.t)
    (charger_id : string) (new_limits : gmap Phase Z) :
  update_allocation now _chargers available_currents = Ok (res, _chargers') ->
  res !! charger_id = Some new_limits ->
  exists state state' current_setting,
    _chargers !! charger_id = Some state
    /\ Charger.can_charge (charger state) = true
    /\ _chargers' !! charger_id = Some state'
    /\ charger state' = charger state
    /\ last_calculated_current state' = Some new_limits
    /\ manual_override_detected state' = false
    /\ get_current_limit now state' = Some current_setting
    /\ current_setting <> ∅
    /\ is_a_change (Charger.has_synced_phase_limits (charger state))
         current_setting new_limits.
Proof.
  intros Hu Hres.
  apply update_allocation_steps in Hu
    as [(_ & -> & _)|(prepared & allocated & Hprep & Halloc & Hcollect)].
  { by rewrite lookup_empty in Hres. }
  destruct (collect_updates_lookup _ _ _ _ _ _
              (NoDup_fst_map_to_list allocated) Hcollect charger_id)
    as [Hout Hin].
  destruct (allocated !! charger_id) as [d|] eqn:Hd.
  2:{ destruct Hout as [Hout _].
      - intros Hel. apply list_elem_of_fmap in Hel as ([c s] & -> & Hel).
        apply elem_of_map_to_list in Hel. simpl in Hd. congruence.
      - rewrite Hout in Hres. by rewrite lookup_empty in Hres. }
  destruct (Hin d) as (pstate & Hpstate & Hcase).
  { by apply elem_of_map_to_list. }
  destruct Hcase as [(cs & Hlimit & Hne & Hch & Hres' & Hafter)|[Hres' _]].
  2:{ rewrite Hres' in Hres. by rewrite lookup_empty in Hres. }
  assert (d = new_limits) as -> by congruence.
  destruct (allocated_can_charge _ _ _ _ _ _ Halloc Hd)
    as (pstate' & Hpstate' & Hcan).
  assert (pstate' = pstate) as -> by congruence.
  pose proof (prepare_all_states _ _ _ Hprep charger_id) as Hprepared.
  destruct (_chargers !! charger_id) as [state|] eqn:Hstate;
    [|congruence].
  destruct Hprepared as (state' & Hprepare & Hlookup).
  assert (state' = pstate) as -> by congruence.
  apply prepare_fields in Hprepare as (Hcharger & _).
  exists state, (set_manual_override_detected false
                   (set_last_calculated_current (Some new_limits) pstate)), cs.
  split; [done|]. rewrite <- Hcharger.
  split; [done|]. split; [exact Hafter|]. simpl.
  repeat (split; [done|]). by apply has_changes_Ok_true.
Qed.

(** X9. Every proposal of [update_allocation] is for a registered charger
    that can charge. It is recorded as [last_calculated_current] of that
    charger, whose [manual_override_detected] is cleared. And it is a
    change: the allocator reads a non-empty current limit for the charger
    and the proposal differs from it, on some phase for a charger with
    independent phases, in the least value for a charger with synced
    phases. *)
Theorem a_proposal_changes_a_charger_that_can_charge
    (now : Z) (_chargers : gmap string ChargerState.t)
    (available_currents : gmap Phase Z)
    (res : gmap string (gmap Phase Z))
    (_chargers' : gmap string ChargerState.t)
    (charger_id : string) (new_limits : gmap Phase Z) :
  update_allocation now _chargers available_currents = Ok (res, _chargers') ->
  res !! charger_id = Some new_limits ->
  exists state state' current_setting,
    _chargers !! charger_id = Some state
    /\ Charger.can_charge (charger state) = true
    /\ _chargers' !! charger_id = Some state'
    /\ charger state' = charger state
    /\ last_calculated_current state' = Some new_limits
    /\ manual_override_detected state' = false
    /\ get_current_limit now state' = Some current_setting
    /\ current_setting <> ∅
    /\ is_a_change (Charger.has_synced_phase_limits (charger state))
         current_setting new_limits.
Proof. apply update_allocation_proposal. Qed.

Lemma a_proposal_changes_a_charger_that_can_charge_witness :
  exists state state' current_setting,
    one_charger true 16 32 !! "c1" = Some state
    /\ Charger.can_charge (charger state) = true
    /\ chargers_after
         (update_allocation 100 (one_charger true 16 32) (fromkeys (-2)))
       !! "c1" = Some state'
    /\ charger state' = charger state
    /\ last_calculated_current state' = Some (fromkeys 14)
    /\ manual_override_detected state' = false
    /\ get_current_limit 100 state' = Some current_setting
    /\ current_setting <> ∅
    /\ is_a_change (Charger.has_synced_phase_limits (charger state))
         current_setting (fromkeys 14).
Proof.
  apply (a_proposal_changes_a_charger_that_can_charge 100
           (one_charger true 16 32) (fromkeys (-2))
           (proposed
              (update_allocation 100 (one_charger true 16 32)
                 (fromkeys (-2))))).
  - vm_compute. reflexivity.
  - vm_compute. reflexivity.
Defined.

(** X10. [update_allocation] keeps the registered chargers, their
    adapters and the time of their last write. It never changes
    [last_applied_current] of an initialized charger, and a charger that
    gets no proposal keeps its [last_calculated_current]. An identifier
    that is not registered gets no proposal and stays unregistered. *)
Theorem update_allocation_keeps_the_applied_record
    (now : Z) (_chargers : gmap string ChargerState.t)
    (available_currents : gmap Phase Z)
    (res : gmap string (gmap Phase Z))
    (_chargers' : gmap string ChargerState.t) :
  update_allocation now _chargers available_currents = Ok (res, _chargers') ->
  forall charger_id,
    match _chargers !! charger_id with
    | None => _chargers' !! charger_id = None /\ res !! charger_id = None
    | Some state =>
        exists state',
          _chargers' !! charger_id = Some state'
          /\ charger state' = charger state
          /\ last_update_time state' = last_update_time state
          /\ (initialized state = true ->
              last_applied_current state' = last_applied_current state)
          /\ (res !! charger_id = None ->
              last_calculated_current state'
              = last_calculated_current state)
    end.
Proof.
  intros Hu charger_id.
  apply update_allocation_steps in Hu
    as [(_ & -> & ->)|(prepared & allocated & Hprep & Halloc & Hcollect)].
  { destruct (_chargers !! charger_id) as [state|]; [by exists state|].
    by rewrite lookup_empty. }
  pose proof (prepare_all_states _ _ _ Hprep charger_id) as Hprepared.
  destruct (collect_updates_lookup _ _ _ _ _ _
              (NoDup_fst_map_to_list allocated) Hcollect charger_id)
    as [Hout Hin].
  assert (Hnone : allocated !! charger_id = None ->
            res !! charger_id = None
            /\ _chargers' !! charger_id = prepared !! charger_id).
  { intros Hd. destruct Hout as [Hres Hm].
    - intros Hel. apply list_elem_of_fmap in Hel as ([c s] & -> & Hel).
      apply elem_of_map_to_list in Hel. simpl in Hd. congruence.
    - by rewrite Hres, lookup_empty. }
  destruct (_chargers !! charger_id) as [state|] eqn:Hstate.
  - destruct Hprepared as (pstate & Hprepare & Hlookup).
    apply prepare_fields in Hprepare as (Hcharger & Hcalc & Htime & Happlied).
    destruct (allocated !! charger_id) as [d|] eqn:Hd.
    + destruct (Hin d) as (pstate' & Hpstate' & Hcase).
      { by apply elem_of_map_to_list. }
      assert (pstate' = pstate) as -> by congruence.
      destruct Hcase as [(cs & _ & _ & _ & Hres & Hafter)|[Hres Hafter]].
      * eexists. split; [exact Hafter|]. simpl.
        split; [done|]. split; [done|]. split; [by intros ?; apply Happlied|].
        intros Hnone'. congruence.
      * exists pstate. split; [done|]. split; [done|]. split; [done|].
        split; [by intros ?; apply Happlied|done].
    + destruct (Hnone eq_refl) as [Hres Hm]. exists pstate.
      split; [congruence|]. split; [done|]. split; [done|].
      split; [by intros ?; apply Happlied|done].
  - destruct (allocated !! charger_id) as [d|] eqn:Hd.
    + destruct (allocated_can_charge _ _ _ _ _ _ Halloc Hd)
        as (pstate & Hpstate & _). congruence.
    + destruct (Hnone eq_refl) as [Hres Hm]. split; congruence.
Qed.

Lemma update_allocation_keeps_the_applied_record_witness :
  exists state',
    chargers_after
      (update_allocation 100 (one_charger true 16 32) (fromkeys (-2)))
    !! "c1" = Some state'
    /\ charger state'
       = charger (charging "c1" true (fromkeys 16) (fromkeys 32))
    /\ last_update_time state'
       = last_update_time (charging "c1" true (fromkeys 16) (fromkeys 32))
    /\ (initialized (charging "c1" true (fromkeys 16) (fromkeys 32)) = true ->
        last_applied_current state'
        = last_applied_current
            (charging "c1" true (fromkeys 16) (fromkeys 32)))
    /\ (proposed
          (update_allocation 100 (one_charger true 16 32) (fromkeys (-2)))
        !! "c1" = None ->
        last_calculated_current state'
        = last_calculated_current
            (charging "c1" true (fromkeys 16) (fromkeys 32))).
Proof.
  refine (update_allocation_keeps_the_applied_record 100
            (one_charger true 16 32) (fromkeys (-2))
            (proposed
               (update_allocation 100 (one_charger true 16 32)
                  (fromkeys (-2))))
            (chargers_after
               (update_allocation 100 (one_charger true 16 32)
                  (fromkeys (-2))))
            _ "c1").
  vm_compute. reflexivity.
Defined.

End UpdateAllocation.

(** ** The distribution loops: sums *)

Section Sums.

Import ChargerState PowerAllocator.

Lemma div_add_le (a b T : Z) : 0 < T -> a / T + b / T <= (a + b) / T.
Proof.
  intros HT. apply Z.div_le_lower_bound; [done|].
  pose proof (Z.mul_div_le a T HT). pose proof (Z.mul_div_le b T HT). lia.
Qed.

Lemma exact_share_whole delta whole :
  whole <> 0 -> exact_share delta whole whole = delta.
Proof. intros H. unfold exact_share. by apply Z.div_mul. Qed.

Lemma exact_share_add delta a b whole :
  0 < whole ->
  exact_share delta a whole + exact_share delta b whole
  <= exact_share delta (a + b) whole.
Proof.
  intros H. unfold exact_share.
  replace (delta * (a + b)) with (delta * a + delta * b) by lia.
  by apply div_add_le.
Qed.

Lemma elem_le_total (l : list (string * Z)) charger_id v :
  (forall c w, (c, w) ∈ l -> 0 <= w) -> (charger_id, v) ∈ l -> v <= total l.
Proof.
  induction l as [|[c w] l IH]; intros Hall Hin.
  - by apply elem_of_nil in Hin.
  - assert (0 <= w) by (apply (Hall c); by left).
    assert (0 <= total l).
    { apply total_nonneg. intros c' w' ?. apply (Hall c'). by right. }
    change (total ((c, w) :: l)) with (w + total l).
    apply elem_of_cons in Hin as [Heq|Hin].
    + injection Heq as -> ->. lia.
    + assert (v <= total l); [|lia].
      apply IH; [|done]. intros c' w' ?. apply (Hall c'). by right.
Qed.

(** The sum of the setpoints after proportional cuts: at most what is
    left of the total, and short of it by less than one ampere per
    charger. *)
Lemma cut_setpoints_bounds (f : string -> Z) deficit whole
    (l : list (string * Z)) :
  deficit < 0 -> 0 < whole ->
  (forall c w, (c, w) ∈ l -> 0 <= w) ->
  (forall c w, (c, w) ∈ l ->
     f c = Z.max 0 (w + exact_share deficit w whole)) ->
  sum_over f l.*1 <= Z.max 0 (total l + exact_share deficit (total l) whole)
  /\ whole * total l + deficit * total l - whole * Z.of_nat (length l)
     + Z.of_nat (length l)
     <= whole * sum_over f l.*1
  /\ 0 <= sum_over f l.*1.
Proof.
  intros Hd Hw. induction l as [|[c w] l IH]; intros Hnonneg Hf.
  - simpl. unfold exact_share. rewrite Z.mul_0_r. simpl. lia.
  - assert (0 <= w) as Hw0 by (apply (Hnonneg c); by left).
    assert (0 <= total l) as Htot.
    { apply total_nonneg. intros c' w' ?. apply (Hnonneg c'). by right. }
    destruct IH as (IHle & IHge & IH0).
    { intros c' w' ?. apply (Hnonneg c'). by right. }
    { intros c' w' ?. apply Hf. by right. }
    rewrite fmap_cons. simpl.
    change (total ((c, w) :: l)) with (w + total l).
    change (sum_over f (c :: l.*1)) with (f c + sum_over f l.*1).
    rewrite (Hf c w) by (by left).
    pose proof (exact_share_add deficit w (total l) whole Hw) as Hadd.
    assert (whole * exact_share deficit w whole > deficit * w - whole)
      as Hfloor.
    { unfold exact_share.
      pose proof (Z.mul_succ_div_gt (deficit * w) whole Hw). lia. }
    assert (exact_share deficit w whole <= 0) as Hneg.
    { unfold exact_share. apply Z.div_le_upper_bound; [done|]. nia. }
    split; [|split].
    + destruct (decide (- whole <= deficit)) as [Hsmall|Hlarge].
      * assert (- w <= exact_share deficit w whole).
        { unfold exact_share. apply Z.div_le_lower_bound; [done|]. nia. }
        assert (- total l <= exact_share deficit (total l) whole).
        { unfold exact_share. apply Z.div_le_lower_bound; [done|]. nia. }
        lia.
      * assert (exact_share deficit w whole <= - w).
        { unfold exact_share. apply Z.div_le_upper_bound; [done|]. nia. }
        assert (exact_share deficit (total l) whole <= - total l).
        { unfold exact_share. apply Z.div_le_upper_bound; [done|]. nia. }
        lia.
    + rewrite Nat2Z.inj_succ. nia.
    + lia.
Qed.

(** The sum of the setpoints after proportional increases. *)
Lemma raised_setpoints_bounds (f g : string -> Z) surplus whole
    (l : list (string * Z)) :
  0 < surplus -> 0 < whole ->
  (forall c w, (c, w) ∈ l -> 0 < w) ->
  (forall c w, (c, w) ∈ l ->
     f c = g c + Z.min (exact_share surplus w whole) w) ->
  sum_over g l.*1 <= sum_over f l.*1
  /\ sum_over f l.*1
     <= sum_over g l.*1
        + Z.min (exact_share surplus (total l) whole) (total l).
Proof.
  intros Hs Hw. induction l as [|[c w] l IH]; intros Hpos Hf.
  - simpl. unfold exact_share. rewrite Z.mul_0_r, Zdiv_0_l. simpl. lia.
  - assert (0 < w) as Hw0 by (apply (Hpos c); by left).
    destruct IH as (IHge & IHle).
    { intros c' w' ?. apply (Hpos c'). by right. }
    { intros c' w' ?. apply Hf. by right. }
    rewrite fmap_cons. simpl.
    change (total ((c, w) :: l)) with (w + total l).
    change (sum_over f (c :: l.*1)) with (f c + sum_over f l.*1).
    change (sum_over g (c :: l.*1)) with (g c + sum_over g l.*1).
    rewrite (Hf c w) by (by left).
    pose proof (exact_share_add surplus w (total l) whole Hw) as Hadd.
    assert (0 <= exact_share surplus w whole).
    { unfold exact_share. apply Z.div_pos; lia. }
    lia.
Qed.

Lemma open_entry_succeeds now (_chargers : gmap string ChargerState.t)
    phase charger_id result state current_setting old :
  _chargers !! charger_id = Some state ->
  get_current_limit now state = Some current_setting ->
  current_setting !! phase = Some old ->
  exists entry result',
    open_entry now _chargers phase charger_id result
    = Ok (old, entry, result').
Proof.
  intros Hstate Hlimit Hold. unfold open_entry, getitem.
  rewrite Hstate. simpl. rewrite Hlimit, Hold. simpl.
  destruct (result !! charger_id) as [d|] eqn:Hres.
  - rewrite Hres. simpl. eauto.
  - rewrite lookup_insert_eq. simpl. eauto.
Qed.

Lemma apply_cuts_succeeds now (_chargers : gmap string ChargerState.t)
    phase deficit total_current charger_currents result :
  (forall charger_id current,
     (charger_id, current) ∈ charger_currents ->
     (exists cut, proportional_cut deficit current total_current = Ok cut)
     /\ exists state current_setting,
          _chargers !! charger_id = Some state
          /\ get_current_limit now state = Some current_setting
          /\ is_Some (current_setting !! phase)) ->
  exists res,
    apply_cuts now _chargers phase deficit total_current charger_currents
      result = Ok res.
Proof.
  revert result.
  induction charger_currents as [|[cid current] rest IH]; intros result Hall.
  - by exists result.
  - simpl.
    destruct (Hall cid current) as ((cut & ->) & state & cs & ? & ? & [old ?]);
      [by left|]. simpl.
    destruct (open_entry_succeeds now _chargers phase cid result state cs old)
      as (entry & result' & ->); [done..|]. simpl.
    apply IH. intros c w ?. apply Hall. by right.
Qed.

Lemma apply_increases_succeeds now (_chargers : gmap string ChargerState.t)
    phase surplus total_potential potential_increases result :
  (forall charger_id potential,
     (charger_id, potential) ∈ potential_increases ->
     (exists increase,
        proportional_increase surplus potential total_potential
        = Ok increase)
     /\ exists state current_setting,
          _chargers !! charger_id = Some state
          /\ get_current_limit now state = Some current_setting
          /\ is_Some (current_setting !! phase)) ->
  exists res,
    apply_increases now _chargers phase surplus total_potential
      potential_increases result = Ok res.
Proof.
  revert result.
  induction potential_increases as [|[cid potential] rest IH];
    intros result Hall.
  - by exists result.
  - simpl.
    destruct (Hall cid potential)
      as ((inc & ->) & state & cs & ? & ? & [old ?]); [by left|]. simpl.
    destruct (open_entry_succeeds now _chargers phase cid result state cs old)
      as (entry & result' & ->); [done..|]. simpl.
    apply IH. intros c w ?. apply Hall. by right.
Qed.

(** X13. Cuts cover the deficit. For a deficit from -24 to -1 A and
    collected currents that are not negative and sum to [T], from 1 to
    64 A, [_distribute_cuts] returns. [T] is the sum of the currents the
    allocator reads for the collected chargers, and the setpoints written
    for them sum to at most [max(0, T + deficit)]: together the chargers
    give up at least the deficit. The sum is more than [T + deficit - n]
    for [n] chargers, so rounding takes less than one ampere per charger
    too much. *)
Theorem cuts_cover_the_deficit (now : Z)
    (_chargers : gmap string ChargerState.t) (phase : Phase) (deficit : Z)
    (result : gmap string (gmap Phase Z))
    (charger_currents : list (string * Z)) :
  collect_currents now phase (map_to_list (_active_chargers _chargers))
  = Ok charger_currents ->
  Forall (fun x => 0 <= x.2) charger_currents ->
  1 <= total charger_currents <= 64 ->
  -24 <= deficit < 0 ->
  exists res,
    _distribute_cuts now _chargers phase deficit result = Ok res
    /\ total charger_currents
       = sum_over (read_current now _chargers phase) charger_currents.*1
    /\ sum_over (setpoint phase res) charger_currents.*1
       <= Z.max 0 (total charger_currents + deficit)
    /\ total charger_currents + deficit
       - Z.of_nat (length charger_currents)
       < sum_over (setpoint phase res) charger_currents.*1.
Proof.
  intros Hcollect Hall Htotal Hdeficit.
  assert (Hnonneg : forall charger_id current,
            (charger_id, current) ∈ charger_currents -> 0 <= current).
  { intros cid current Hin. rewrite Forall_forall in Hall.
    by apply (Hall (cid, current)). }
  clear Hall.
  assert (NoDup charger_currents.*1) as Hnd.
  { eapply sublist_NoDup; [|by eapply collect_currents_sublist].
    apply NoDup_fst_map_to_list. }
  assert (Helem : forall cid current,
            (cid, current) ∈ charger_currents ->
            exists state current_setting,
              _chargers !! cid = Some state
              /\ get_current_limit now state = Some current_setting
              /\ current_setting !! phase = Some current).
  { intros cid current Hin.
    destruct (collect_currents_elem _ _ _ _ _ _ Hcollect Hin)
      as (state & cs & Hactive & Hlimit & Hcur).
    apply elem_of_active in Hactive as [Hstate _]. eauto. }
  assert (Hcut : forall cid current,
            (cid, current) ∈ charger_currents ->
            proportional_cut deficit current (total charger_currents)
            = Ok (exact_share deficit current (total charger_currents))).
  { intros cid current Hin.
    apply (cuts_agree_sound 24 64); [apply cuts_agree_checked|lia| |lia].
    split; [by eapply Hnonneg|by eapply elem_le_total]. }
  unfold _distribute_cuts. rewrite Hcollect. simpl.
  rewrite bool_decide_eq_false_2 by lia.
  destruct (apply_cuts_succeeds now _chargers phase deficit
              (total charger_currents) charger_currents result)
    as [res Hres].
  { intros cid current Hin. split; [rewrite (Hcut cid current Hin); eauto|].
    destruct (Helem cid current Hin) as (state & cs & ? & ? & ?).
    exists state, cs. eauto. }
  exists res. split; [done|].
  assert (Hset : forall cid current,
            (cid, current) ∈ charger_currents ->
            setpoint phase res cid
            = Z.max 0 (current
                       + exact_share deficit current
                           (total charger_currents))).
  { intros cid current Hin.
    destruct (apply_cuts_lookup _ _ _ _ _ _ _ _ Hnd Hres cid) as [_ Hlook].
    destruct (Hlook current Hin)
      as (cut & state & cs & old & Hc & Hstate & Hlimit & Hold & Hr).
    destruct (Helem cid current Hin) as (state' & cs' & ? & ? & ?).
    assert (state' = state) as -> by congruence.
    assert (old = current) as -> by congruence.
    rewrite (Hcut cid current Hin) in Hc. injection Hc as <-.
    unfold setpoint. rewrite Hr. simpl. by rewrite lookup_insert_eq. }
  split.
  { clear Hres Hset Hcut Htotal Hnd Hnonneg Hcollect.
    induction charger_currents as [|[cid current] rest IH]; [done|].
    rewrite fmap_cons. simpl. change (total ((cid, current) :: rest))
      with (current + total rest).
    rewrite IH by (intros c w ?; apply Helem; by right).
    f_equal. unfold read_current.
    destruct (Helem cid current) as (state & cs & -> & Hlimit & Hcur);
      [by left|]. simpl. rewrite Hlimit. simpl. by rewrite Hcur. }
  destruct (cut_setpoints_bounds (setpoint phase res) deficit
              (total charger_currents) charger_currents)
    as (Hle & Hge & _); [lia|lia|done|done|].
  rewrite exact_share_whole in Hle by lia. split; [done|].
  assert (1 <= Z.of_nat (length charger_currents)).
  { destruct charger_currents; [simpl in Htotal; lia|simpl; lia]. }
  nia.
Qed.

Lemma cuts_cover_the_deficit_witness :
  exists res,
    _distribute_cuts 100 (two_chargers 10 32 16 32) L1 (-4) ∅ = Ok res
    /\ total [("c1", 10); ("c2", 16)]
       = sum_over (read_current 100 (two_chargers 10 32 16 32) L1)
           [("c1", 10); ("c2", 16)].*1
    /\ sum_over (setpoint L1 res) [("c1", 10); ("c2", 16)].*1
       <= Z.max 0 (total [("c1", 10); ("c2", 16)] + -4)
    /\ total [("c1", 10); ("c2", 16)] + -4
       - Z.of_nat (length [("c1", 10); ("c2", 16)])
       < sum_over (setpoint L1 res) [("c1", 10); ("c2", 16)].*1.
Proof.
  apply (cuts_cover_the_deficit 100 (two_chargers 10 32 16 32) L1 (-4) ∅
           [("c1", 10); ("c2", 16)]).
  - vm_compute. reflexivity.
  - repeat constructor; simpl; lia.
  - simpl. lia.
  - lia.
Defined.

(** X14. Increases stay within the surplus. For a surplus from 1 to 21 A
    and a total potential from 1 to 64 A, [_distribute_increases] returns;
    the setpoints written for the collected chargers sum to at least the
    currents read for them, and exceed them by at most
    [min(surplus, total potential)]. *)
Theorem increases_stay_within_the_surplus (now : Z)
    (_chargers : gmap string ChargerState.t) (phase : Phase) (surplus : Z)
    (result : gmap string (gmap Phase Z))
    (potential_increases : list (string * Z)) :
  collect_potentials now phase (map_to_list (_active_chargers _chargers))
  = Ok potential_increases ->
  1 <= total potential_increases <= 64 ->
  1 <= surplus <= 21 ->
  exists res,
    _distribute_increases now _chargers phase surplus result = Ok res
    /\ sum_over (read_current now _chargers phase) potential_increases.*1
       <= sum_over (setpoint phase res) potential_increases.*1
    /\ sum_over (setpoint phase res) potential_increases.*1
       <= sum_over (read_current now _chargers phase) potential_increases.*1
          + Z.min surplus (total potential_increases).
Proof.
  intros Hcollect Htotal Hsurplus.
  assert (NoDup potential_increases.*1) as Hnd.
  { eapply sublist_NoDup; [|by eapply collect_potentials_sublist].
    apply NoDup_fst_map_to_list. }
  assert (Helem : forall cid potential,
            (cid, potential) ∈ potential_increases ->
            0 < potential
            /\ exists state current_setting current,
                 _chargers !! cid = Some state
                 /\ get_current_limit now state = Some current_setting
                 /\ current_setting !! phase = Some current).
  { intros cid potential Hin.
    destruct (collect_potentials_elem _ _ _ _ _ _ Hcollect Hin)
      as (state & cs & rq & c & w & Hactive & ? & ? & ? & ? & ? & ->).
    apply elem_of_active in Hactive as [Hstate _].
    split; [lia|]. by exists state, cs, c. }
  assert (Hpos : forall cid potential,
            (cid, potential) ∈ potential_increases -> 0 < potential).
  { intros cid potential Hin. by destruct (Helem cid potential Hin). }
  assert (Hinc : forall cid potential,
            (cid, potential) ∈ potential_increases ->
            proportional_increase surplus potential
              (total potential_increases)
            = Ok (Z.min (exact_share surplus potential
                           (total potential_increases)) potential)).
  { intros cid potential Hin.
    apply (increases_agree_sound 21 64);
      [apply increases_agree_checked|lia| |lia].
    split; [by apply Z.lt_pred_le, (Hpos cid)|].
    eapply elem_le_total; [|done].
    intros c w Hw. by apply Z.lt_le_incl, (Hpos c). }
  unfold _distribute_increases. rewrite Hcollect. simpl.
  rewrite bool_decide_eq_false_2 by lia.
  destruct (apply_increases_succeeds now _chargers phase surplus
              (total potential_increases) potential_increases result)
    as [res Hres].
  { intros cid potential Hin.
    split; [rewrite (Hinc cid potential Hin); eauto|].
    destruct (Helem cid potential Hin) as (_ & state & cs & c & ? & ? & ?).
    exists state, cs. eauto. }
  exists res. split; [done|].
  destruct (raised_setpoints_bounds (setpoint phase res)
              (read_current now _chargers phase) surplus
              (total potential_increases) potential_increases)
    as (Hge & Hle); [lia|lia|done| |].
  { intros cid potential Hin.
    destruct (apply_increases_lookup _ _ _ _ _ _ _ _ Hnd Hres cid)
      as [_ Hlook].
    destruct (Hlook potential Hin)
      as (inc & state & cs & old & Hi & Hstate & Hlimit & Hold & Hr).
    rewrite (Hinc cid potential Hin) in Hi. injection Hi as <-.
    unfold setpoint, read_current. rewrite Hr, Hstate, Hlimit, Hold. simpl.
    by rewrite lookup_insert_eq. }
  rewrite exact_share_whole in Hle by lia. done.
Qed.

Lemma increases_stay_within_the_surplus_witness :
  exists res,
    _distribute_increases 100 (two_chargers 10 32 16 20) L1 9 ∅ = Ok res
    /\ sum_over (read_current 100 (two_chargers 10 32 16 20) L1)
         [("c1", 22); ("c2", 4)].*1
       <= sum_over (setpoint L1 res) [("c1", 22); ("c2", 4)].*1
    /\ sum_over (setpoint L1 res) [("c1", 22); ("c2", 4)].*1
       <= sum_over (read_current 100 (two_chargers 10 32 16 20) L1)
            [("c1", 22); ("c2", 4)].*1
          + Z.min 9 (total [("c1", 22); ("c2", 4)]).
Proof.
  apply (increases_stay_within_the_surplus 100 (two_chargers 10 32 16 20)
           L1 9 ∅ [("c1", 22); ("c2", 4)]).
  - vm_compute. reflexivity.
  - simpl. lia.
  - lia.
Defined.

End Sums.

(** ** PowerAllocator._allocate_current: direction of the setpoints *)

Section Monotone.

Import ChargerState PowerAllocator.

Variable now : Z.
Variable _chargers : gmap string ChargerState.t.
Variable available_currents : gmap Phase Z.

(** What the allocator reads as the current limit of a charger that can
    charge is not negative. *)
Hypothesis current_nonneg :
  forall charger_id state current_setting p v,
    _chargers !! charger_id = Some state ->
    Charger.can_charge (charger state) = true ->
    get_current_limit now state = Some current_setting ->
    current_setting !! p = Some v -> 0 <= v.

Lemma moves_with_delta_refl delta current wanted :
  0 <= current -> moves_with_delta delta current wanted current.
Proof.
  intros H. unfold moves_with_delta. destruct delta as [a|]; [|done].
  destruct (decide (a < 0)); [lia|]. destruct (decide (a > 0)); [by left|done].
Qed.

(** Writing [v] on [phase] for an active charger keeps the invariant
    when [v] moves with the delta of [phase]. *)
Lemma write_entry_follows phase charger_id r old entry r' v state :
  open_entry now _chargers phase charger_id r = Ok (old, entry, r') ->
  _chargers !! charger_id = Some state ->
  Charger.can_charge (charger state) = true ->
  moves_with_delta (available_currents !! phase) old (wanted_on phase state)
    v ->
  per_phase_invariant now _chargers available_currents r ->
  per_phase_invariant now _chargers available_currents
    (<[charger_id := <[phase := v]> entry]> r').
Proof.
  intros Hopen Hstate Hcan Hv Hr.
  apply open_entry_Ok in Hopen
    as (state' & cs & Hstate' & Hlimit & Hold & Hentry & Hcase).
  assert (state' = state) as -> by congruence.
  intros cid limits Hl.
  destruct (decide (cid = charger_id)) as [->|Hne].
  - rewrite lookup_insert_eq in Hl. injection Hl as <-.
    exists state. split; [done|]. split; [done|].
    assert (follows_deltas now available_currents state entry) as Hentry'.
    { destruct Hcase as [(_ & _ & ->)|[Hres _]].
      - exists cs. split; [done|]. intros p.
        destruct (cs !! p) as [c|] eqn:Hc; [|done].
        exists c. split; [done|]. apply moves_with_delta_refl.
        by eapply current_nonneg.
      - destruct (Hr charger_id entry Hres) as (state' & Hstate'' & _ & Hf).
        by assert (state' = state) as -> by congruence. }
    destruct Hentry' as (cs' & Hlimit' & Hall).
    assert (cs' = cs) as -> by congruence.
    exists cs. split; [done|]. intros p.
    destruct (decide (p = phase)) as [->|Hp].
    + rewrite Hold. exists v. by rewrite lookup_insert_eq.
    + specialize (Hall p). by rewrite lookup_insert_ne.
  - rewrite lookup_insert_ne in Hl by done.
    destruct Hcase as [(_ & -> & _)|[_ ->]].
    + rewrite lookup_insert_ne in Hl by done. by apply Hr.
    + by apply Hr.
Qed.

Lemma _distribute_cuts_follows phase deficit r r' :
  available_currents !! phase = Some deficit -> deficit < 0 ->
  _distribute_cuts now _chargers phase deficit r = Ok r' ->
  per_phase_invariant now _chargers available_currents r ->
  per_phase_invariant now _chargers available_currents r'.
Proof.
  intros Hphase Hdeficit Hcuts Hr. unfold _distribute_cuts in Hcuts.
  bind_inv Hcuts. rename x into charger_currents.
  case_bool_decide as Htotal; [by injection Hcuts as <-|].
  assert (Helem : forall cid current,
            (cid, current) ∈ charger_currents ->
            exists state current_setting,
              _chargers !! cid = Some state
              /\ Charger.can_charge (charger state) = true
              /\ get_current_limit now state = Some current_setting
              /\ current_setting !! phase = Some current).
  { intros cid current Hin.
    destruct (collect_currents_elem _ _ _ _ _ _ Hx Hin)
      as (state & cs & Hactive & Hlimit & Hcur).
    apply elem_of_active in Hactive as [Hstate Hcan]. eauto 8. }
  assert (0 < total charger_currents) as Hpos.
  { assert (0 <= total charger_currents); [|lia].
    apply total_nonneg. intros cid v Hin.
    destruct (Helem cid v Hin) as (state & cs & ? & ? & ? & ?).
    by eapply current_nonneg. }
  revert Hr Hcuts. apply apply_cuts_invariant.
  intros cid current cut old entry r0 r0' Hin Hcut Hopen Hr0.
  destruct (Helem cid current Hin)
    as (state & cs & Hstate & Hcan & Hlimit & Hcur).
  assert (0 <= current) as Hbound by (by eapply current_nonneg).
  apply proportional_cut_nonpos in Hcut; [|lia..].
  pose proof Hopen as Hopen'.
  apply open_entry_Ok in Hopen'
    as (state' & cs' & Hstate' & Hlimit' & Hold & _).
  assert (state' = state) as -> by congruence.
  assert (old = current) as -> by congruence.
  eapply write_entry_follows; [exact Hopen|exact Hstate|exact Hcan| |exact Hr0].
  unfold moves_with_delta. rewrite Hphase.
  destruct (decide (deficit < 0)); [lia|done].
Qed.

Lemma _distribute_increases_follows phase surplus r r' :
  available_currents !! phase = Some surplus -> surplus > 0 ->
  _distribute_increases now _chargers phase surplus r = Ok r' ->
  per_phase_invariant now _chargers available_currents r ->
  per_phase_invariant now _chargers available_currents r'.
Proof.
  intros Hphase Hsurplus Hinc Hr. unfold _distribute_increases in Hinc.
  bind_inv Hinc. rename x into potential_increases.
  case_bool_decide as Htotal; [by injection Hinc as <-|].
  assert (Helem : forall cid potential,
            (cid, potential) ∈ potential_increases ->
            exists state current_setting requested current wanted,
              _chargers !! cid = Some state
              /\ Charger.can_charge (charger state) = true
              /\ get_current_limit now state = Some current_setting
              /\ requested_current state = Some requested
              /\ current_setting !! phase = Some current
              /\ requested !! phase = Some wanted
              /\ wanted > current
              /\ potential = wanted - current).
  { intros cid potential Hin.
    destruct (collect_potentials_elem _ _ _ _ _ _ Hx Hin)
      as (state & cs & rq & c & w & Hactive & ? & ? & ? & ? & ? & ?).
    apply elem_of_active in Hactive as [Hstate Hcan].
    exists state, cs, rq, c, w. done. }
  assert (0 < total potential_increases) as Hpos.
  { assert (0 <= total potential_increases); [|lia].
    apply total_nonneg. intros cid v Hin.
    destruct (Helem cid v Hin)
      as (? & ? & ? & ? & ? & ? & ? & ? & ? & ? & ? & ?).
    lia. }
  revert Hr Hinc. apply apply_increases_invariant.
  intros cid potential inc old entry r0 r0' Hin Hprop Hopen Hr0.
  destruct (Helem cid potential Hin)
    as (state & cs & rq & current & wanted & Hstate & Hcan & Hlimit & Hreq
        & Hcur & Hwanted & Hgt & ->).
  apply proportional_increase_bounds in Hprop; [|lia..].
  pose proof Hopen as Hopen'.
  apply open_entry_Ok in Hopen'
    as (state' & cs' & Hstate' & Hlimit' & Hold & _).
  assert (state' = state) as -> by congruence.
  assert (old = current) as -> by congruence.
  eapply write_entry_follows; [exact Hopen|exact Hstate|exact Hcan| |exact Hr0].
  unfold moves_with_delta. rewrite Hphase.
  destruct (decide (surplus < 0)); [lia|].
  destruct (decide (surplus > 0)); [|lia].
  right. exists wanted. split; [|lia]. unfold wanted_on. by rewrite Hreq.
Qed.

Lemma distribute_follows per_phase :
  distribute now _chargers (items available_currents) ∅ = Ok per_phase ->
  per_phase_invariant now _chargers available_currents per_phase.
Proof.
  apply distribute_invariant.
  - intros phase a r r' Hin Ha. apply elem_of_items in Hin.
    by apply _distribute_cuts_follows.
  - intros phase a r r' Hin Ha. apply elem_of_items in Hin.
    by apply _distribute_increases_follows.
  - intros cid limits Hl. by rewrite lookup_empty in Hl.
Qed.

Lemma moves_with_delta_nonneg delta current wanted v :
  0 <= current -> moves_with_delta delta current wanted v -> 0 <= v.
Proof.
  intros Hc. unfold moves_with_delta. destruct delta as [a|]; [|lia].
  destruct (decide (a < 0)); [lia|].
  destruct (decide (a > 0)); [|lia].
  intros [->|(w & _ & ?)]; lia.
Qed.

Lemma _allocate_current_follows res charger_id limits state current_setting :
  _allocate_current now _chargers available_currents = Ok res ->
  res !! charger_id = Some limits ->
  _chargers !! charger_id = Some state ->
  get_current_limit now state = Some current_setting ->
  Charger.can_charge (charger state) = true
  /\ (Charger.has_synced_phase_limits (charger state) = false ->
      follows_deltas now available_currents state limits)
  /\ (forall p a current v,
        available_currents !! p = Some a -> a < 0 ->
        current_setting !! p = Some current ->
        limits !! p = Some v -> 0 <= v <= current).
Proof.
  unfold _allocate_current. intros Halloc Hl Hstate Hlimit.
  bind_inv Halloc. rename x into per_phase.
  pose proof (distribute_follows _ Hx) as Hinv.
  destruct (flatten_result _ _ _ _ _ _ Halloc Hl)
    as (state' & entry & Hstate' & Hcan & Hentry & Hflat).
  assert (state' = state) as -> by congruence.
  destruct (Hinv charger_id entry Hentry) as (state' & Hstate'' & _ & Hf).
  assert (state' = state) as -> by congruence.
  split; [done|].
  destruct (Charger.has_synced_phase_limits (charger state)) eqn:Hsynced.
  - split; [done|]. intros p a current v Hp Ha Hc Hv.
    destruct Hf as (cs & Hlimit' & Hall).
    assert (cs = current_setting) as -> by congruence.
    destruct (flatten_entry_synced (dom available_currents) entry limits)
      as (m & -> & (q & Hq & Hqm) & Hle); [|done|].
    { by apply (distribute_touches _ _ _ _ Hx charger_id). }
    rewrite lookup_fromkeys in Hv. injection Hv as <-.
    pose proof (Hall p) as Hp'. rewrite Hc in Hp'.
    destruct Hp' as (vp & Hvp & Hmoves).
    pose proof (Hall q) as Hq'.
    destruct (current_setting !! q) as [cq|] eqn:Hcq; [|congruence].
    destruct Hq' as (vq & Hvq & Hmovesq).
    assert (vq = m) as -> by congruence.
    assert (0 <= cq) by (by eapply current_nonneg).
    apply moves_with_delta_nonneg in Hmovesq; [|done].
    assert (m <= vp) by (apply (Hle p); [by apply elem_of_dom|done]).
    unfold moves_with_delta in Hmoves. rewrite Hp in Hmoves.
    destruct (decide (a < 0)); lia.
  - unfold flatten_entry in Hflat. injection Hflat as <-.
    split; [done|]. intros p a current v Hp Ha Hc Hv.
    destruct Hf as (cs & Hlimit' & Hall).
    assert (cs = current_setting) as -> by congruence.
    specialize (Hall p). rewrite Hc in Hall.
    destruct Hall as (v' & Hv' & Hmoves).
    assert (v' = v) as -> by congruence.
    unfold moves_with_delta in Hmoves. rewrite Hp in Hmoves.
    destruct (decide (a < 0)); lia.
Qed.

End Monotone.

Section MonotoneStatements.

Import ChargerState PowerAllocator.

(** X15. Setpoints move with the deltas. When the currents the allocator
    reads are not negative, every charger of the result of
    [_allocate_current] can charge, and on a phase with a negative delta
    its value lies between 0 and the current read there, for synced
    chargers too. For a charger with independent phases the entry has the
    phases of the current limit; a phase with a positive delta is kept or
    raised, never above the requested current; a phase with delta 0 or
    with no delta is kept. *)
Theorem setpoints_move_with_the_deltas
    (now : Z) (_chargers : gmap string ChargerState.t)
    (available_currents : gmap Phase Z)
    (res : gmap string (gmap Phase Z)) (charger_id : string)
    (limits : gmap Phase Z) (state : ChargerState.t)
    (current_setting : gmap Phase Z) :
  (forall charger_id state current_setting p v,
     _chargers !! charger_id = Some state ->
     Charger.can_charge (charger state) = true ->
     get_current_limit now state = Some current_setting ->
     current_setting !! p = Some v -> 0 <= v) ->
  _allocate_current now _chargers available_currents = Ok res ->
  res !! charger_id = Some limits ->
  _chargers !! charger_id = Some state ->
  get_current_limit now state = Some current_setting ->
  Charger.can_charge (charger state) = true
  /\ (Charger.has_synced_phase_limits (charger state) = false ->
      follows_deltas now available_currents state limits)
  /\ (forall p a current v,
        available_currents !! p = Some a -> a < 0 ->
        current_setting !! p = Some current ->
        limits !! p = Some v -> 0 <= v <= current).
Proof.
  intros Hnonneg Halloc Hl Hstate Hlimit.
  by eapply _allocate_current_follows.
Qed.

Lemma setpoints_move_with_the_deltas_witness :
  Charger.can_charge
    (charger (charging "c1" false (fromkeys 16) (fromkeys 20))) = true
  /\ (Charger.has_synced_phase_limits
        (charger (charging "c1" false (fromkeys 16) (fromkeys 20))) = false ->
      follows_deltas 100 (<[L1 := 16]> {[L2 := -3]})
        (charging "c1" false (fromkeys 16) (fromkeys 20))
        (<[L1 := 20]> (<[L2 := 13]> (fromkeys 16))))
  /\ (forall p a current v,
        (<[L1 := 16]> {[L2 := -3]} : gmap Phase Z) !! p = Some a -> a < 0 ->
        fromkeys 16 !! p = Some current ->
        (<[L1 := 20]> (<[L2 := 13]> (fromkeys 16))) !! p = Some v ->
        0 <= v <= current).
Proof.
  apply (setpoints_move_with_the_deltas 100 (one_charger false 16 20)
           (<[L1 := 16]> {[L2 := -3]})
           {[ "c1" := <[L1 := 20]> (<[L2 := 13]> (fromkeys 16)) ]} "c1").
  - intros cid state cs p v Hstate _ Hlimit Hv.
    apply lookup_one_charger in Hstate. subst state.
    injection Hlimit as <-. rewrite lookup_fromkeys in Hv.
    injection Hv as <-. lia.
  - vm_compute. reflexivity.
  - reflexivity.
  - reflexivity.
  - reflexivity.
Defined.

Lemma distribute_zero now (_chargers : gmap string ChargerState.t)
    (available : list (Phase * Z)) result :
  (forall p a, (p, a) ∈ available -> a = 0) ->
  distribute now _chargers available result = Ok result.
Proof.
  induction available as [|[p a] rest IH]; intros Hzero; [done|].
  simpl. rewrite (Hzero p a) by (by left). simpl.
  apply IH. intros q b ?. apply (Hzero q). by right.
Qed.

Lemma collect_updates_nil now (_chargers : gmap string ChargerState.t) :
  collect_updates now (map_to_list (∅ : gmap string (gmap Phase Z)))
    _chargers ∅ = Ok (∅, _chargers).
Proof. by rewrite map_to_list_empty. Qed.

(** X11. When every delta is 0, an empty map of deltas included,
    [_allocate_current] returns the empty result, whatever the chargers
    are, and [update_allocation] proposes nothing. *)
Theorem zero_deltas_allocate_nothing
    (now : Z) (_chargers : gmap string ChargerState.t)
    (available_currents : gmap Phase Z) :
  (forall p a, available_currents !! p = Some a -> a = 0) ->
  _allocate_current now _chargers available_currents = Ok ∅
  /\ (forall res _chargers',
        update_allocation now _chargers available_currents
        = Ok (res, _chargers') -> res = ∅).
Proof.
  intros Hzero.
  assert (_allocate_current now _chargers available_currents = Ok ∅)
    as Halloc.
  { unfold _allocate_current. rewrite distribute_zero.
    - simpl. by rewrite map_to_list_empty.
    - intros p a Hin. apply elem_of_items in Hin. by eapply Hzero. }
  split; [done|]. intros res _chargers' Hu. unfold update_allocation in Hu.
  case_bool_decide as Hactive; [by injection Hu as <- _|].
  bind_inv Hu. rename x into prepared.
  assert (_allocate_current now prepared available_currents = Ok ∅)
    as Halloc'.
  { unfold _allocate_current. rewrite distribute_zero.
    - simpl. by rewrite map_to_list_empty.
    - intros p a Hin. apply elem_of_items in Hin. by eapply Hzero. }
  rewrite Halloc' in Hu. simpl in Hu. rewrite collect_updates_nil in Hu.
  by injection Hu as <- _.
Qed.

Lemma zero_deltas_allocate_nothing_witness :
  _allocate_current 100 (one_charger true 16 32) (fromkeys 0) = Ok ∅
  /\ (forall res _chargers',
        update_allocation 100 (one_charger true 16 32) (fromkeys 0)
        = Ok (res, _chargers') -> res = ∅).
Proof.
  apply (zero_deltas_allocate_nothing 100 (one_charger true 16 32)
           (fromkeys 0)).
  intros p a Ha. rewrite lookup_fromkeys in Ha. by injection Ha as <-.
Defined.

(** X12. With no negative delta, and no charger that can charge
    requesting more than its current on a phase with a positive delta,
    [_allocate_current] allocates nothing: its result is empty whenever it
    returns one. *)
Theorem headroom_without_potential_allocates_nothing
    (now : Z) (_chargers : gmap string ChargerState.t)
    (available_currents : gmap Phase Z) :
  (forall p a, available_currents !! p = Some a -> 0 <= a) ->
  (forall p a charger_id state current_setting requested current wanted,
     available_currents !! p = Some a -> 0 < a ->
     _chargers !! charger_id = Some state ->
     Charger.can_charge (charger state) = true ->
     get_current_limit now state = Some current_setting ->
     requested_current state = Some requested ->
     current_setting !! p = Some current ->
     requested !! p = Some wanted ->
     wanted <= current) ->
  match _allocate_current now _chargers available_currents with
  | Ok res => res = ∅
  | Raise _ => True
  end.
Proof.
  intros Hnonneg Hfull.
  destruct (_allocate_current now _chargers available_currents)
    as [res|e] eqn:Halloc; [|done].
  unfold _allocate_current in Halloc.
  bind_inv Halloc. rename x into per_phase.
  assert (per_phase = ∅) as ->.
  { revert Hx. apply (distribute_invariant (fun r => r = ∅)); [| |done].
    - intros phase a r r' Hin Ha. apply elem_of_items in Hin.
      specialize (Hnonneg phase a Hin). lia.
    - intros phase a r r' Hin Ha Hinc ->. apply elem_of_items in Hin.
      unfold _distribute_increases in Hinc. bind_inv Hinc.
      destruct x as [|[cid potential] rest].
      + simpl in Hinc. by injection Hinc as <-.
      + exfalso.
        destruct (collect_potentials_elem _ _ _ _ cid potential Hx)
          as (state & cs & rq & c & w & Hactive & ? & ? & ? & ? & ? & ?);
          [by left|].
        apply elem_of_active in Hactive as [Hstate Hcan].
        assert (w <= c); [|lia].
        eapply (Hfull phase a cid state cs rq c w); [done|lia|done..]. }
  rewrite map_to_list_empty in Halloc. simpl in Halloc.
  by injection Halloc as <-.
Qed.

Lemma headroom_without_potential_allocates_nothing_witness :
  match _allocate_current 100 (one_charger true 16 16) (fromkeys 9) with
  | Ok res => res = ∅
  | Raise _ => True
  end.
Proof.
  apply (headroom_without_potential_allocates_nothing 100
           (one_charger true 16 16) (fromkeys 9)).
  - intros p a Ha. rewrite lookup_fromkeys in Ha. injection Ha as <-. lia.
  - intros p a cid state cs rq c w _ _ Hstate _ Hlimit Hreq Hc Hw.
    apply lookup_one_charger in Hstate. subst state.
    injection Hlimit as <-. injection Hreq as <-.
    rewrite lookup_fromkeys in Hc, Hw. injection Hc as <-.
    injection Hw as <-. lia.
Defined.

End MonotoneStatements.

(** ** Coordinator: available currents and the update cycle *)

Section Cycle.

Import ChargerState PowerAllocator Coordinator.

Lemma elem_of_available_phases phase_count p :
  p ∈ _available_phases phase_count <->
  Z.of_nat (Phase_to_nat p) < slice_stop phase_count.
Proof.
  unfold _available_phases, slice_stop.
  change (length Phases) with 3%nat.
  destruct (bool_decide (phase_count < 0)) eqn:Hneg.
  - apply bool_decide_eq_true_1 in Hneg.
    destruct (Z.to_nat (Z.max 0 (Z.of_nat 3 + phase_count)))
      as [|[|[|n]]] eqn:Hstop;
      unfold Phases; simpl; rewrite ?elem_of_cons, ?elem_of_nil;
      destruct p; simpl; split; intros Hp;
      first [lia | by auto | intuition congruence].
  - apply bool_decide_eq_false_1 in Hneg.
    destruct (Z.to_nat phase_count) as [|[|[|n]]] eqn:Hstop;
      unfold Phases; simpl; rewrite ?elem_of_cons, ?elem_of_nil;
      destruct p; simpl; split; intros Hp;
      first [lia | by auto | intuition congruence].
Qed.

Lemma available_loop_None self meter phases acc :
  available_loop self meter phases acc = None <->
  exists p, p ∈ phases /\ meter p = None.
Proof.
  revert acc. induction phases as [|ph rest IH]; intros acc; simpl.
  - split; [done|]. intros (p & Hp & _). by apply elem_of_nil in Hp.
  - unfold get_available_current_for_phase.
    destruct (meter ph) as [a|] eqn:Hph.
    + rewrite IH. split.
      * intros (p & Hp & Hm). exists p. split; [by right|done].
      * intros (p & Hp & Hm). apply elem_of_cons in Hp as [->|Hp];
          [congruence|]. by exists p.
    + split; [|done]. intros _. exists ph. split; [by left|done].
Qed.

Lemma available_loop_Some self meter phases acc d :
  available_loop self meter phases acc = Some d ->
  forall p,
    d !! p
    = if decide (p ∈ phases)
      then (fun a => Z.min (fuse_size self) (fuse_size self - a)) <$> meter p
      else acc !! p.
Proof.
  revert acc. induction phases as [|ph rest IH]; intros acc; simpl.
  - intros [= <-] p. destruct (decide (p ∈ [])) as [Hin|]; [|done].
    by apply elem_of_nil in Hin.
  - unfold get_available_current_for_phase.
    destruct (meter ph) as [a|] eqn:Hph; [|done].
    intros Hloop p. rewrite (IH _ Hloop p).
    destruct (decide (p ∈ rest)) as [Hrest|Hrest].
    + rewrite decide_True by (by right). done.
    + destruct (decide (p = ph)) as [->|Hne].
      * rewrite decide_True by (by left).
        by rewrite lookup_insert_eq, Hph.
      * rewrite decide_False.
        -- by rewrite lookup_insert_ne.
        -- intros Hin. apply elem_of_cons in Hin as [?|?]; done.
Qed.

(** X16. [_available_phases] holds the phases whose position is below
    [phase_count], or below [3 + phase_count] for a negative count.
    [_get_available_currents] returns [None] exactly when the meter has no
    reading for one of these phases. Otherwise its keys are exactly these
    phases, each with [min(fuse_size, fuse_size - reading)], which never
    exceeds the fuse size; the readings of other phases are ignored. *)
Theorem available_currents_cover_the_configured_phases
    (self : Coordinator.t) (meter : Phase -> option Z) (phase_count : Z) :
  (forall p, p ∈ _available_phases phase_count <->
             Z.of_nat (Phase_to_nat p) < slice_stop phase_count)
  /\ (_get_available_currents self meter phase_count = None <->
      exists p, p ∈ _available_phases phase_count /\ meter p = None)
  /\ (forall available_currents,
        _get_available_currents self meter phase_count
        = Some available_currents ->
        forall p,
          (p ∈ _available_phases phase_count ->
           exists active_current,
             meter p = Some active_current
             /\ available_currents !! p
                = Some (Z.min (fuse_size self)
                          (fuse_size self - active_current))
             /\ Z.min (fuse_size self) (fuse_size self - active_current)
                <= fuse_size self)
          /\ (p ∉ _available_phases phase_count ->
              available_currents !! p = None)).
Proof.
  split; [intros p; apply elem_of_available_phases|].
  split; [apply available_loop_None|].
  intros d Hd p. pose proof (available_loop_Some _ _ _ _ _ Hd p) as Hp.
  split.
  - intros Hin. rewrite decide_True in Hp by done.
    destruct (meter p) as [a|] eqn:Hm.
    + exists a. split; [done|]. split; [done|lia].
    + exfalso. assert (_get_available_currents self meter phase_count = None)
        as Hnone by (apply available_loop_None; by exists p).
      congruence.
  - intros Hnotin. rewrite decide_False in Hp by done.
    by rewrite lookup_empty in Hp.
Qed.

(** The two ways a cycle ends: quietly, or with one write to the
    charger. *)
Lemma _execute_update_cycle_Ok compute_availability meter phase_count
    _charger clock timestamp self _power_allocator self' _power_allocator'
    effects :
  _execute_update_cycle compute_availability meter phase_count _charger
    clock timestamp self _power_allocator
  = Ok (self', _power_allocator', effects) ->
  (self' = self /\ effects = [UpdateSensors]
   /\ (_power_allocator' = _power_allocator
       \/ exists available_currents res,
            _get_available_currents self meter phase_count
            = Some available_currents
            /\ update_allocation clock _power_allocator
                 (compute_availability available_currents timestamp)
               = Ok (res, _power_allocator')))
  \/ (exists available_currents res prepared new_limits current_limit
        is_decrease,
        _get_available_currents self meter phase_count
        = Some available_currents
        /\ should_monitor _power_allocator = true
        /\ update_allocation clock _power_allocator
             (compute_availability available_currents timestamp)
           = Ok (res, prepared)
        /\ res !! Charger.id _charger = Some new_limits
        /\ new_limits <> ∅
        /\ Charger.get_current_limit _charger = Some current_limit
        /\ _may_update_charger_settings self new_limits current_limit
             timestamp = Ok true
        /\ any_lower new_limits current_limit = Ok is_decrease
        /\ self' = set_last_charger_update_time (Some timestamp)
                     (if is_decrease : bool
                      then set_last_decrease_time (Some timestamp) self
                      else self)
        /\ (update_applied_current prepared (Charger.id _charger) new_limits
              timestamp).2 = Ok _power_allocator'
        /\ effects = [UpdateSensors;
                      FireEvent EVENT_ACTION_NEW_CHARGER_LIMITS new_limits;
                      SetCurrentLimit new_limits]).
Proof.
  unfold _execute_update_cycle, _should_check_charger.
  destruct (_get_available_currents self meter phase_count)
    as [available_currents|] eqn:Havailable.
  2:{ intros [= <- <- <-]. left. split; [done|]. split; [done|by left]. }
  destruct (should_monitor _power_allocator) eqn:Hmonitor; simpl.
  2:{ intros [= <- <- <-]. left. split; [done|]. split; [done|by left]. }
  intros H. bind_inv H. destruct x as [res prepared].
  assert (Hquiet : Ok (self, prepared, [UpdateSensors])
                   = Ok (self', _power_allocator', effects) ->
            (self' = self /\ effects = [UpdateSensors]
             /\ (_power_allocator' = _power_allocator
                 \/ exists available_currents0 res0,
                      Some available_currents = Some available_currents0
                      /\ update_allocation clock _power_allocator
                           (compute_availability available_currents0
                              timestamp)
                         = Ok (res0, _power_allocator')))).
  { intros [= <- <- <-]. split; [done|]. split; [done|]. right.
    by exists available_currents, res. }
  destruct (Charger.get_current_limit _charger) as [current_limit|]
    eqn:Hlimit; [|left; by apply Hquiet].
  destruct (res !! Charger.id _charger) as [new_limits|] eqn:Hres;
    [|left; by apply Hquiet].
  case_bool_decide as Hnonempty; [|left; by apply Hquiet].
  bind_inv H. destruct x; [|left; by apply Hquiet].
  bind_inv H. rename x into is_decrease. simpl in H. bind_inv H.
  injection H as <- <- <-. right.
  exists available_currents, res, prepared, new_limits, current_limit,
    is_decrease.
  repeat (split; [done|]). done.
Qed.



Lemma _may_update_charger_settings_Ok_true self new_settings current_limits
    timestamp last_update :
  _last_charger_update_time self = Some last_update ->
  _may_update_charger_settings self new_settings current_limits timestamp
  = Ok true ->
  any_lower new_settings current_limits = Ok true
  \/ (any_lower new_settings current_limits = Ok false
      /\ timestamp - last_update > MIN_CHARGER_UPDATE_DELAY
      /\ any_higher new_settings current_limits = Ok true
      /\ timestamp - default last_update (_last_decrease_time self)
         > charge_limit_hysteresis self * 60).
Proof.
  intros Hlast. unfold _may_update_charger_settings. rewrite Hlast.
  intros H. bind_inv H. destruct x; [by left|]. right.
  case_bool_decide as Hdelay; [done|]. bind_inv H.
  destruct x; simpl in H; [|done].
  case_bool_decide as Hh; [|done].
  split; [done|]. split; [lia|]. split; [done|].
  by destruct (_last_decrease_time self).
Qed.

Lemma any_lower_Ok_true (new_settings current_limits : gmap Phase Z) :
  any_lower new_settings current_limits = Ok true ->
  exists p v c, new_settings !! p = Some v
                /\ current_limits !! p = Some c /\ v < c.
Proof.
  unfold any_lower. intros H.
  apply any_of_Ok_true in H as (p & v & Hin & Hf).
  apply elem_of_items in Hin. bind_inv Hf. apply getitem_Ok in Hx.
  injection Hf as Hf. apply bool_decide_eq_true_1 in Hf. eauto 6.
Qed.

Lemma any_higher_Ok_true (new_settings current_limits : gmap Phase Z) :
  any_higher new_settings current_limits = Ok true ->
  exists p v c, new_settings !! p = Some v
                /\ current_limits !! p = Some c /\ v > c.
Proof.
  unfold any_higher. intros H.
  apply any_of_Ok_true in H as (p & v & Hin & Hf).
  apply elem_of_items in Hin. bind_inv Hf. apply getitem_Ok in Hx.
  injection Hf as Hf. apply bool_decide_eq_true_1 in Hf. eauto 6.
Qed.



(** X19. Writes are spaced unless they lower. When a cycle sends limits
    to the charger after an earlier write, either some phase is set below
    what the adapter reports, and the cycle's timestamp becomes
    [_last_decrease_time]; or more than 20 s have passed since the last
    write, some phase is raised, more than the hysteresis has passed since
    the last decrease (since the last write when there was none), and
    [_last_decrease_time] is kept. *)
Theorem writes_are_spaced_unless_they_lower
    (compute_availability : gmap Phase Z -> Z -> gmap Phase Z)
    (meter : Phase -> option Z) (phase_count : Z) (_charger : Charger.t)
    (clock timestamp : Z) (self self' : Coordinator.t)
    (_power_allocator _power_allocator' : gmap string ChargerState.t)
    (effects : list Effect) (new_limits : gmap Phase Z) (last_update : Z) :
  _execute_update_cycle compute_availability meter phase_count _charger
    clock timestamp self _power_allocator
  = Ok (self', _power_allocator', effects) ->
  SetCurrentLimit new_limits ∈ effects ->
  _last_charger_update_time self = Some last_update ->
  exists current_limit,
    Charger.get_current_limit _charger = Some current_limit
    /\ (((exists p v c, new_limits !! p = Some v
                        /\ current_limit !! p = Some c /\ v < c)
         /\ _last_decrease_time self' = Some timestamp)
        \/ (timestamp - last_update > 20
            /\ (exists p v c, new_limits !! p = Some v
                              /\ current_limit !! p = Some c /\ v > c)
            /\ timestamp - default last_update (_last_decrease_time self)
               > charge_limit_hysteresis self * 60
            /\ _last_decrease_time self' = _last_decrease_time self)).
Proof.
  intros Hcycle Hsent Hlast. apply _execute_update_cycle_Ok in Hcycle
    as [(_ & -> & _)|Hwrite].
  { apply list_elem_of_singleton in Hsent. done. }
  destruct Hwrite as (available_currents & res & prepared & limits
    & current_limit & is_decrease & _ & _ & _ & _ & _ & Hlimit
    & Hmay & Hlower & -> & _ & ->).
  assert (limits = new_limits) as ->.
  { rewrite !elem_of_cons, elem_of_nil in Hsent.
    destruct Hsent as [H|[H|[H|H]]];
      [discriminate H|discriminate H|by injection H|done]. }
  exists current_limit. split; [done|].
  destruct (_may_update_charger_settings_Ok_true _ _ _ _ _ Hlast Hmay)
    as [Hlow|(Hlow & Hdelay & Hhigh & Hhyst)].
  - left. split; [by apply any_lower_Ok_true|].
    assert (is_decrease = true) as -> by congruence. done.
  - right. unfold MIN_CHARGER_UPDATE_DELAY in Hdelay.
    split; [done|]. split; [by apply any_higher_Ok_true|].
    split; [done|].
    assert (is_decrease = false) as -> by congruence. done.
Qed.

Lemma writes_are_spaced_unless_they_lower_witness :
  exists current_limit,
    Charger.get_current_limit (mock_charger "c1" (fromkeys 16))
    = Some current_limit
    /\ (((exists p v c, fromkeys 14 !! p = Some v
                        /\ current_limit !! p = Some c /\ v < c)
         /\ _last_decrease_time (Coordinator.mk (Some 100) (Some 100) 25 15)
            = Some 100)
        \/ (100 - 90 > 20
            /\ (exists p v c, fromkeys 14 !! p = Some v
                              /\ current_limit !! p = Some c /\ v > c)
            /\ 100 - default 90
                       (_last_decrease_time
                          (Coordinator.mk (Some 90) None 25 15))
               > charge_limit_hysteresis
                   (Coordinator.mk (Some 90) None 25 15) * 60
            /\ _last_decrease_time
                 (Coordinator.mk (Some 100) (Some 100) 25 15)
               = _last_decrease_time
                   (Coordinator.mk (Some 90) None 25 15))).
Proof.
  apply (writes_are_spaced_unless_they_lower
           (fun available_currents _ => available_currents)
           (fun _ => Some 27) 3 (mock_charger "c1" (fromkeys 16)) 100 100
           (Coordinator.mk (Some 90) None 25 15)
           (Coordinator.mk (Some 100) (Some 100) 25 15)
           (one_charger true 16 32)
           (allocator_after
              (overloaded_cycle (Coordinator.mk (Some 90) None 25 15) 100))
           [UpdateSensors; FireEvent "new_charger_limits" (fromkeys 14);
            SetCurrentLimit (fromkeys 14)]
           (fromkeys 14) 90).
  - vm_compute. reflexivity.
  - right. right. left.
  - reflexivity.
Defined.

(** X20. While timestamps do not go back, a recorded decrease is never
    later than the recorded charger update, and no decrease is recorded
    before a charger update is. A cycle keeps this, and keeps every
    recorded time at or before its own timestamp. *)
Theorem cycle_keeps_timestamps_ordered
    (compute_availability : gmap Phase Z -> Z -> gmap Phase Z)
    (meter : Phase -> option Z) (phase_count : Z) (_charger : Charger.t)
    (clock timestamp : Z) (self self' : Coordinator.t)
    (_power_allocator _power_allocator' : gmap string ChargerState.t)
    (effects : list Effect) :
  timestamps_ordered self ->
  not_after timestamp self ->
  _execute_update_cycle compute_availability meter phase_count _charger
    clock timestamp self _power_allocator
  = Ok (self', _power_allocator', effects) ->
  timestamps_ordered self'
  /\ not_after timestamp self'
  /\ (_last_charger_update_time self = None ->
      _last_decrease_time self = None).
Proof.
  intros Hordered Hclock Hcycle.
  assert (_last_charger_update_time self = None ->
          _last_decrease_time self = None) as Hnone.
  { intros Hu. unfold timestamps_ordered in Hordered.
    destruct (_last_decrease_time self); [|done].
    destruct Hordered as (u & ? & _). congruence. }
  apply _execute_update_cycle_Ok in Hcycle as [(-> & _ & _)|Hwrite];
    [done|].
  destruct Hwrite as (available_currents & res & prepared & limits
    & current_limit & is_decrease & _ & _ & _ & _ & _ & _ & _ & _ & ->
    & _ & _).
  split; [|split; [|done]].
  - unfold timestamps_ordered. destruct is_decrease; simpl.
    + exists timestamp. split; [done|lia].
    + unfold timestamps_ordered in Hordered.
      destruct (_last_decrease_time self) as [d|]; [|done].
      destruct Hordered as (u & Hu & Hle). exists timestamp.
      split; [done|]. specialize (Hclock u Hu). lia.
  - intros u. destruct is_decrease; simpl; intros [= <-]; lia.
Qed.

Lemma cycle_keeps_timestamps_ordered_witness :
  timestamps_ordered (Coordinator.mk (Some 100) (Some 100) 25 15)
  /\ not_after 100 (Coordinator.mk (Some 100) (Some 100) 25 15)
  /\ (_last_charger_update_time (Coordinator.mk (Some 90) None 25 15) = None ->
      _last_decrease_time (Coordinator.mk (Some 90) None 25 15) = None).
Proof.
  apply (cycle_keeps_timestamps_ordered
           (fun available_currents _ => available_currents)
           (fun _ => Some 27) 3 (mock_charger "c1" (fromkeys 16)) 100 100
           (Coordinator.mk (Some 90) None 25 15)
           (Coordinator.mk (Some 100) (Some 100) 25 15)
           (one_charger true 16 32)
           (allocator_after
              (overloaded_cycle (Coordinator.mk (Some 90) None 25 15) 100))
           [UpdateSensors; FireEvent "new_charger_limits" (fromkeys 14);
            SetCurrentLimit (fromkeys 14)]).
  - exact I.
  - intros last_update [= <-]. lia.
  - vm_compute. reflexivity.
Defined.

End Cycle.

(** ** Webasto Unite adapter *)

Section WebastoStatus.

Import WebastoUniteCharger.

(** X21. Webasto Unite: [is_charging] holds exactly in state 2 (Charging),
    [can_charge] exactly in states 1, 2 and 4 (Preparing, Charging,
    SuspendedEV) and [car_connected] exactly in states 1 to 5. So a
    charger that is charging can charge, one that can charge has a car
    connected, and with an unknown state all three are false. *)
Theorem webasto_status_predicates_nest (status : option Z) :
  (is_charging status = true <-> status = Some 2)
  /\ (can_charge status = true <->
      status = Some 1 \/ status = Some 2 \/ status = Some 4)
  /\ (car_connected status = true <->
      exists s, status = Some s /\ 1 <= s <= 5)
  /\ (is_charging status = true -> can_charge status = true)
  /\ (can_charge status = true -> car_connected status = true).
Proof.
  assert (Hcharging : is_charging status = true <-> status = Some 2).
  { unfold is_charging. by rewrite bool_decide_eq_true. }
  assert (Hcan : can_charge status = true <->
                 status = Some 1 \/ status = Some 2 \/ status = Some 4).
  { unfold can_charge, status_in. destruct status as [s|].
    - rewrite bool_decide_eq_true, !elem_of_cons, elem_of_nil.
      unfold Preparing, Charging, SuspendedEV. split.
      + intros [-> | [-> | [-> | Hf]]]; auto. done.
      + intros [[= ->]|[[= ->]|[= ->]]]; auto.
    - split; [done|]. intros [?|[?|?]]; done. }
  assert (Hcar : car_connected status = true <->
                 exists s, status = Some s /\ 1 <= s <= 5).
  { unfold car_connected, status_in. destruct status as [s|].
    - rewrite bool_decide_eq_true, !elem_of_cons, elem_of_nil.
      unfold Preparing, Charging, SuspendedEVSE, SuspendedEV, Finishing.
      split.
      + intros Hs. exists s. split; [done|]. lia.
      + intros (s' & [= <-] & Hs). lia.
    - split; [done|]. by intros (s & ? & _). }
  split; [done|]. split; [done|]. split; [done|]. split.
  - rewrite Hcharging, Hcan. auto.
  - rewrite Hcan, Hcar.
    intros [-> | [-> | ->]]; eexists; (split; [done|lia]).
Qed.

Lemma min_values_total (d : gmap Phase Z) :
  d <> ∅ -> exists m, min_values d = Ok m.
Proof.
  intros Hne. unfold min_values, values.
  destruct (items d) as [|[p v] l] eqn:Hitems.
  - apply items_empty_iff in Hitems. done.
  - simpl. eauto.
Qed.

Lemma min_values_fromkeys (m : Z) : min_values (fromkeys m) = Ok m.
Proof.
  destruct (min_values_total (fromkeys m)) as [v Hv].
  { apply fromkeys_nonempty. }
  rewrite Hv. apply min_values_Ok in Hv as [(p & Hp) _].
  rewrite lookup_fromkeys in Hp. congruence.
Qed.

(** X22. Webasto Unite: [set_current_limit] sends the least of the
    per-phase limits, which is the limit of some phase; for limits that
    are equal on all phases it is that value; an empty dictionary raises
    [ValueError]. *)
Theorem webasto_is_sent_the_least_limit (limit : gmap Phase Z) :
  (limit = ∅ -> set_current_limit limit = Raise ValueError)
  /\ (limit <> ∅ ->
      exists value,
        set_current_limit limit = Ok value
        /\ (exists p, limit !! p = Some value)
        /\ (forall p v, limit !! p = Some v -> value <= v))
  /\ (forall m, set_current_limit (fromkeys m) = Ok m).
Proof.
  unfold set_current_limit. split; [|split].
  - intros ->. reflexivity.
  - intros Hne. destruct (min_values_total limit Hne) as [m Hm].
    exists m. split; [done|]. by apply min_values_Ok.
  - apply min_values_fromkeys.
Qed.

End WebastoStatus.

Section WebastoProposals.

Import ChargerState PowerAllocator.

(** A synced charger of the result of [_allocate_current] has one value
    on all three phases. *)
Lemma allocated_synced_is_uniform now (_chargers : gmap string ChargerState.t)
    available_currents allocated charger_id limits state :
  _allocate_current now _chargers available_currents = Ok allocated ->
  allocated !! charger_id = Some limits ->
  _chargers !! charger_id = Some state ->
  Charger.has_synced_phase_limits (charger state) = true ->
  exists m, limits = fromkeys m.
Proof.
  unfold _allocate_current. intros Halloc Hl Hstate Hsynced.
  bind_inv Halloc. rename x into per_phase.
  destruct (flatten_result _ _ _ _ _ _ Halloc Hl)
    as (state' & entry & Hstate' & _ & Hentry & Hflat).
  assert (state' = state) as -> by congruence.
  rewrite Hsynced in Hflat.
  destruct (flatten_entry_synced (dom available_currents) entry limits)
    as (m & -> & _); [|done|by exists m].
  by apply (distribute_touches _ _ _ _ Hx charger_id).
Qed.

(** X23. A proposal of [update_allocation] for a Webasto Unite charger
    has one value on all three phases, so the value [set_current_limit]
    sends is the proposal on every phase. The charger's state lets it
    charge, and the value differs from the uniform limit the allocator
    reads for the charger. *)
Theorem webasto_loses_nothing_of_a_proposal
    (now : Z) (_chargers : gmap string ChargerState.t)
    (available_currents : gmap Phase Z)
    (res : gmap string (gmap Phase Z))
    (_chargers' : gmap string ChargerState.t)
    (charger_id : string) (new_limits : gmap Phase Z)
    (state : ChargerState.t)
    (settle_time : Z) (limit_state max_state status : option Z) :
  update_allocation now _chargers available_currents = Ok (res, _chargers') ->
  res !! charger_id = Some new_limits ->
  _chargers !! charger_id = Some state ->
  charger state
  = WebastoUniteCharger.adapter charger_id settle_time limit_state
      max_state status ->
  exists value state',
    new_limits = fromkeys value
    /\ WebastoUniteCharger.set_current_limit new_limits = Ok value
    /\ WebastoUniteCharger.can_charge status = true
    /\ _chargers' !! charger_id = Some state'
    /\ (forall reported,
          get_current_limit now state' = Some (fromkeys reported) ->
          value <> reported).
Proof.
  intros Hu Hres Hstate Hadapter.
  destruct (update_allocation_proposal _ _ _ _ _ _ _ Hu Hres)
    as (state0 & state' & cs & Hstate0 & Hcan & Hstate' & Hcharger & _ & _
        & Hlimit & _ & Hchange).
  assert (state0 = state) as -> by congruence.
  rewrite Hadapter in Hcan, Hchange. simpl in Hcan, Hchange.
  destruct (update_allocation_entries _ _ _ _ _ _ _ Hu Hres)
    as (prepared & allocated & Hprep & Halloc & Hd).
  pose proof (prepare_all_states _ _ _ Hprep charger_id) as Hp.
  rewrite Hstate in Hp. destruct Hp as (pstate & Hprepare & Hpstate).
  pose proof Hprepare as Hfields.
  apply prepare_fields in Hfields as (Hpcharger & _).
  destruct (allocated_synced_is_uniform _ _ _ _ _ _ _ Halloc Hd Hpstate)
    as [m ->].
  { by rewrite Hpcharger, Hadapter. }
  exists m, state'. split; [done|]. split; [apply min_values_fromkeys|].
  split; [done|]. split; [done|].
  intros reported Hreported.
  destruct Hchange as (mc & mn & Hmc & Hmn & Hne).
  rewrite min_values_fromkeys in Hmn. injection Hmn as <-.
  rewrite Hreported in Hlimit. injection Hlimit as <-.
  rewrite min_values_fromkeys in Hmc. injection Hmc as <-. done.
Qed.

Lemma webasto_loses_nothing_of_a_proposal_witness :
  exists value state',
    fromkeys 14 = fromkeys value
    /\ WebastoUniteCharger.set_current_limit (fromkeys 14) = Ok value
    /\ WebastoUniteCharger.can_charge (Some 2) = true
    /\ chargers_after
         (update_allocation 100 (one_charger true 16 32) (fromkeys (-2)))
       !! "c1" = Some state'
    /\ (forall reported,
          get_current_limit 100 state' = Some (fromkeys reported) ->
          value <> reported).
Proof.
  apply (webasto_loses_nothing_of_a_proposal 100 (one_charger true 16 32)
           (fromkeys (-2))
           (proposed
              (update_allocation 100 (one_charger true 16 32)
                 (fromkeys (-2))))
           (chargers_after
              (update_allocation 100 (one_charger true 16 32)
                 (fromkeys (-2))))
           "c1" (fromkeys 14)
           (charging "c1" true (fromkeys 16) (fromkeys 32))
           5 (Some 16) (Some 32) (Some 2)).
  - vm_compute. reflexivity.
  - vm_compute. reflexivity.
  - reflexivity.
  - reflexivity.
Defined.

End WebastoProposals.

(** ** DSMR meter and sensors *)

Section Dsmr.

Import PyFloat DsmrMeter.

Lemma sub_zero_r (x : float) : sub x (S754_zero false) = x.
Proof. by destruct x as [[|]| | |]. Qed.

Lemma of_int_1000 : of_int 1000 = Ok (S754_finite false 8796093022208000 (-43)).
Proof. vm_compute. reflexivity. Qed.

Lemma floor_nonneg f n : has_sign false f -> floor f = Ok n -> 0 <= n.
Proof.
  destruct f as [| | |s m e]; simpl; intros Hs Hn; try discriminate.
  - injection Hn as <-. lia.
  - injection Hn as <-. subst s. apply floor_finite_pos.
Qed.

(** X24. DSMR meter: a missing production sensor counts as 0.0 and leaves
    the consumption reading as it is. The power is [None] exactly when
    the consumption is missing; the current is [None] exactly when the
    consumption or the voltage is missing or the voltage is zero; and
    [get_active_phase_current] never raises [ZeroDivisionError]. *)
Theorem dsmr_current_needs_consumption_and_voltage
    (consumption_state production_state voltage_state : option float) :
  get_active_phase_power consumption_state None = consumption_state
  /\ (get_active_phase_power consumption_state production_state = None <->
      consumption_state = None)
  /\ (get_active_phase_current consumption_state production_state
        voltage_state = Ok None <->
      consumption_state = None \/ voltage_state = None
      \/ exists s, voltage_state = Some (S754_zero s))
  /\ get_active_phase_current consumption_state production_state
       voltage_state <> Raise ZeroDivisionError
  /\ get_active_phase_current consumption_state None voltage_state
     = get_active_phase_current consumption_state (Some (S754_zero false))
         voltage_state.
Proof.
  split; [|split; [|split; [|split]]].
  - unfold get_active_phase_power. destruct consumption_state as [c|]; [|done].
    simpl. by rewrite sub_zero_r.
  - unfold get_active_phase_power. by destruct consumption_state.
  - unfold get_active_phase_current, get_active_phase_power.
    destruct consumption_state as [c|].
    2:{ split; [by left|done]. }
    destruct voltage_state as [v|].
    2:{ split; [right; by left|done]. }
    destruct v as [s| | |s m e]; rewrite ?of_int_1000; simpl.
    + split; [|done]. intros _. right. right. by exists s.
    + destruct (floor _); simpl; split; try done;
        intros [?|[?|(? & ?)]]; done.
    + destruct (floor _); simpl; split; try done;
        intros [?|[?|(? & ?)]]; done.
    + destruct (floor _); simpl; split; try done;
        intros [?|[?|(? & ?)]]; done.
  - unfold get_active_phase_current, get_active_phase_power.
    destruct consumption_state as [c|]; [|done].
    destruct voltage_state as [v|]; [|done].
    destruct v as [s| | |s m e]; rewrite ?of_int_1000; simpl; [done|..].
    + destruct (div _ _); simpl; done.
    + destruct (div _ _); simpl; done.
    + destruct (div _ _); simpl; done.
  - done.
Qed.

(** X25. DSMR meter and coordinator: with a positive voltage the current
    has the sign of the net power. On a phase that exports the current is
    not positive and the whole fuse is available; on a phase that imports
    the current is not negative and [fuse_size - current] is available. *)
Theorem dsmr_sign_of_the_current
    (consumption_state production_state : option float)
    (active_power voltage_state : float) (exporting : bool) (current : Z)
    (self : Coordinator.t) :
  get_active_phase_power consumption_state production_state
  = Some active_power ->
  has_sign exporting active_power ->
  has_sign false voltage_state ->
  get_active_phase_current consumption_state production_state
    (Some voltage_state) = Ok (Some current) ->
  if exporting then
    current <= 0
    /\ Coordinator.get_available_current_for_phase self (Some current)
       = Some (Coordinator.fuse_size self)
  else
    0 <= current
    /\ Coordinator.get_available_current_for_phase self (Some current)
       = Some (Coordinator.fuse_size self - current).
Proof.
  intros Hpower Hsign Hvoltage. unfold get_active_phase_current.
  rewrite Hpower. destruct (float_truthy voltage_state) eqn:Htruthy; [|done].
  rewrite of_int_1000. simpl. intros H. bind_inv H. bind_inv H.
  injection H as <-. rename x into quotient.
  assert (has_sign exporting quotient) as Hq.
  { unfold float_truediv in Hx.
    assert (quotient
            = div (mul active_power
                     (S754_finite false 8796093022208000 (-43)))
                voltage_state) as ->.
    { destruct voltage_state; [done|by injection Hx as <-..]. }
    replace exporting with (xorb (xorb exporting false) false)
      by (by destruct exporting).
    apply has_sign_div; [|done]. by apply has_sign_mul. }
  unfold Coordinator.get_available_current_for_phase.
  destruct exporting.
  - apply floor_nonpos in Hx0; [|done]. split; [done|]. f_equal. lia.
  - apply floor_nonneg in Hx0; [|done]. split; [done|]. f_equal. lia.
Qed.

Lemma dsmr_sign_of_the_current_witness :
  (-9) <= 0
  /\ Coordinator.get_available_current_for_phase
       (Coordinator.mk None None 25 15) (Some (-9))
     = Some (Coordinator.fuse_size (Coordinator.mk None None 25 15)).
Proof.
  apply (dsmr_sign_of_the_current
           (Some (float_of_ratio 1 2)) (Some (float_of_ratio 5 2))
           (float_of_ratio (-2) 1) (float_of_ratio 230 1) true (-9)
           (Coordinator.mk None None 25 15)).
  - vm_compute. reflexivity.
  - reflexivity.
  - reflexivity.
  - vm_compute. reflexivity.
Defined.

(** The reading of the repository's test: 2.3 kW at 230 V is 10 A. *)
Lemma dsmr_scenario_test_get_active_phase_current :
  get_active_phase_current (Some (float_of_ratio 23 10)) None
    (Some (float_of_ratio 230 1)) = Ok (Some 10)
  /\ get_active_phase_power (Some (float_of_ratio 5 2))
       (Some (float_of_ratio 1 2)) = Some (float_of_ratio 2 1)
  /\ get_active_phase_power (Some (float_of_ratio 5 2)) None
     = Some (float_of_ratio 5 2).
Proof. repeat split; vm_compute; reflexivity. Qed.

End Dsmr.

Section Sensors.

Import Coordinator.

Context `{EqDecision A}.

Lemma elem_of_list_remove (x y : A) (l : list A) :
  NoDup l -> y ∈ list_remove x l <-> y ∈ l /\ y <> x.
Proof.
  induction l as [|z l IH]; intros Hnd; simpl.
  - rewrite elem_of_nil. tauto.
  - apply NoDup_cons in Hnd as [Hz Hnd].
    destruct (decide (x = z)) as [->|Hne].
    + rewrite elem_of_cons. split.
      * intros Hy. split; [by right|]. by intros ->.
      * intros [[->|Hy] Hne]; done.
    + rewrite !elem_of_cons, IH by done. split.
      * intros [->|[? ?]]; [split; [by left|done]|split; [by right|done]].
      * intros [[->|?] ?]; [by left|by right].
Qed.

Lemma NoDup_list_remove (x : A) (l : list A) :
  NoDup l -> NoDup (list_remove x l).
Proof.
  induction l as [|z l IH]; intros Hnd; simpl; [done|].
  apply NoDup_cons in Hnd as [Hz Hnd].
  destruct (decide (x = z)); [done|].
  apply NoDup_cons. split; [|by apply IH].
  rewrite elem_of_list_remove by done. by intros [? _].
Qed.

Lemma list_remove_app_fresh (x : A) (l : list A) :
  x ∉ l -> list_remove x (l ++ [x]) = l.
Proof.
  induction l as [|z l IH]; intros Hx; simpl.
  - by rewrite decide_True.
  - apply not_elem_of_cons in Hx as [Hne Hx].
    rewrite decide_False by done. by rewrite IH.
Qed.

(** X26. A list of sensors without duplicates stays so under
    [register_sensor] and [unregister_sensor]. After registering, the
    sensor is in the list and registering it again changes nothing; after
    unregistering it is not; unregistering a sensor that was just
    registered restores the list; other sensors are not affected. *)
Theorem sensors_are_registered_once (_sensors : list A) (sensor : A) :
  NoDup _sensors ->
  NoDup (register_sensor _sensors sensor)
  /\ NoDup (unregister_sensor _sensors sensor)
  /\ sensor ∈ register_sensor _sensors sensor
  /\ (sensor ∉ unregister_sensor _sensors sensor)
  /\ register_sensor (register_sensor _sensors sensor) sensor
     = register_sensor _sensors sensor
  /\ (sensor ∉ _sensors ->
      unregister_sensor (register_sensor _sensors sensor) sensor = _sensors)
  /\ (forall other, other <> sensor ->
        (other ∈ register_sensor _sensors sensor <-> other ∈ _sensors)
        /\ (other ∈ unregister_sensor _sensors sensor <->
            other ∈ _sensors)).
Proof.
  intros Hnd. unfold register_sensor, unregister_sensor.
  destruct (decide (sensor ∈ _sensors)) as [Hin|Hnotin].
  - rewrite !bool_decide_eq_true_2 by done.
    split; [done|]. split; [by apply NoDup_list_remove|].
    split; [done|]. split.
    { rewrite elem_of_list_remove by done. by intros [_ ?]. }
    split; [done|]. split; [done|]. intros other Hne. split; [done|].
    rewrite elem_of_list_remove by done. tauto.
  - rewrite !bool_decide_eq_false_2 by done.
    assert (sensor ∈ _sensors ++ [sensor]) as Hin'.
    { apply elem_of_app. right. by left. }
    rewrite !bool_decide_eq_true_2 by done.
    split.
    { apply NoDup_app. split; [done|]. split.
      - intros y Hy Hy'. apply list_elem_of_singleton in Hy'. by subst.
      - apply NoDup_singleton. }
    split; [done|]. split; [done|]. split; [done|]. split; [done|].
    split; [intros _; by apply list_remove_app_fresh|].
    intros other Hne. split; [|done].
    rewrite elem_of_app, list_elem_of_singleton. tauto.
Qed.

End Sensors.

Section SensorsWitness.

Import Coordinator.

Lemma sensors_are_registered_once_witness :
  NoDup (register_sensor ["power_l1"; "power_l2"] "power_l3")
  /\ NoDup (unregister_sensor ["power_l1"; "power_l2"] "power_l3")
  /\ "power_l3" ∈ register_sensor ["power_l1"; "power_l2"] "power_l3"
  /\ ("power_l3" ∉ unregister_sensor ["power_l1"; "power_l2"] "power_l3")
  /\ register_sensor (register_sensor ["power_l1"; "power_l2"] "power_l3")
       "power_l3"
     = register_sensor ["power_l1"; "power_l2"] "power_l3"
  /\ ("power_l3" ∉ ["power_l1"; "power_l2"] ->
      unregister_sensor
        (register_sensor ["power_l1"; "power_l2"] "power_l3") "power_l3"
      = ["power_l1"; "power_l2"])
  /\ (forall other, other <> "power_l3" ->
        (other ∈ register_sensor ["power_l1"; "power_l2"] "power_l3" <->
         other ∈ ["power_l1"; "power_l2"])
        /\ (other ∈ unregister_sensor ["power_l1"; "power_l2"] "power_l3"
            <-> other ∈ ["power_l1"; "power_l2"])).
Proof.
  apply (sensors_are_registered_once ["power_l1"; "power_l2"] "power_l3").
  apply (bool_decide_unpack _). vm_compute. exact I.
Defined.

End SensorsWitness.

(** ** The distribution loops at work *)

Section LoopWitnesses.

Import ChargerState PowerAllocator.

(** Chargers at 10 A and 16 A and a delta of -4 A: the cuts of the
    specification's example, 8 A and 13 A. *)
Lemma _distribute_cuts_writes_witness :
  exists charger_currents,
    NoDup charger_currents.*1
    /\ (forall charger_id current,
          (charger_id, current) ∈ charger_currents <->
          exists state current_setting,
            two_chargers 10 32 16 32 !! charger_id = Some state
            /\ Charger.can_charge (charger state) = true
            /\ get_current_limit 100 state = Some current_setting
            /\ current_setting <> ∅
            /\ current_setting !! L1 = Some current)
    /\ (total charger_currents = 0 ->
        <[ "c1" := {[L1 := 8]} ]> {[ "c2" := {[L1 := 13]} ]}
        = (∅ : gmap string (gmap Phase Z)))
    /\ (total charger_currents <> 0 ->
        (forall charger_id current,
           (charger_id, current) ∈ charger_currents ->
           exists cut entry,
             proportional_cut (-4) current (total charger_currents)
             = Ok cut
             /\ (<[ "c1" := {[L1 := 8]} ]> {[ "c2" := {[L1 := 13]} ]}
                 : gmap string (gmap Phase Z)) !! charger_id
                = Some (<[L1 := Z.max 0 (current + cut)]> entry))
        /\ (forall charger_id,
              charger_id ∉ charger_currents.*1 ->
              (<[ "c1" := {[L1 := 8]} ]> {[ "c2" := {[L1 := 13]} ]}
               : gmap string (gmap Phase Z)) !! charger_id
              = (∅ : gmap string (gmap Phase Z)) !! charger_id)).
Proof.
  apply (_distribute_cuts_writes 100 (two_chargers 10 32 16 32) L1 (-4) ∅
           (<[ "c1" := {[L1 := 8]} ]> {[ "c2" := {[L1 := 13]} ]})).
  vm_compute. reflexivity.
Defined.

(** Chargers at 10 A and 16 A requesting 32 A and 20 A, and a delta of
    +9 A: the potentials are 22 and 4. *)
Lemma _distribute_increases_writes_witness :
  exists potential_increases,
    NoDup potential_increases.*1
    /\ (forall charger_id potential,
          (charger_id, potential) ∈ potential_increases <->
          exists state current_setting requested current wanted,
            two_chargers 10 32 16 20 !! charger_id = Some state
            /\ Charger.can_charge (charger state) = true
            /\ get_current_limit 100 state = Some current_setting
            /\ current_setting <> ∅
            /\ requested_current state = Some requested
            /\ requested <> ∅
            /\ current_setting !! L1 = Some current
            /\ requested !! L1 = Some wanted
            /\ wanted > current
            /\ potential = wanted - current)
    /\ (total potential_increases = 0 ->
        <[ "c1" := {[L1 := 17]} ]> {[ "c2" := {[L1 := 17]} ]}
        = (∅ : gmap string (gmap Phase Z)))
    /\ (total potential_increases <> 0 ->
        (forall charger_id state current_setting requested current wanted,
           two_chargers 10 32 16 20 !! charger_id = Some state ->
           Charger.can_charge (charger state) = true ->
           get_current_limit 100 state = Some current_setting ->
           current_setting <> ∅ ->
           requested_current state = Some requested ->
           requested <> ∅ ->
           current_setting !! L1 = Some current ->
           requested !! L1 = Some wanted ->
           wanted > current ->
           exists increase entry,
             proportional_increase 9 (wanted - current)
               (total potential_increases) = Ok increase
             /\ (<[ "c1" := {[L1 := 17]} ]> {[ "c2" := {[L1 := 17]} ]}
                 : gmap string (gmap Phase Z)) !! charger_id
                = Some (<[L1 := current + increase]> entry)
             /\ (0 < 9 ->
                 0 <= increase /\ current + increase <= wanted))
        /\ (forall charger_id,
              charger_id ∉ potential_increases.*1 ->
              (<[ "c1" := {[L1 := 17]} ]> {[ "c2" := {[L1 := 17]} ]}
               : gmap string (gmap Phase Z)) !! charger_id
              = (∅ : gmap string (gmap Phase Z)) !! charger_id)).
Proof.
  apply (_distribute_increases_writes 100 (two_chargers 10 32 16 20) L1 9 ∅
           (<[ "c1" := {[L1 := 17]} ]> {[ "c2" := {[L1 := 17]} ]})).
  vm_compute. reflexivity.
Defined.

End LoopWitnesses.
